(** * update_portfolio.py: a shallow embedding and its verified properties

    The script scans an [art] directory, renders two HTML fragments and
    splices each between a pair of comment markers of a target page.

    Text is modelled as a list of bytes ([str]).  A Python string stands as
    the bytes [os.fsencode] gives it: its UTF-8 encoding, with every lone
    surrogate that carries a byte of a file name that is not UTF-8 put back
    as that byte.  A string can be written with [encoding='utf-8'] exactly
    when these bytes are well-formed UTF-8 ([valid_utf8]); a file read with
    [encoding='utf-8'] must hold well-formed UTF-8 and comes back with its
    line endings translated ([universal_newlines]).  The only strings of a
    run that hold lone surrogates are file names as the operating system
    interface decodes them, and such a string is determined by its bytes.
    Searching and slicing give the same text on bytes as on code points,
    because a match of well-formed UTF-8 inside well-formed UTF-8 always
    starts on a character boundary.  Case mapping ([lower], [title]) is
    modelled on the ASCII letters; the theorems that depend on it carry an
    [ascii_only] hypothesis.  Line endings are written as on POSIX.

    The file system is a finite listing of absolute paths with their kind,
    in the order the operating system happens to enumerate them.  Printing
    appends to a log of messages, one constructor per [print] call;
    standard output is taken to accept every string, as it does with the
    [surrogateescape] handler Python gives it in the C and POSIX locales
    and in UTF-8 mode.  An exception that the script does not catch ends
    the run ([Raised]). *)

From Stdlib Require Import List Ascii String ZArith Lia Bool Arith.
From Stdlib Require Import Permutation Sorted.
Import ListNotations.

(* ================================================================== *)
(** ** Python strings *)

Definition str := list ascii.

(** A literal of the source. *)
Definition lit (x : string) : str := list_ascii_of_string x.

Definition nl : ascii := "010"%char.
Definition dquote : ascii := "034"%char.
Definition space : ascii := " "%char.

Fixpoint str_eqb (a b : str) : bool :=
  match a, b with
  | [], [] => true
  | x :: a', y :: b' => Ascii.eqb x y && str_eqb a' b'
  | _, _ => false
  end.

(** [s.startswith(sub)] *)
Fixpoint startswith (sub s : str) : bool :=
  match sub, s with
  | [], _ => true
  | _ :: _, [] => false
  | x :: sub', y :: s' => Ascii.eqb x y && startswith sub' s'
  end.

(** The index of the first occurrence of [sub] in [s], if there is one. *)
Fixpoint find_index (sub s : str) : option nat :=
  if startswith sub s then Some 0
  else match s with
       | [] => None
       | _ :: s' => option_map S (find_index sub s')
       end.

(** [s.find(sub)]: the lowest index, or -1. *)
Definition find (s sub : str) : Z :=
  match find_index sub s with
  | Some i => Z.of_nat i
  | None => (-1)%Z
  end.

(** [sub in s] *)
Definition contains (sub s : str) : bool :=
  match find_index sub s with
  | Some _ => true
  | None => false
  end.

Definition len (s : str) : Z := Z.of_nat (List.length s).

(** A slice bound as Python resolves it: a negative index counts from the
    end, and the result is clipped to the string. *)
Definition slice_bound (s : str) (i : Z) : nat :=
  if (i <? 0)%Z then Z.to_nat (len s + i) else Z.to_nat i.

(** [s[:i]] *)
Definition slice_to (s : str) (i : Z) : str := firstn (slice_bound s i) s.

(** [s[i:]] *)
Definition slice_from (s : str) (i : Z) : str := skipn (slice_bound s i) s.

(** [s.replace(a, b)] for single characters. *)
Definition replace (a b : ascii) (s : str) : str :=
  map (fun c => if Ascii.eqb c a then b else c) s.

(** [sep.join(parts)] *)
Fixpoint join (sep : str) (parts : list str) : str :=
  match parts with
  | [] => []
  | [p] => p
  | p :: rest => p ++ sep ++ join sep rest
  end.

(* ================================================================== *)
(** ** Encoded text *)

Definition cr : ascii := "013"%char.

Definition byte_in (lo hi : N) (b : ascii) : bool :=
  ((lo <=? N_of_ascii b) && (N_of_ascii b <=? hi))%N.

Definition continuation (b : ascii) : bool := byte_in 128 191 b.

(** The bytes are well-formed UTF-8: what the strict decoder accepts and
    what the strict encoder can produce. *)
Fixpoint valid_utf8 (s : str) : bool :=
  match s with
  | [] => true
  | b0 :: s1 =>
      if byte_in 0 127 b0 then valid_utf8 s1
      else if byte_in 194 223 b0 then
        match s1 with
        | b1 :: s2 => continuation b1 && valid_utf8 s2
        | _ => false
        end
      else if byte_in 224 239 b0 then
        match s1 with
        | b1 :: b2 :: s3 =>
            (if byte_in 224 224 b0 then byte_in 160 191 b1
             else if byte_in 237 237 b0 then byte_in 128 159 b1
             else continuation b1)
              && continuation b2 && valid_utf8 s3
        | _ => false
        end
      else if byte_in 240 244 b0 then
        match s1 with
        | b1 :: b2 :: b3 :: s4 =>
            (if byte_in 240 240 b0 then byte_in 144 191 b1
             else if byte_in 244 244 b0 then byte_in 128 143 b1
             else continuation b1)
              && continuation b2 && continuation b3 && valid_utf8 s4
        | _ => false
        end
      else false
  end.

(** What reading in text mode makes of the line endings: a carriage
    return, with the newline that may follow it, becomes one newline. *)
Fixpoint universal_newlines (s : str) : str :=
  match s with
  | [] => []
  | c :: s1 =>
      if Ascii.eqb c cr then
        nl :: match s1 with
              | c1 :: s2 =>
                  if Ascii.eqb c1 nl then universal_newlines s2
                  else universal_newlines s1
              | [] => []
              end
      else c :: universal_newlines s1
  end.

(* ================================================================== *)
(** ** Paths, the file system and the process state *)

(** An absolute path, as its components below the root. *)
Definition path := list str.

Fixpoint path_eqb (p q : path) : bool :=
  match p, q with
  | [], [] => true
  | x :: p', y :: q' => str_eqb x y && path_eqb p' q'
  | _, _ => false
  end.

Inductive node : Type :=
| Dir
| File (content : str).

(** One constructor per [print] call of the script, with the values it
    interpolates. *)
Inductive message : Type :=
| MsgArtMissing (art_folder : path)      (* Error: Art folder '...' does not exist! *)
| MsgFileMissing (file_path : path)      (* Error: File '...' does not exist! *)
| MsgNoMarkers (file_path : path)        (* Error: Could not find markers in ... *)
| MsgMakeSure                            (* Make sure the file contains both: *)
| MsgMarker (marker : str)               (*   <marker> *)
| MsgBanner                              (* Portfolio Content Updater *)
| MsgRule                                (* "=" * 50 *)
| MsgScanning (art_folder : path)        (* Scanning art folder: ... *)
| MsgGalleryStage                        (* UPDATING GALLERY... *)
| MsgNoImages                            (* No images found for gallery! *)
| MsgFoundImages (n : nat)               (* Found n total images *)
| MsgGeneratingGallery                   (* Generating gallery HTML... *)
| MsgUpdating (file_path : path)         (* Updating <file>... *)
| MsgGalleryUpdated (n : nat)            (* Gallery updated with n images *)
| MsgGalleryFailed                       (* Failed to update gallery page *)
| MsgCollectionsStage                    (* UPDATING COLLECTIONS... *)
| MsgNoCollections                       (* No collections found (...) *)
| MsgFoundCollections (n total : nat)    (* Found n collections with total images: *)
| MsgCollectionLine (name : str) (n : nat) (*    name: n images *)
| MsgGeneratingCollections               (* Generating collections HTML... *)
| MsgCollectionsUpdated (n : nat)        (* Collections updated with n collections *)
| MsgCollectionsFailed                   (* Failed to update collections page *)
| MsgFinalRule                           (* "\n" + "=" * 50 *)
| MsgComplete.                           (* Update complete! *)

Record world : Type := World {
  fs : list (path * node);   (* every existing path, in enumeration order *)
  cwd : path;                (* the current working directory *)
  stdout : list message      (* what has been printed, oldest first *)
}.

Fixpoint lookup (p : path) (l : list (path * node)) : option node :=
  match l with
  | [] => None
  | (q, n) :: l' => if path_eqb q p then Some n else lookup p l'
  end.

(** Overwrite the content stored at [p]; a path that is not listed is
    created. *)
Fixpoint store (p : path) (c : str) (l : list (path * node)) : list (path * node) :=
  match l with
  | [] => [(p, File c)]
  | (q, n) :: l' => if path_eqb q p then (q, File c) :: l' else (q, n) :: store p c l'
  end.

Inductive exn : Type :=
| FileNotFoundError
| IsADirectoryError
| NotADirectoryError
| UnicodeDecodeError
| UnicodeEncodeError.

(** The result of running a piece of the script: it returns, or an
    exception nobody catches ends the process. *)
Inductive outcome (A : Type) : Type :=
| Done (a : A) (w : world)
| Raised (e : exn) (w : world).

Arguments Done {A} a w.
Arguments Raised {A} e w.

Definition M (A : Type) : Type := world -> outcome A.

Definition ret {A} (a : A) : M A := fun w => Done a w.

Definition bind {A B} (m : M A) (k : A -> M B) : M B :=
  fun w => match m w with
           | Done a w' => k a w'
           | Raised e w' => Raised e w'
           end.

Declare Scope io_scope.
Delimit Scope io_scope with io.
Notation "x <- m ;; k" := (bind m (fun x => k))
  (at level 61, m at next level, right associativity) : io_scope.
Notation "m ;; k" := (bind m (fun _ => k))
  (at level 61, right associativity) : io_scope.
Open Scope io_scope.

Definition final_world {A} (o : outcome A) : world :=
  match o with
  | Done _ w => w
  | Raised _ w => w
  end.

Definition print (m : message) : M unit :=
  fun w => Done tt (World (fs w) (cwd w) (stdout w ++ [m])).

(** [p.exists()] *)
Definition path_exists (p : path) : M bool :=
  fun w => Done (match lookup p (fs w) with Some _ => true | None => false end) w.

(** [open(p, 'r', encoding='utf-8').read()]: the bytes must decode, and
    the text comes back with its line endings translated. *)
Definition read_text (p : path) : M str :=
  fun w => match lookup p (fs w) with
           | Some (File bytes) =>
               if valid_utf8 bytes then Done (universal_newlines bytes) w
               else Raised UnicodeDecodeError w
           | Some Dir => Raised IsADirectoryError w
           | None => Raised FileNotFoundError w
           end.

(** [open(p, 'w', encoding='utf-8').write(c)]: opening empties the file;
    a text that cannot be encoded is not written at all. *)
Definition write_text (p : path) (c : str) : M unit :=
  fun w => match lookup p (fs w) with
           | Some Dir => Raised IsADirectoryError w
           | _ =>
               if valid_utf8 c then
                 Done tt (World (store p c (fs w)) (cwd w) (stdout w))
               else
                 Raised UnicodeEncodeError
                   (World (store p [] (fs w)) (cwd w) (stdout w))
           end.

(* ================================================================== *)
(** ** The marker splicer *)

(** The text [update_file_content] writes back (its local
    [new_file_content]). *)
Definition new_file_content (content new_content start_marker end_marker : str) : str :=
  let start_idx := (find content start_marker + len start_marker)%Z in
  let end_idx := find content end_marker in
  slice_to content start_idx
    ++ [nl] ++ new_content ++ [nl] ++ lit "        "
    ++ slice_from content end_idx.

Definition update_file_content
    (file_path : path) (new_content start_marker end_marker : str) : M bool :=
  present <- path_exists file_path ;;
  if negb present then
    print (MsgFileMissing file_path) ;;
    ret false
  else
    content <- read_text file_path ;;
    if negb (contains start_marker content) || negb (contains end_marker content) then
      print (MsgNoMarkers file_path) ;;
      print MsgMakeSure ;;
      print (MsgMarker start_marker) ;;
      print (MsgMarker end_marker) ;;
      ret false
    else
      write_text file_path
        (new_file_content content new_content start_marker end_marker) ;;
      ret true.

(* ================================================================== *)
(** ** Case mapping and labels *)

Definition code (c : ascii) : N := N_of_ascii c.

Definition is_upper (c : ascii) : bool := ((65 <=? code c) && (code c <=? 90))%N.
Definition is_lower (c : ascii) : bool := ((97 <=? code c) && (code c <=? 122))%N.
Definition is_cased (c : ascii) : bool := is_upper c || is_lower c.

Definition to_lower (c : ascii) : ascii :=
  if is_upper c then ascii_of_N (code c + 32) else c.
Definition to_upper (c : ascii) : ascii :=
  if is_lower c then ascii_of_N (code c - 32) else c.

(** The characters the case mapping is modelled on. *)
Definition ascii_only (s : str) : bool := forallb (fun c => (code c <? 128)%N) s.

(** [s.lower()] *)
Definition lower (s : str) : str := map to_lower s.

(** [s.title()]: a character that follows a cased character is lowered,
    any other character is put in title case. *)
Fixpoint title_from (previous_is_cased : bool) (s : str) : str :=
  match s with
  | [] => []
  | c :: s' =>
      (if previous_is_cased then to_lower c else to_upper c)
        :: title_from (is_cased c) s'
  end.

Definition title (s : str) : str := title_from false s.

(** The last index of a character, [s.rfind(c)]. *)
Fixpoint rfind_index (c : ascii) (s : str) : option nat :=
  match s with
  | [] => None
  | x :: s' =>
      match rfind_index c s' with
      | Some i => Some (S i)
      | None => if Ascii.eqb x c then Some 0 else None
      end
  end.

(** [PurePath.name]: the final component. *)
Definition name (p : path) : str := last p [].

(** Where pathlib splits a name into stem and suffix: the last dot, unless
    it is the first or the last character. *)
Definition suffix_index (nm : str) : option nat :=
  match rfind_index "."%char nm with
  | Some i => if (0 <? i) && (i <? List.length nm - 1) then Some i else None
  | None => None
  end.

(** [PurePath.suffix] *)
Definition suffix (p : path) : str :=
  match suffix_index (name p) with
  | Some i => skipn i (name p)
  | None => []
  end.

(** [PurePath.stem] *)
Definition stem (p : path) : str :=
  match suffix_index (name p) with
  | Some i => firstn i (name p)
  | None => name p
  end.

(** [x.replace('_', ' ').replace('-', ' ').title()], the derivation of
    both the alt text and the display name of a collection. *)
Definition display_text (x : str) : str :=
  title (replace "-"%char space (replace "_"%char space x)).

Definition alt_text (file_path : path) : str := display_text (stem file_path).

(* ================================================================== *)
(** ** Configuration *)

Definition ART_FOLDER : path := [lit "art"].
Definition GALLERY_HTML : path := [lit "pages"; lit "gallery.html"].
Definition COLLECTIONS_HTML : path := [lit "pages"; lit "collections.html"].
Definition SUPPORTED_EXTENSIONS : list str :=
  [lit ".png"; lit ".jpg"; lit ".jpeg"; lit ".gif"; lit ".webp"; lit ".svg"].

Definition GALLERY_START : str := lit "<!-- GALLERY_IMAGES_START -->".
Definition GALLERY_END : str := lit "<!-- GALLERY_IMAGES_END -->".
Definition COLLECTIONS_START : str := lit "<!-- COLLECTIONS_START -->".
Definition COLLECTIONS_END : str := lit "<!-- COLLECTIONS_END -->".

(** [x in SUPPORTED_EXTENSIONS] *)
Definition supported (x : str) : bool := existsb (str_eqb x) SUPPORTED_EXTENSIONS.

(* ================================================================== *)
(** ** Ordering of paths and [sorted] *)

Fixpoint lex_compare {A} (cmp : A -> A -> comparison) (a b : list A) : comparison :=
  match a, b with
  | [], [] => Eq
  | [], _ :: _ => Lt
  | _ :: _, [] => Gt
  | x :: a', y :: b' =>
      match cmp x y with
      | Eq => lex_compare cmp a' b'
      | c => c
      end
  end.

Definition char_compare (x y : ascii) : comparison := N.compare (code x) (code y).

(** Python compares strings by code point. *)
Definition str_compare : str -> str -> comparison := lex_compare char_compare.

(** pathlib compares paths as the lists of their components. *)
Definition path_compare : path -> path -> comparison := lex_compare str_compare.

Definition leb_of {A} (cmp : A -> A -> comparison) (a b : A) : bool :=
  match cmp a b with
  | Gt => false
  | _ => true
  end.

Definition path_leb : path -> path -> bool := leb_of path_compare.

Fixpoint insert (p : path) (l : list path) : list path :=
  match l with
  | [] => [p]
  | q :: l' => if path_leb p q then p :: l else q :: insert p l'
  end.

(** [sorted(paths)]: a stable sort by [path_leb]. *)
Definition sorted (l : list path) : list path := fold_right insert [] l.

(* ================================================================== *)
(** ** Directory traversal *)

Definition tree := list (path * node).

Definition is_file (t : tree) (p : path) : bool :=
  match lookup p t with
  | Some (File _) => true
  | _ => false
  end.

Definition is_dir (t : tree) (p : path) : bool :=
  match lookup p t with
  | Some Dir => true
  | _ => false
  end.

(** [p] lies strictly below [d]. *)
Fixpoint below (d p : path) : bool :=
  match d, p with
  | [], _ :: _ => true
  | x :: d', y :: p' => str_eqb x y && below d' p'
  | _, _ => false
  end.

(** [p] is an entry of the directory [d]. *)
Fixpoint child_of (d p : path) : bool :=
  match d, p with
  | [], [_] => true
  | x :: d', y :: p' => str_eqb x y && child_of d' p'
  | _, _ => false
  end.

(** [d.rglob('*')]: everything below [d], nothing when [d] is not a
    directory. *)
Definition rglob (t : tree) (d : path) : list path :=
  if is_dir t d then filter (below d) (map fst t) else [].

(** [d.iterdir()] *)
Definition iterdir (d : path) : M (list path) :=
  fun w => match lookup d (fs w) with
           | Some Dir => Done (filter (child_of d) (map fst (fs w))) w
           | Some (File _) => Raised NotADirectoryError w
           | None => Raised FileNotFoundError w
           end.

(* ================================================================== *)
(** ** Locators *)

Definition os_sep : ascii := "/"%char.
Definition pardir : str := lit "..".
Definition curdir : str := lit ".".

Fixpoint commonprefix (a b : path) : path :=
  match a, b with
  | x :: a', y :: b' => if str_eqb x y then x :: commonprefix a' b' else []
  | _, _ => []
  end.

(** [Path(x).parent] *)
Definition parent (p : path) : path := removelast p.

(** [os.path.relpath(p, start)] for an absolute [p] and a [start] that is
    relative to the current directory [here]. *)
Definition relpath (here : path) (p start : path) : str :=
  let start_list := here ++ start in
  let path_list := p in
  let i := List.length (commonprefix start_list path_list) in
  let rel_list := repeat pardir (List.length start_list - i) ++ skipn i path_list in
  match rel_list with
  | [] => curdir
  | _ => join [os_sep] rel_list
  end.

Definition image_entry : Type := (str * str)%type.

(** The (relative_path, alt_text) pair appended for one image file. *)
Definition entry_for (here : path) (html : path) (file_path : path) : image_entry :=
  let relative_path := relpath here file_path (parent html) in
  let relative_path := replace os_sep "/"%char relative_path in
  (relative_path, alt_text file_path).

(** The loop guard: a regular file with a supported extension. *)
Definition is_image (t : tree) (file_path : path) : bool :=
  is_file t file_path && supported (lower (suffix file_path)).

(** The files the loop over [sorted(folder.rglob('*'))] keeps, in order. *)
Definition image_files (t : tree) (folder : path) : list path :=
  filter (is_image t) (sorted (rglob t folder)).

(* ================================================================== *)
(** ** Scanner and grouper *)

Definition find_all_images (art_folder : path) : M (list image_entry) :=
  present <- path_exists art_folder ;;
  if negb present then
    print (MsgArtMissing art_folder) ;;
    ret []
  else
    fun w =>
      Done (map (entry_for (cwd w) GALLERY_HTML) (image_files (fs w) art_folder)) w.

(** An insertion-ordered dict of lists. *)
Definition collection_map : Type := list (str * list image_entry).

(** [collections[k].append(v)] on a [defaultdict(list)]. *)
Fixpoint dict_append (k : str) (v : image_entry) (d : collection_map) : collection_map :=
  match d with
  | [] => [(k, [v])]
  | (k', vs) :: d' =>
      if str_eqb k' k then (k', vs ++ [v]) :: d' else (k', vs) :: dict_append k v d'
  end.

(** The body of the loop over one subfolder. *)
Definition collect_subfolder (t : tree) (here : path)
    (collections : collection_map) (subfolder : path) : collection_map :=
  if is_dir t subfolder then
    let collection_name := name subfolder in
    fold_left
      (fun acc file_path =>
         dict_append collection_name (entry_for here COLLECTIONS_HTML file_path) acc)
      (image_files t subfolder) collections
  else collections.

Definition find_collections (art_folder : path) : M collection_map :=
  present <- path_exists art_folder ;;
  if negb present then
    print (MsgArtMissing art_folder) ;;
    ret []
  else
    subfolders <- iterdir art_folder ;;
    fun w =>
      Done (fold_left (collect_subfolder (fs w) (cwd w)) (sorted subfolders) []) w.

(* ================================================================== *)
(** ** Markup generators *)

Definition sp (n : nat) : str := repeat space n.

(** A double-quoted attribute value. *)
Definition quoted (x : str) : str := [dquote] ++ x ++ [dquote].

Definition item_html (img_path alt : str) : str :=
  sp 8 ++ lit "<div class=" ++ quoted (lit "gallery-grid-item") ++ lit ">" ++ [nl] ++
  sp 12 ++ lit "<img src=" ++ quoted img_path ++ lit " alt=" ++ quoted alt ++ lit ">" ++ [nl] ++
  sp 8 ++ lit "</div>".

Definition generate_gallery_html (images : list image_entry) : str :=
  join [nl] (map (fun e => item_html (fst e) (snd e)) images).

Definition card_html (img_path alt : str) : str :=
  sp 24 ++ lit "<div class=" ++ quoted (lit "collection-card") ++ lit ">" ++ [nl] ++
  sp 28 ++ lit "<div class=" ++ quoted (lit "card-image") ++ lit ">" ++ [nl] ++
  sp 32 ++ lit "<img src=" ++ quoted img_path ++ lit " alt=" ++ quoted alt ++ lit ">" ++ [nl] ++
  sp 28 ++ lit "</div>" ++ [nl] ++
  sp 24 ++ lit "</div>".

(** The labels of the two buttons, as the bytes of the source file. *)
Definition prev_label : str := map ascii_of_nat [226; 128; 154; 195; 132; 207; 128].
Definition next_label : str := map ascii_of_nat [226; 128; 154; 195; 132; 226; 136; 171].

Definition section_tag (collection_name : str) : str :=
  lit "<section class=" ++ quoted (lit "collection-section")
    ++ lit " data-collection=" ++ quoted collection_name ++ lit ">".

Definition heading_tag (display_name : str) : str :=
  lit "<h2>" ++ display_name ++ lit "</h2>".

Definition button_tag (which collection_name label : str) : str :=
  lit "<button class=" ++ quoted (lit "carousel-btn " ++ which)
    ++ lit " data-carousel=" ++ quoted collection_name ++ lit ">"
    ++ label ++ lit "</button>".

Definition carousel_tag (collection_name : str) : str :=
  lit "<div class=" ++ quoted (lit "collection-carousel")
    ++ lit " id=" ++ quoted (lit "carousel-" ++ collection_name) ++ lit ">".

Definition section_html (collection_name display_name : str) (cards_html : list str) : str :=
  sp 8 ++ lit "<!-- Collection: " ++ collection_name ++ lit " -->" ++ [nl] ++
  sp 8 ++ section_tag collection_name ++ [nl] ++
  sp 12 ++ lit "<div class=" ++ quoted (lit "collection-header") ++ lit ">" ++ [nl] ++
  sp 16 ++ heading_tag display_name ++ [nl] ++
  sp 12 ++ lit "</div>" ++ [nl] ++
  sp 12 ++ lit "<div class=" ++ quoted (lit "collection-carousel-container") ++ lit ">" ++ [nl] ++
  sp 16 ++ button_tag (lit "prev") collection_name prev_label ++ [nl] ++
  sp 16 ++ carousel_tag collection_name ++ [nl] ++
  sp 20 ++ lit "<div class=" ++ quoted (lit "carousel-track") ++ lit ">" ++ [nl] ++
  join [nl] cards_html ++ [nl] ++
  sp 20 ++ lit "</div>" ++ [nl] ++
  sp 16 ++ lit "</div>" ++ [nl] ++
  sp 16 ++ button_tag (lit "next") collection_name next_label ++ [nl] ++
  sp 12 ++ lit "</div>" ++ [nl] ++
  sp 8 ++ lit "</section>".

(** The section rendered for one item of the mapping. *)
Definition render_collection (collection_name : str) (images : list image_entry) : str :=
  let display_name := display_text collection_name in
  let cards_html := map (fun e => card_html (fst e) (snd e)) images in
  section_html collection_name display_name cards_html.

(** The sections of the loop, one per item whose list is not empty. *)
Fixpoint html_sections (collections : collection_map) : list str :=
  match collections with
  | [] => []
  | (_, []) :: rest => html_sections rest
  | (collection_name, images) :: rest =>
      render_collection collection_name images :: html_sections rest
  end.

Definition generate_collections_html (collections : collection_map) : str :=
  join [nl] (html_sections collections).

(* ================================================================== *)
(** ** Orchestrator *)

Fixpoint for_each {A} (l : list A) (body : A -> M unit) : M unit :=
  match l with
  | [] => ret tt
  | x :: l' => body x ;; for_each l' body
  end.

Definition total_images (collections : collection_map) : nat :=
  list_sum (map (fun kv => List.length (snd kv)) collections).

Definition gallery_pipeline (art_folder gallery_file : path) : M unit :=
  print MsgGalleryStage ;;
  all_images <- find_all_images art_folder ;;
  match all_images with
  | [] => print MsgNoImages
  | _ :: _ =>
      print (MsgFoundImages (List.length all_images)) ;;
      print MsgGeneratingGallery ;;
      let gallery_html := generate_gallery_html all_images in
      print (MsgUpdating gallery_file) ;;
      ok <- update_file_content gallery_file gallery_html GALLERY_START GALLERY_END ;;
      if ok then print (MsgGalleryUpdated (List.length all_images))
      else print MsgGalleryFailed
  end.

Definition collections_pipeline (art_folder collections_file : path) : M unit :=
  print MsgCollectionsStage ;;
  collections <- find_collections art_folder ;;
  match collections with
  | [] => print MsgNoCollections
  | _ :: _ =>
      let total_collection_images := total_images collections in
      print (MsgFoundCollections (List.length collections) total_collection_images) ;;
      for_each collections
        (fun kv => print (MsgCollectionLine (fst kv) (List.length (snd kv)))) ;;
      print MsgGeneratingCollections ;;
      let collections_html := generate_collections_html collections in
      print (MsgUpdating collections_file) ;;
      ok <- update_file_content collections_file collections_html
              COLLECTIONS_START COLLECTIONS_END ;;
      if ok then print (MsgCollectionsUpdated (List.length collections))
      else print MsgCollectionsFailed
  end.

(** [main()], for a script that lives in [script_dir]. *)
Definition main (script_dir : path) : M unit :=
  print MsgBanner ;;
  print MsgRule ;;
  let art_folder := script_dir ++ ART_FOLDER in
  let gallery_file := script_dir ++ GALLERY_HTML in
  let collections_file := script_dir ++ COLLECTIONS_HTML in
  print (MsgScanning art_folder) ;;
  gallery_pipeline art_folder gallery_file ;;
  collections_pipeline art_folder collections_file ;;
  print MsgFinalRule ;;
  print MsgComplete.

(* ================================================================== *)
(** ** The wording of the specification, for comparison *)

(** [sub] occurs in [s]. *)
Definition occurs (sub s : str) : Prop := exists pre post, s = pre ++ sub ++ post.

(** [sub] occurs in [s] at index [i] and at no lower index. *)
Definition first_at (sub s : str) (i : nat) : Prop :=
  (exists post, skipn i s = sub ++ post) /\ i <= List.length s /\
  forall k post, k < i -> skipn k s <> sub ++ post.

(** The split of a string at every occurrence of a character. *)
Fixpoint split_on (c : ascii) (s : str) : list str :=
  match s with
  | [] => [[]]
  | x :: s' =>
      if Ascii.eqb x c then [] :: split_on c s'
      else match split_on c s' with
           | [] => [[x]]
           | w :: ws => (x :: w) :: ws
           end
  end.

(** A word with its first letter in upper case and the rest in lower
    case. *)
Definition capitalize (w : str) : str :=
  match w with
  | [] => []
  | c :: w' => to_upper c :: lower w'
  end.

(** "The filename stem with every underscore and hyphen replaced by a
    space and each word capitalized". *)
Definition words_capitalized (x : str) : str :=
  join [space]
    (map capitalize (split_on space (replace "-"%char space (replace "_"%char space x)))).

(** No letter of a word comes after a character that is not a letter:
    [after_letter_or_space] tells whether the previous character was a
    letter or a space, or the text starts here. *)
Fixpoint plain_words_from (after_letter_or_space : bool) (s : str) : bool :=
  match s with
  | [] => true
  | c :: s' =>
      (negb (is_cased c) || after_letter_or_space)
        && plain_words_from (is_cased c || Ascii.eqb c space) s'
  end.

Definition plain_words (s : str) : bool := plain_words_from true s.

(** The text whose words the label capitalizes. *)
Definition spaced (x : str) : str := replace "-"%char space (replace "_"%char space x).

(** The order pathlib gives to paths, as a relation. *)
Definition path_le (p q : path) : Prop := path_leb p q = true.

(** The file a locator names when it is read in a page of the directory
    [base]. *)
Definition resolve (base : path) (locator : str) : path :=
  fold_left
    (fun acc c =>
       if str_eqb c pardir then removelast acc
       else if str_eqb c curdir then acc
       else acc ++ [c])
    (split_on "/"%char locator) base.



(** A marker that the splicer's own padding cannot complete: it has no
    newline and starts with a character other than a space. *)
Definition plain_marker (m : str) : bool :=
  negb (existsb (Ascii.eqb nl) m) &&
  match m with
  | [] => false
  | c :: _ => negb (Ascii.eqb c space)
  end.

(** The marker pairs [main] hands to the splicer. *)
Definition marker_pairs : list (str * str) :=
  [(GALLERY_START, GALLERY_END); (COLLECTIONS_START, COLLECTIONS_END)].

(** The splicer ends without an exception at [p]: the path is no
    directory, a file there decodes, and when its text holds both markers
    the text to write can be encoded. *)
Definition update_is_safe (t : tree) (p : path) (x sm em : str) : bool :=
  match lookup p t with
  | None => true
  | Some Dir => false
  | Some (File bytes) =>
      valid_utf8 bytes &&
      (negb (contains sm (universal_newlines bytes)
             && contains em (universal_newlines bytes))
       || valid_utf8 (new_file_content (universal_newlines bytes) x sm em))
  end.

(** What the splicer prints when a marker is missing. *)
Definition missing_markers_log (p : path) (sm em : str) : list message :=
  [MsgNoMarkers p; MsgMakeSure; MsgMarker sm; MsgMarker em].

(* ================================================================== *)
(** ** Notions used to state the frame of a run *)

(** What the traversal can see of a path: nothing, a directory, a file. *)
Inductive kind : Type := KDir | KFile.

Definition kind_of (t : tree) (p : path) : option kind :=
  match lookup p t with
  | None => None
  | Some Dir => Some KDir
  | Some (File _) => Some KFile
  end.

(** Two listings of the same paths with the same kinds, in any order. *)
Definition alike (t t' : tree) : Prop :=
  Permutation (map fst t) (map fst t') /\ forall p, kind_of t p = kind_of t' p.

(** From [w] to [w'] no file other than [p] has changed, the paths and
    their kinds are the same, and whatever was printed announces no update
    of another file. *)
Definition only_touches (p : path) (w w' : world) : Prop :=
  cwd w' = cwd w /\
  alike (fs w) (fs w') /\
  (forall q, q <> p -> lookup q (fs w') = lookup q (fs w)) /\
  exists log, stdout w' = stdout w ++ log /\
              forall q, q <> p -> ~ In (MsgUpdating q) log.

(** A piece of the script that keeps to the file [p]. *)
Definition keeps_to {A} (p : path) (m : M A) : Prop :=
  forall w, only_touches p w (final_world (m w)).

(** From [w] to [w'] the file [p] is as it was and no update of it has
    been announced. *)
Definition untouched (p : path) (w w' : world) : Prop :=
  lookup p (fs w') = lookup p (fs w) /\
  exists log, stdout w' = stdout w ++ log /\ ~ In (MsgUpdating p) log.

(** From [w] to [w'] the same paths exist, in the same order and with the
    same kinds, the working directory is the same, and every file outside
    [ps] holds what it held. *)
Definition same_files_except (ps : list path) (w w' : world) : Prop :=
  cwd w' = cwd w /\
  map fst (fs w') = map fst (fs w) /\
  (forall q, kind_of (fs w') q = kind_of (fs w) q) /\
  (forall q, ~ In q ps -> lookup q (fs w') = lookup q (fs w)).

(** A piece of the script that writes to no file outside [ps], whether it
    returns or raises. *)
Definition confined {A} (ps : list path) (m : M A) : Prop :=
  forall w, same_files_except ps w (final_world (m w)).

(** The value a function returns, if it returns. *)
Definition returned {A} (o : outcome A) : option A :=
  match o with
  | Done a _ => Some a
  | Raised _ _ => None
  end.

(** What one subfolder contributes to the mapping. *)
Definition collection_group (t : tree) (here : path) (subfolder : path) : collection_map :=
  if is_dir t subfolder then
    match image_files t subfolder with
    | [] => []
    | files => [(name subfolder, map (entry_for here COLLECTIONS_HTML) files)]
    end
  else [].

(** A world with more lines printed. *)
Definition logged (w : world) (log : list message) : world :=
  World (fs w) (cwd w) (stdout w ++ log).

(* ================================================================== *)
(** ** A small site, used to exercise the definitions *)

Module Demo.

Definition site : path := [lit "srv"; lit "site"].
Definition art : path := site ++ ART_FOLDER.
Definition gallery_file : path := site ++ GALLERY_HTML.
Definition collections_file : path := site ++ COLLECTIONS_HTML.

Definition gallery_page : str :=
  lit "<main>" ++ [nl] ++ GALLERY_START ++ lit "old items" ++ GALLERY_END
    ++ [nl] ++ lit "</main>".

Definition collections_page : str :=
  lit "<main>" ++ [nl] ++ COLLECTIONS_START ++ lit "old sections"
    ++ COLLECTIONS_END ++ [nl] ++ lit "</main>".

(** [art/banner.png] and [art/landscapes/hill_1.jpg], with both pages. *)
Definition files (gallery collections : str) : tree :=
  [ (site, Dir);
    (site ++ [lit "pages"], Dir);
    (gallery_file, File gallery);
    (collections_file, File collections);
    (art, Dir);
    (art ++ [lit "landscapes"], Dir);
    (art ++ [lit "landscapes"; lit "hill_1.jpg"], File []);
    (art ++ [lit "banner.png"], File []) ].

Definition start : world := World (files gallery_page collections_page) site [].

(** The gallery page with Windows line endings. *)
Definition crlf_page : str :=
  lit "<main>" ++ [cr; nl] ++ GALLERY_START ++ lit "old items" ++ GALLERY_END
    ++ [cr; nl] ++ lit "</main>".

Definition crlf_world : world :=
  World [(gallery_file, File crlf_page); (collections_file, File collections_page)]
    site [].

(** A locator made from a file name that is not UTF-8. *)
Definition raw_name : str := lit "../art/" ++ [ascii_of_nat 255] ++ lit ".png".

(** A gallery page that is not UTF-8 and has no end marker, beside a
    collections page that is in order. *)
Definition raw_open : str :=
  [ascii_of_nat 255] ++ GALLERY_START ++ lit "old items".

Definition raw_world : world := World (files raw_open collections_page) site [].



(** The same site, with the script started from the directory above. *)
Definition elsewhere : world :=
  World (files gallery_page collections_page) [lit "srv"] [].

Definition one_collection : collection_map :=
  [(lit "my_collection-1", [(lit "../art/my_collection-1/a.png", lit "A")])].

(** A site without an art folder. *)
Definition bare : world :=
  World [ (site, Dir);
          (site ++ [lit "pages"], Dir);
          (gallery_file, File gallery_page);
          (collections_file, File collections_page) ] site [].

(** Pages that have lost their end marker. *)
Definition gallery_open : str :=
  lit "<main>" ++ [nl] ++ GALLERY_START ++ lit "old items" ++ [nl] ++ lit "</main>".

Definition collections_open : str :=
  lit "<main>" ++ [nl] ++ COLLECTIONS_START ++ lit "old sections" ++ [nl]
    ++ lit "</main>".

End Demo.

(* ================================================================== *)
(** * Properties *)

(** ** Equality tests *)

Lemma str_eqb_eq (a b : str) : str_eqb a b = true <-> a = b.
Proof.
  revert b; induction a as [|x a IH]; intros [|y b]; simpl; split;
    try congruence; try reflexivity.
  - intros H. apply andb_true_iff in H as [Hx Hr].
    apply Ascii.eqb_eq in Hx. apply IH in Hr. congruence.
  - intros H. injection H as -> ->.
    rewrite Ascii.eqb_refl. simpl. apply IH. reflexivity.
Qed.

Lemma str_eqb_refl (a : str) : str_eqb a a = true.
Proof. apply str_eqb_eq. reflexivity. Qed.

Lemma path_eqb_eq (p q : path) : path_eqb p q = true <-> p = q.
Proof.
  revert q; induction p as [|x p IH]; intros [|y q]; simpl; split;
    try congruence; try reflexivity.
  - intros H. apply andb_true_iff in H as [Hx Hr].
    apply str_eqb_eq in Hx. apply IH in Hr. congruence.
  - intros H. injection H as -> ->.
    rewrite str_eqb_refl. simpl. apply IH. reflexivity.
Qed.

Lemma path_eqb_refl (p : path) : path_eqb p p = true.
Proof. apply path_eqb_eq. reflexivity. Qed.

Lemma path_eqb_neq (p q : path) : p <> q -> path_eqb p q = false.
Proof.
  intros H. destruct (path_eqb p q) eqn:E; [|reflexivity].
  apply path_eqb_eq in E. contradiction.
Qed.

(** ** Searching *)

Lemma startswith_spec (sub s : str) :
  startswith sub s = true <-> exists post, s = sub ++ post.
Proof.
  revert s; induction sub as [|x sub IH]; intros s; simpl.
  - split; [intros _; exists s; reflexivity | reflexivity].
  - destruct s as [|y s].
    + split; [discriminate | intros [post H]; discriminate].
    + split.
      * intros H. apply andb_true_iff in H as [Hx Hr].
        apply Ascii.eqb_eq in Hx. apply IH in Hr as [post ->].
        exists post. congruence.
      * intros [post H]. injection H as -> ->.
        rewrite Ascii.eqb_refl. simpl. apply IH. exists post. reflexivity.
Qed.

Lemma startswith_false (sub s post : str) :
  startswith sub s = false -> s <> sub ++ post.
Proof.
  intros H E.
  assert (startswith sub s = true) by (apply startswith_spec; eauto).
  congruence.
Qed.

Lemma find_index_first (sub s : str) (i : nat) :
  find_index sub s = Some i -> first_at sub s i.
Proof.
  revert i; induction s as [|y s IH]; intros i; simpl.
  - destruct (startswith sub []) eqn:E; [|discriminate].
    intros H; injection H as <-. apply startswith_spec in E.
    repeat split; [exact E | simpl; lia | intros; lia].
  - destruct (startswith sub (y :: s)) eqn:E.
    + intros H; injection H as <-. apply startswith_spec in E.
      repeat split; [exact E | simpl; lia | intros; lia].
    + destruct (find_index sub s) as [k|] eqn:F; simpl; [|discriminate].
      intros H; injection H as <-.
      destruct (IH k eq_refl) as (Hocc & Hlen & Hmin).
      repeat split; [exact Hocc | simpl; lia |].
      intros [|m] post Hm; simpl.
      * apply startswith_false. exact E.
      * apply Hmin. lia.
Qed.

Lemma find_index_none (sub s : str) (k : nat) (post : str) :
  find_index sub s = None -> skipn k s <> sub ++ post.
Proof.
  revert k; induction s as [|y s IH]; intros k; simpl.
  - destruct (startswith sub []) eqn:E; [discriminate|]. intros _.
    rewrite skipn_nil. apply startswith_false. exact E.
  - destruct (startswith sub (y :: s)) eqn:E; [discriminate|].
    destruct (find_index sub s) eqn:F; simpl; [discriminate|]. intros _.
    destruct k as [|k]; simpl.
    + apply startswith_false. exact E.
    + apply IH. reflexivity.
Qed.

Lemma occurs_skipn (sub s : str) :
  occurs sub s <-> exists k post, skipn k s = sub ++ post.
Proof.
  split.
  - intros (pre & post & ->). exists (List.length pre), post.
    rewrite skipn_app, skipn_all, Nat.sub_diag. reflexivity.
  - intros (k & post & H). exists (firstn k s), post.
    rewrite <- H. symmetry. apply firstn_skipn.
Qed.

Lemma first_at_unique (sub s : str) (i j : nat) :
  first_at sub s i -> first_at sub s j -> i = j.
Proof.
  intros ([p1 H1] & _ & M1) ([p2 H2] & _ & M2).
  destruct (Nat.lt_trichotomy i j) as [L | [E | L]]; [|exact E|].
  - exfalso. exact (M2 i p1 L H1).
  - exfalso. exact (M1 j p2 L H2).
Qed.

Lemma first_at_find_index (sub s : str) (i : nat) :
  first_at sub s i -> find_index sub s = Some i.
Proof.
  intros H. destruct (find_index sub s) as [k|] eqn:F.
  - f_equal. eapply first_at_unique; [|exact H]. apply find_index_first. exact F.
  - exfalso. destruct H as ([post Hp] & _ & _).
    exact (find_index_none _ _ i post F Hp).
Qed.

Lemma contains_occurs (sub s : str) : contains sub s = true <-> occurs sub s.
Proof.
  unfold contains. destruct (find_index sub s) as [i|] eqn:F.
  - split; [intros _ | reflexivity].
    apply occurs_skipn. apply find_index_first in F as ([post H] & _).
    eauto.
  - split; [discriminate|]. intros H. exfalso.
    apply occurs_skipn in H as (k & post & H).
    exact (find_index_none _ _ k post F H).
Qed.

Lemma occurs_first_at (sub s : str) : occurs sub s -> exists i, first_at sub s i.
Proof.
  intros H. apply contains_occurs in H. unfold contains in H.
  destruct (find_index sub s) as [i|] eqn:F; [|discriminate].
  exists i. apply find_index_first. exact F.
Qed.

Lemma first_at_bound (sub s : str) (i : nat) :
  first_at sub s i -> i + List.length sub <= List.length s.
Proof.
  intros ([post H] & Hl & _).
  assert (E : List.length (skipn i s) = List.length (sub ++ post)) by congruence.
  rewrite length_skipn, length_app in E. lia.
Qed.

(** The two slices of the splicer, at the indices the search returns. *)
Lemma slice_to_nat (s : str) (n : nat) : slice_to s (Z.of_nat n) = firstn n s.
Proof.
  unfold slice_to, slice_bound.
  destruct (Z.ltb_spec (Z.of_nat n) 0); [lia|]. rewrite Nat2Z.id. reflexivity.
Qed.

Lemma slice_from_nat (s : str) (n : nat) : slice_from s (Z.of_nat n) = skipn n s.
Proof.
  unfold slice_from, slice_bound.
  destruct (Z.ltb_spec (Z.of_nat n) 0); [lia|]. rewrite Nat2Z.id. reflexivity.
Qed.

Lemma new_file_content_at (content new_content sm em : str) (i j : nat) :
  find_index sm content = Some i ->
  find_index em content = Some j ->
  new_file_content content new_content sm em
  = firstn (i + List.length sm) content
      ++ [nl] ++ new_content ++ [nl] ++ lit "        " ++ skipn j content.
Proof.
  intros Hi Hj. unfold new_file_content, find, len. rewrite Hi, Hj.
  rewrite <- Nat2Z.inj_add, slice_to_nat, slice_from_nat. reflexivity.
Qed.

Lemma first_at_prefix (sub s : str) (i : nat) :
  first_at sub s i -> firstn (i + List.length sub) s = firstn i s ++ sub.
Proof.
  intros H. pose proof (first_at_bound _ _ _ H) as B.
  destruct H as ([post H] & Hl & _).
  rewrite <- (firstn_skipn i s) at 1. rewrite H.
  rewrite firstn_app, length_firstn, Nat.min_l by lia.
  rewrite firstn_all2 by (rewrite length_firstn; lia).
  replace (i + List.length sub - i) with (List.length sub) by lia.
  rewrite firstn_app, Nat.sub_diag, firstn_all. simpl. rewrite app_nil_r.
  reflexivity.
Qed.

Lemma first_at_suffix (sub s : str) (i : nat) :
  first_at sub s i -> skipn i s = sub ++ skipn (i + List.length sub) s.
Proof.
  intros ([post H] & Hl & _).
  rewrite Nat.add_comm, <- skipn_skipn, H.
  rewrite skipn_app, skipn_all, Nat.sub_diag. reflexivity.
Qed.

(** ** The stored files *)

Lemma lookup_store_same (p : path) (c : str) (l : tree) :
  lookup p (store p c l) = Some (File c).
Proof.
  induction l as [|[q n] l IH]; simpl.
  - rewrite path_eqb_refl. reflexivity.
  - destruct (path_eqb q p) eqn:E; simpl; rewrite E; [reflexivity | exact IH].
Qed.

Lemma lookup_store_other (p q : path) (c : str) (l : tree) :
  p <> q -> lookup q (store p c l) = lookup q l.
Proof.
  intros N. induction l as [|[r n] l IH]; simpl.
  - rewrite path_eqb_neq by exact N. reflexivity.
  - destruct (path_eqb r p) eqn:E; simpl.
    + apply path_eqb_eq in E. subst r.
      rewrite path_eqb_neq by exact N. reflexivity.
    + rewrite IH. reflexivity.
Qed.

Lemma map_fst_store (p : path) (c : str) (l : tree) :
  lookup p l <> None -> map fst (store p c l) = map fst l.
Proof.
  induction l as [|[q n] l IH]; simpl; [congruence|].
  destruct (path_eqb q p) eqn:E; simpl; [reflexivity|].
  intros H. rewrite IH by exact H. reflexivity.
Qed.

(** ** One run of the splicer *)

Lemma update_missing (w : world) (p : path) (x sm em : str) :
  lookup p (fs w) = None ->
  update_file_content p x sm em w
  = Done false (World (fs w) (cwd w) (stdout w ++ [MsgFileMissing p])).
Proof.
  intros H. unfold update_file_content, bind, path_exists. rewrite H. reflexivity.
Qed.

Lemma update_directory (w : world) (p : path) (x sm em : str) :
  lookup p (fs w) = Some Dir ->
  update_file_content p x sm em w = Raised IsADirectoryError w.
Proof.
  intros H. unfold update_file_content, bind, path_exists, read_text.
  rewrite H. simpl. rewrite H. reflexivity.
Qed.

Lemma update_undecodable (w : world) (p : path) (bytes x sm em : str) :
  lookup p (fs w) = Some (File bytes) ->
  valid_utf8 bytes = false ->
  update_file_content p x sm em w = Raised UnicodeDecodeError w.
Proof.
  intros H V. unfold update_file_content, bind, path_exists, read_text.
  rewrite H. simpl. rewrite H, V. reflexivity.
Qed.

Lemma update_rejected (w : world) (p : path) (bytes x sm em : str) :
  lookup p (fs w) = Some (File bytes) ->
  valid_utf8 bytes = true ->
  contains sm (universal_newlines bytes)
    && contains em (universal_newlines bytes) = false ->
  update_file_content p x sm em w
  = Done false (World (fs w) (cwd w) (stdout w ++ missing_markers_log p sm em)).
Proof.
  intros H V C. unfold update_file_content, bind, path_exists, read_text.
  rewrite H. simpl. rewrite H, V.
  rewrite <- negb_andb, C. simpl. unfold print. simpl.
  rewrite <- !app_assoc. reflexivity.
Qed.

Lemma update_accepted (w : world) (p : path) (bytes x sm em : str) :
  lookup p (fs w) = Some (File bytes) ->
  valid_utf8 bytes = true ->
  contains sm (universal_newlines bytes) = true ->
  contains em (universal_newlines bytes) = true ->
  valid_utf8 (new_file_content (universal_newlines bytes) x sm em) = true ->
  update_file_content p x sm em w
  = Done true
      (World (store p (new_file_content (universal_newlines bytes) x sm em) (fs w))
         (cwd w) (stdout w)).
Proof.
  intros H V C1 C2 E. unfold update_file_content, bind, path_exists, read_text.
  rewrite H. simpl. rewrite H, V, C1, C2. simpl.
  unfold write_text. simpl. rewrite H, E. reflexivity.
Qed.

Lemma update_unencodable (w : world) (p : path) (bytes x sm em : str) :
  lookup p (fs w) = Some (File bytes) ->
  valid_utf8 bytes = true ->
  contains sm (universal_newlines bytes) = true ->
  contains em (universal_newlines bytes) = true ->
  valid_utf8 (new_file_content (universal_newlines bytes) x sm em) = false ->
  update_file_content p x sm em w
  = Raised UnicodeEncodeError (World (store p [] (fs w)) (cwd w) (stdout w)).
Proof.
  intros H V C1 C2 E. unfold update_file_content, bind, path_exists, read_text.
  rewrite H. simpl. rewrite H, V, C1, C2. simpl.
  unfold write_text. simpl. rewrite H, E. reflexivity.
Qed.

Lemma not_occurs_contains (sub s : str) : ~ occurs sub s -> contains sub s = false.
Proof.
  intros N. destruct (contains sub s) eqn:C; [|reflexivity].
  apply contains_occurs in C. contradiction.
Qed.

(** The six ways a call of the splicer can go. *)
Lemma update_cases (w : world) (p : path) (x sm em : str) :
  (lookup p (fs w) = None /\
   update_file_content p x sm em w
   = Done false (World (fs w) (cwd w) (stdout w ++ [MsgFileMissing p]))) \/
  (lookup p (fs w) = Some Dir /\
   update_file_content p x sm em w = Raised IsADirectoryError w) \/
  (exists bytes,
     lookup p (fs w) = Some (File bytes) /\ valid_utf8 bytes = false /\
     update_file_content p x sm em w = Raised UnicodeDecodeError w) \/
  (exists bytes,
     lookup p (fs w) = Some (File bytes) /\ valid_utf8 bytes = true /\
     (contains sm (universal_newlines bytes) = false \/
      contains em (universal_newlines bytes) = false) /\
     update_file_content p x sm em w
     = Done false (World (fs w) (cwd w) (stdout w ++ missing_markers_log p sm em))) \/
  (exists bytes,
     lookup p (fs w) = Some (File bytes) /\ valid_utf8 bytes = true /\
     contains sm (universal_newlines bytes) = true /\
     contains em (universal_newlines bytes) = true /\
     valid_utf8 (new_file_content (universal_newlines bytes) x sm em) = true /\
     update_file_content p x sm em w
     = Done true
         (World (store p (new_file_content (universal_newlines bytes) x sm em) (fs w))
            (cwd w) (stdout w))) \/
  (exists bytes,
     lookup p (fs w) = Some (File bytes) /\ valid_utf8 bytes = true /\
     contains sm (universal_newlines bytes) = true /\
     contains em (universal_newlines bytes) = true /\
     valid_utf8 (new_file_content (universal_newlines bytes) x sm em) = false /\
     update_file_content p x sm em w
     = Raised UnicodeEncodeError (World (store p [] (fs w)) (cwd w) (stdout w))).
Proof.
  destruct (lookup p (fs w)) as [[|bytes]|] eqn:L.
  - right. left. split; [reflexivity | exact (update_directory _ _ _ _ _ L)].
  - destruct (valid_utf8 bytes) eqn:V.
    + destruct (contains sm (universal_newlines bytes)) eqn:Cs;
        [destruct (contains em (universal_newlines bytes)) eqn:Ce|].
      * destruct (valid_utf8 (new_file_content (universal_newlines bytes) x sm em))
          eqn:E.
        -- do 4 right. left. exists bytes.
           repeat (split; [assumption || reflexivity|]).
           exact (update_accepted _ _ _ _ _ _ L V Cs Ce E).
        -- do 5 right. exists bytes.
           repeat (split; [assumption || reflexivity|]).
           exact (update_unencodable _ _ _ _ _ _ L V Cs Ce E).
      * do 3 right. left. exists bytes.
        split; [reflexivity|]. split; [exact V|]. split; [right; exact Ce|].
        apply (update_rejected _ _ _ _ _ _ L V). rewrite Cs, Ce. reflexivity.
      * do 3 right. left. exists bytes.
        split; [reflexivity|]. split; [exact V|]. split; [left; exact Cs|].
        apply (update_rejected _ _ _ _ _ _ L V). rewrite Cs. reflexivity.
    + do 2 right. left. exists bytes.
      split; [reflexivity|]. split; [exact V|].
      exact (update_undecodable _ _ _ _ _ _ L V).
  - left. split; [reflexivity | exact (update_missing _ _ _ _ _ L)].
Qed.

Ltac conjuncts :=
  repeat match goal with
         | |- _ /\ _ => split
         | |- _ <-> _ => split
         end.

(** Clear away the cases that contradict each other. *)
Ltac settle :=
  simpl in *; intros;
  repeat match goal with
         | H : _ /\ _ |- _ => destruct H
         | H : exists _, _ |- _ => destruct H
         | H : _ \/ _ |- _ => destruct H
         | H1 : lookup ?p ?t = _, H2 : lookup ?p ?t = _ |- _ => rewrite H1 in H2
         | H : Some _ = Some _ |- _ => injection H as H
         | H : File _ = File _ |- _ => injection H as H
         | H : occurs _ _ |- _ => apply contains_occurs in H
         | H : ~ occurs _ _ |- _ => apply not_occurs_contains in H
         end;
  subst; try discriminate; try congruence.

(** ** Line endings *)

Lemma universal_newlines_clean (s : str) : ~ In cr s -> universal_newlines s = s.
Proof.
  induction s as [|c s IH]; simpl; intros N; [reflexivity|].
  destruct (Ascii.eqb c cr) eqn:E.
  - apply Ascii.eqb_eq in E. exfalso. apply N. left. exact E.
  - rewrite IH by (intros I; apply N; right; exact I). reflexivity.
Qed.

Lemma universal_newlines_other (c : ascii) (s : str) :
  c <> cr -> universal_newlines (c :: s) = c :: universal_newlines s.
Proof.
  intros N. simpl. destruct (Ascii.eqb c cr) eqn:E; [|reflexivity].
  apply Ascii.eqb_eq in E. contradiction.
Qed.

Lemma universal_newlines_cr_nl (s : str) :
  universal_newlines (cr :: nl :: s) = nl :: universal_newlines s.
Proof. reflexivity. Qed.

Lemma universal_newlines_cr_other (c : ascii) (s : str) :
  c <> nl -> universal_newlines (cr :: c :: s) = nl :: universal_newlines (c :: s).
Proof.
  intros N.
  assert (E : Ascii.eqb c nl = false)
    by (destruct (Ascii.eqb c nl) eqn:E; [apply Ascii.eqb_eq in E; contradiction|];
        reflexivity).
  simpl. rewrite E. reflexivity.
Qed.

(** Induction along the way [universal_newlines] reads a text. *)
Lemma line_endings_ind (P : str -> Prop) :
  P [] ->
  (forall c s, c <> cr -> P s -> P (c :: s)) ->
  P [cr] ->
  (forall s, P s -> P (cr :: nl :: s)) ->
  (forall c s, c <> nl -> P (c :: s) -> P (cr :: c :: s)) ->
  forall s, P s.
Proof.
  intros H0 H1 H2 H3 H4 s.
  assert (G : forall n t, List.length t <= n -> P t).
  { induction n as [|n IH]; intros [|c t] L; simpl in L; try exact H0; try lia.
    destruct (ascii_dec c cr) as [-> | N].
    - destruct t as [|d t]; [exact H2|].
      destruct (ascii_dec d nl) as [-> | Nd].
      + apply H3, IH. simpl in L. lia.
      + apply H4; [exact Nd|]. apply IH. simpl in *. lia.
    - apply H1; [exact N|]. apply IH. lia. }
  exact (G _ s (le_n _)).
Qed.

(** A text that has been read holds no carriage return. *)
Lemma universal_newlines_no_cr (s : str) : ~ In cr (universal_newlines s).
Proof.
  induction s as [|c s N IH| |s IH|c s N IH] using line_endings_ind.
  - simpl. tauto.
  - rewrite universal_newlines_other by exact N.
    intros [E | I]; [congruence | contradiction].
  - intros [E | []]. discriminate E.
  - rewrite universal_newlines_cr_nl. intros [E | I]; [discriminate E | contradiction].
  - rewrite universal_newlines_cr_other by exact N.
    intros [E | I]; [discriminate E | contradiction].
Qed.

Lemma universal_newlines_app_clean (a s : str) :
  ~ In cr a -> universal_newlines (a ++ s) = a ++ universal_newlines s.
Proof.
  induction a as [|c a IH]; intros N; [reflexivity|].
  simpl app. rewrite universal_newlines_other.
  - rewrite IH; [reflexivity|]. intros I. apply N. right. exact I.
  - intros E. apply N. left. exact E.
Qed.

Lemma no_cr_firstn (n : nat) (s : str) : ~ In cr s -> ~ In cr (firstn n s).
Proof.
  intros N I. apply N. rewrite <- (firstn_skipn n s). apply in_or_app. left. exact I.
Qed.

Lemma no_cr_skipn (n : nat) (s : str) : ~ In cr s -> ~ In cr (skipn n s).
Proof.
  intros N I. apply N. rewrite <- (firstn_skipn n s). apply in_or_app. right. exact I.
Qed.

(** Reading a text up to one of its newlines: what comes out before that
    newline has, between its own newlines, the characters that went in. *)
Lemma universal_newlines_before_nl (x r : str) :
  exists x',
    universal_newlines (x ++ nl :: r) = x' ++ nl :: universal_newlines r /\
    forall p e q, x' = p ++ e ++ q -> ~ In nl e ->
      exists p' q', x = p' ++ e ++ q' /\ (p = [] -> p' = []).
Proof.
  induction x as [|c s N IH| |s IH|c s N IH] using line_endings_ind.
  - exists []. split.
    + simpl app. apply universal_newlines_other. discriminate.
    + intros p e q H _. symmetry in H.
      apply app_eq_nil in H as [-> H]. apply app_eq_nil in H as [-> ->].
      exists [], []. split; reflexivity.
  - destruct IH as (x' & E & Pull). exists (c :: x'). split.
    + simpl app. rewrite universal_newlines_other by exact N. rewrite E. reflexivity.
    + intros [|c' p] e q H Ne.
      * destruct e as [|c' e]; [exists [], (c :: s); split; reflexivity|].
        simpl in H. injection H as <- H.
        destruct (Pull [] e q H) as (p' & q' & Es & Hp').
        { intros I. apply Ne. right. exact I. }
        rewrite (Hp' eq_refl) in Es. exists [], q'.
        split; [rewrite Es; reflexivity | reflexivity].
      * simpl in H. injection H as <- H.
        destruct (Pull p e q H Ne) as (p' & q' & Es & _).
        exists (c :: p'), q'. split; [rewrite Es; reflexivity | discriminate].
  - exists []. split; [reflexivity|].
    intros p e q H _. symmetry in H.
    apply app_eq_nil in H as [-> H]. apply app_eq_nil in H as [-> ->].
    exists [], [cr]. split; reflexivity.
  - destruct IH as (x' & E & Pull). exists (nl :: x'). split.
    + simpl app. rewrite universal_newlines_cr_nl, E. reflexivity.
    + intros [|c' p] e q H Ne.
      * destruct e as [|c' e]; [exists [], (cr :: nl :: s); split; reflexivity|].
        simpl in H. injection H as <- H. exfalso. apply Ne. left. reflexivity.
      * simpl in H. injection H as <- H.
        destruct (Pull p e q H Ne) as (p' & q' & Es & _).
        exists (cr :: nl :: p'), q'. split; [rewrite Es; reflexivity | discriminate].
  - destruct IH as (x' & E & Pull). exists (nl :: x'). split.
    + simpl app. rewrite universal_newlines_cr_other by exact N.
      simpl app in E. rewrite E. reflexivity.
    + intros [|c' p] e q H Ne.
      * destruct e as [|c' e]; [exists [], (cr :: c :: s); split; reflexivity|].
        simpl in H. injection H as <- H. exfalso. apply Ne. left. reflexivity.
      * simpl in H. injection H as <- H.
        destruct (Pull p e q H Ne) as (p' & q' & Es & _).
        exists (cr :: p'), q'. split; [rewrite Es; reflexivity | discriminate].
Qed.

(** ** The splice keeps what lies outside the markers *)

(** C1, as stated, fails on a page with Windows line endings: the page is
    read and written as text, so the carriage return before the start
    marker is gone from the rewritten file and the bytes outside the
    markers are not the bytes that were there. *)
Lemma update_file_content_changes_line_endings :
  lookup Demo.gallery_file (fs Demo.crlf_world) = Some (File Demo.crlf_page) /\
  Demo.crlf_page
  = (lit "<main>" ++ [cr; nl]) ++ GALLERY_START ++ lit "old items" ++ GALLERY_END
      ++ [cr; nl] ++ lit "</main>" /\
  exists w',
    update_file_content Demo.gallery_file (lit "new items")
      GALLERY_START GALLERY_END Demo.crlf_world = Done true w' /\
    lookup Demo.gallery_file (fs w')
    = Some (File ((lit "<main>" ++ [nl]) ++ GALLERY_START ++ [nl] ++ lit "new items"
                    ++ [nl] ++ lit "        " ++ GALLERY_END
                    ++ [nl] ++ lit "</main>")) /\
    lit "<main>" ++ [nl] <> lit "<main>" ++ [cr; nl].
Proof.
  split; [reflexivity|]. split; [reflexivity|].
  eexists. split; [vm_compute; reflexivity|].
  split; [reflexivity | discriminate].
Qed.

(** C1, as amended.  A page that decodes as UTF-8 is read as text, its
    line endings translated to newlines.  When both markers occur in that
    text and the first start marker ends before the first end marker
    begins, and the rewritten text can be encoded, the update succeeds and
    the file then holds: the text up to and including the first start
    marker, a newline, the new content, a newline and eight spaces, and the
    text from the first end marker on.  The text before the start marker,
    both markers and the text after the end marker are kept; only the text
    between the markers goes.  On a page without carriage returns the text
    is the bytes of the page, so what is kept is kept byte for byte. *)
Theorem update_file_content_splices
    (w : world) (file_path : path) (bytes text new_content sm em : str) (i j : nat) :
  lookup file_path (fs w) = Some (File bytes) ->
  valid_utf8 bytes = true ->
  universal_newlines bytes = text ->
  valid_utf8 sm = true ->
  valid_utf8 em = true ->
  first_at sm text i ->
  first_at em text j ->
  i + List.length sm <= j ->
  valid_utf8 (firstn (i + List.length sm) text
                ++ [nl] ++ new_content ++ [nl] ++ lit "        "
                ++ skipn j text) = true ->
  exists w' between,
    update_file_content file_path new_content sm em w = Done true w' /\
    lookup file_path (fs w')
    = Some (File (firstn (i + List.length sm) text
                    ++ [nl] ++ new_content ++ [nl] ++ lit "        "
                    ++ skipn j text)) /\
    firstn (i + List.length sm) text = firstn i text ++ sm /\
    skipn j text = em ++ skipn (j + List.length em) text /\
    text = (firstn i text ++ sm) ++ between
             ++ (em ++ skipn (j + List.length em) text) /\
    (~ In cr bytes -> text = bytes).
Proof.
  intros Hf Hv Ht _ _ Hi Hj Hij He. subst text.
  set (text := universal_newlines bytes) in *.
  pose proof (first_at_find_index _ _ _ Hi) as Fi.
  pose proof (first_at_find_index _ _ _ Hj) as Fj.
  pose proof (first_at_prefix _ _ _ Hi) as Pi.
  pose proof (first_at_suffix _ _ _ Hj) as Sj.
  pose proof (new_file_content_at _ new_content _ _ _ _ Fi Fj) as En.
  rewrite <- En in He.
  eexists.
  exists (firstn (j - (i + List.length sm)) (skipn (i + List.length sm) text)).
  split; [|split; [|split; [exact Pi | split; [exact Sj | split]]]].
  - apply update_accepted; [exact Hf | exact Hv | | | exact He]; unfold contains;
      fold text; [rewrite Fi | rewrite Fj]; reflexivity.
  - simpl. rewrite lookup_store_same. fold text. rewrite En. reflexivity.
  - rewrite <- Pi, <- Sj.
    rewrite <- (firstn_skipn (i + List.length sm) text) at 1. f_equal.
    rewrite <- (firstn_skipn (j - (i + List.length sm))
                  (skipn (i + List.length sm) text)) at 1.
    f_equal. rewrite skipn_skipn. f_equal. lia.
  - intros N. apply universal_newlines_clean. exact N.
Qed.

(** ** When the splicer refuses *)

(** C2, as stated, fails when the new content cannot be encoded, as the
    markup of a file whose name is not UTF-8: the page holds both markers,
    yet the call returns neither true nor false.  It raises
    [UnicodeEncodeError], and the page, emptied when it was opened for
    writing, stays empty. *)
Lemma update_file_content_unencodable_content :
  lookup Demo.gallery_file (fs Demo.start) = Some (File Demo.gallery_page) /\
  occurs GALLERY_START Demo.gallery_page /\
  occurs GALLERY_END Demo.gallery_page /\
  valid_utf8 Demo.raw_name = false /\
  exists w',
    update_file_content Demo.gallery_file Demo.raw_name
      GALLERY_START GALLERY_END Demo.start = Raised UnicodeEncodeError w' /\
    lookup Demo.gallery_file (fs w') = Some (File []) /\
    returned (update_file_content Demo.gallery_file Demo.raw_name
                GALLERY_START GALLERY_END Demo.start) <> Some true /\
    returned (update_file_content Demo.gallery_file Demo.raw_name
                GALLERY_START GALLERY_END Demo.start) <> Some false.
Proof.
  split; [reflexivity|].
  split; [apply contains_occurs; reflexivity|].
  split; [apply contains_occurs; reflexivity|].
  split; [reflexivity|].
  eexists. split; [vm_compute; reflexivity|].
  split; [reflexivity|]. split; discriminate.
Qed.

(** C2, as amended.  The update returns false exactly when the file is
    missing, or decodes as UTF-8 and lacks one of the markers in its text;
    the file system is then as before.  It returns true exactly when the
    file decodes, both markers occur in its text, in any order, and the
    rewritten text can be encoded; the file then holds the rewritten text.
    In the remaining cases an exception ends the call: on a directory and
    on a file that does not decode nothing has changed; when the rewritten
    text cannot be encoded the file is left empty. *)
Theorem update_file_content_outcome
    (w : world) (file_path : path) (new_content sm em : str) :
  valid_utf8 sm = true ->
  valid_utf8 em = true ->
  let run := update_file_content file_path new_content sm em w in
  (returned run = Some false <->
     lookup file_path (fs w) = None \/
     exists bytes, lookup file_path (fs w) = Some (File bytes) /\
       valid_utf8 bytes = true /\
       (~ occurs sm (universal_newlines bytes) \/
        ~ occurs em (universal_newlines bytes))) /\
  (returned run = Some false -> fs (final_world run) = fs w) /\
  (returned run = Some true <->
     exists bytes, lookup file_path (fs w) = Some (File bytes) /\
       valid_utf8 bytes = true /\
       occurs sm (universal_newlines bytes) /\
       occurs em (universal_newlines bytes) /\
       valid_utf8 (new_file_content (universal_newlines bytes) new_content sm em)
       = true) /\
  (forall bytes,
     lookup file_path (fs w) = Some (File bytes) ->
     returned run = Some true ->
     fs (final_world run)
     = store file_path
         (new_file_content (universal_newlines bytes) new_content sm em) (fs w) /\
     lookup file_path (fs (final_world run))
     = Some (File (new_file_content (universal_newlines bytes) new_content sm em))) /\
  (lookup file_path (fs w) = Some Dir -> run = Raised IsADirectoryError w) /\
  (forall bytes,
     lookup file_path (fs w) = Some (File bytes) ->
     valid_utf8 bytes = false ->
     run = Raised UnicodeDecodeError w) /\
  (forall bytes,
     lookup file_path (fs w) = Some (File bytes) ->
     valid_utf8 bytes = true ->
     occurs sm (universal_newlines bytes) ->
     occurs em (universal_newlines bytes) ->
     valid_utf8 (new_file_content (universal_newlines bytes) new_content sm em)
     = false ->
     exists w',
       run = Raised UnicodeEncodeError w' /\
       lookup file_path (fs w') = Some (File [])).
Proof.
  intros _ _ run. unfold run.
  destruct (update_cases w file_path new_content sm em)
    as [(L & R) | [(L & R) | [(b & L & V & R) | [(b & L & V & C & R)
       | [(b & L & V & Cs & Ce & E & R) | (b & L & V & Cs & Ce & E & R)]]]]];
    rewrite R; clear R; conjuncts; settle.
  - left. assumption.
  - right. exists b. split; [exact L|]. split; [assumption|].
    left. intros O. apply contains_occurs in O. congruence.
  - right. exists b. split; [exact L|]. split; [assumption|].
    right. intros O. apply contains_occurs in O. congruence.
  - exists b. split; [exact L|]. split; [assumption|].
    split; [apply contains_occurs; assumption|].
    split; [apply contains_occurs; assumption | assumption].
  - split; [reflexivity | apply lookup_store_same].
  - eexists. split; [reflexivity | apply lookup_store_same].
Qed.

(** ** Running the splicer again *)

Lemma skipn_app_le {A} (k : nat) (l r : list A) :
  k <= List.length l -> skipn k (l ++ r) = skipn k l ++ r.
Proof.
  intros H. rewrite skipn_app.
  replace (k - List.length l) with 0 by lia. reflexivity.
Qed.

Lemma skipn_app_ge {A} (k : nat) (l r : list A) :
  List.length l <= k -> skipn k (l ++ r) = skipn (k - List.length l) r.
Proof.
  intros H. rewrite skipn_app, skipn_all2 by exact H. reflexivity.
Qed.

(** An occurrence that starts inside [l] lies in [l] or runs into [r]. *)
Lemma occurrence_in_app (k : nat) (l r e post : str) :
  k <= List.length l ->
  skipn k (l ++ r) = e ++ post ->
  (exists rest, skipn k l = e ++ rest) \/ (exists c r', r = c :: r' /\ In c e).
Proof.
  intros Hk E. rewrite skipn_app_le in E by exact Hk.
  apply app_eq_app in E as [m [[E1 E2] | [E1 E2]]].
  - left. exists m. exact E1.
  - destruct m as [|c m].
    + left. exists []. rewrite app_nil_r in *. symmetry. exact E1.
    + right. exists c, (m ++ post). split; [exact E2|].
      rewrite E1. apply in_or_app. right. left. reflexivity.
Qed.

Lemma plain_marker_no_nl (m : str) : plain_marker m = true -> ~ In nl m.
Proof.
  unfold plain_marker. intros H I. apply andb_true_iff in H as [H _].
  apply negb_true_iff in H.
  assert (existsb (Ascii.eqb nl) m = true); [|congruence].
  apply existsb_exists. exists nl. split; [exact I | apply Ascii.eqb_refl].
Qed.

Lemma plain_marker_head (m : str) :
  plain_marker m = true -> exists c m', m = c :: m' /\ c <> space.
Proof.
  unfold plain_marker. intros H. apply andb_true_iff in H as [_ H].
  destruct m as [|c m']; [discriminate|]. exists c, m'. split; [reflexivity|].
  apply negb_true_iff in H. intros ->. rewrite Ascii.eqb_refl in H. discriminate.
Qed.

Lemma skipn_padding (k : nat) (b : str) :
  k < 8 -> exists r, skipn k (lit "        " ++ b) = space :: r.
Proof.
  intros H.
  do 8 (destruct k as [|k]; [simpl; eexists; reflexivity|]). lia.
Qed.

(** In a spliced text the end marker first occurs where the kept tail
    starts. *)
Lemma spliced_end_first (a x b em rest : str) :
  plain_marker em = true ->
  (forall k l, skipn k a <> em ++ l) ->
  ~ occurs em x ->
  b = em ++ rest ->
  first_at em (a ++ [nl] ++ x ++ [nl] ++ lit "        " ++ b)
    (List.length a + 1 + List.length x + 9).
Proof.
  intros Hp Ha Hx Hb.
  pose proof (plain_marker_no_nl _ Hp) as Hnl.
  destruct (plain_marker_head _ Hp) as (c0 & m0 & Hem & Hc0).
  repeat split.
  - exists rest. rewrite skipn_app_ge by lia.
    replace (List.length a + 1 + List.length x + 9 - List.length a)
      with (S (List.length x + 9)) by lia.
    simpl. rewrite skipn_app_ge by lia.
    replace (List.length x + 9 - List.length x) with 9 by lia.
    simpl. exact Hb.
  - rewrite !length_app. simpl. lia.
  - intros k p Hk E.
    destruct (le_gt_dec k (List.length a)) as [L | G].
    + apply occurrence_in_app in E; [|exact L].
      destruct E as [[l E] | (c & r & ER & Hin)].
      * exact (Ha k l E).
      * simpl in ER. injection ER as <- _. contradiction.
    + rewrite skipn_app_ge in E by lia.
      destruct (k - List.length a) as [|k1] eqn:K1; [lia|]. simpl in E.
      destruct (le_gt_dec k1 (List.length x)) as [L1 | G1].
      * apply occurrence_in_app in E; [|exact L1].
        destruct E as [[l E] | (c & r & ER & Hin)].
        -- apply Hx. apply occurs_skipn. eauto.
        -- injection ER as <- _. contradiction.
      * rewrite skipn_app_ge in E by lia.
        destruct (k1 - List.length x) as [|k2] eqn:K2; [lia|]. simpl in E.
        destruct (skipn_padding k2 b) as [r Hr]; [lia|].
        simpl in Hr. rewrite Hr, Hem in E. simpl in E. injection E as E _. congruence.
Qed.

(** In a spliced text the start marker first occurs where it did. *)
Lemma spliced_start_first (content sm t : str) (i : nat) :
  first_at sm content i ->
  first_at sm (firstn (i + List.length sm) content ++ t) i.
Proof.
  intros H. pose proof (first_at_bound _ _ _ H) as B.
  pose proof (first_at_prefix _ _ _ H) as P.
  assert (Li : List.length (firstn i content) = i)
    by (rewrite length_firstn; lia).
  destruct H as ([post Hpost] & Hl & Hmin).
  repeat split.
  - exists t. rewrite P, <- app_assoc, skipn_app_ge by lia.
    rewrite Li, Nat.sub_diag. reflexivity.
  - rewrite length_app, length_firstn. lia.
  - intros k p Hk E.
    assert (Lk : k <= List.length (firstn (i + List.length sm) content))
      by (rewrite length_firstn; lia).
    apply (f_equal (firstn (List.length sm))) in E.
    rewrite skipn_app_le in E by exact Lk.
    rewrite firstn_app in E.
    rewrite length_skipn, length_firstn in E.
    replace (List.length sm - (Nat.min (i + List.length sm) (List.length content) - k))
      with 0 in E by lia.
    simpl in E. rewrite app_nil_r in E.
    rewrite firstn_app, Nat.sub_diag, firstn_all in E. simpl in E.
    rewrite app_nil_r in E.
    apply (Hmin k (skipn (List.length sm) (skipn k content)) Hk).
    rewrite <- E at 1.
    rewrite <- (firstn_skipn (List.length sm) (skipn k content)) at 1.
    f_equal.
    rewrite <- (firstn_skipn (i + List.length sm) content) at 1.
    rewrite skipn_app_le by exact Lk.
    rewrite firstn_app, length_skipn, length_firstn.
    replace (List.length sm - (Nat.min (i + List.length sm) (List.length content) - k))
      with 0 by lia.
    simpl. rewrite app_nil_r. reflexivity.
Qed.

Lemma store_store (p : path) (c c' : str) (l : tree) :
  store p c (store p c' l) = store p c l.
Proof.
  induction l as [|[q n] l IH]; simpl.
  - rewrite path_eqb_refl. reflexivity.
  - destruct (path_eqb q p) eqn:E; simpl; rewrite E; [reflexivity|].
    rewrite IH. reflexivity.
Qed.

(** Both markers still occur after a splice. *)
Lemma spliced_occurs (content x sm em : str) (i j : nat) :
  first_at sm content i ->
  first_at em content j ->
  occurs sm (new_file_content content x sm em) /\
  occurs em (new_file_content content x sm em).
Proof.
  intros Hi Hj.
  rewrite (new_file_content_at _ x _ _ _ _
             (first_at_find_index _ _ _ Hi) (first_at_find_index _ _ _ Hj)).
  rewrite (first_at_prefix _ _ _ Hi), (first_at_suffix _ _ _ Hj). split.
  - exists (firstn i content). eexists. rewrite <- app_assoc. reflexivity.
  - exists ((firstn i content ++ sm) ++ [nl] ++ x ++ [nl] ++ lit "        ").
    eexists. rewrite <- !app_assoc. reflexivity.
Qed.

(** Where the markers are after a splice. *)
Lemma spliced_positions (content x sm em : str) (i j : nat) :
  plain_marker em = true ->
  first_at sm content i ->
  first_at em content j ->
  i + List.length sm <= j ->
  ~ occurs em x ->
  new_file_content content x sm em
  = (firstn i content ++ sm) ++ [nl] ++ x ++ [nl] ++ lit "        "
      ++ em ++ skipn (j + List.length em) content /\
  first_at sm (new_file_content content x sm em) i /\
  first_at em (new_file_content content x sm em)
    (i + List.length sm + 1 + List.length x + 9).
Proof.
  intros Hp Hi Hj Hij Hx.
  pose proof (first_at_find_index _ _ _ Hi) as Fi.
  pose proof (first_at_find_index _ _ _ Hj) as Fj.
  pose proof (first_at_bound _ _ _ Hi) as Bi.
  rewrite (new_file_content_at _ x _ _ _ _ Fi Fj).
  split; [rewrite (first_at_prefix _ _ _ Hi), (first_at_suffix _ _ _ Hj); reflexivity|].
  split; [apply spliced_start_first; exact Hi|].
  assert (La : List.length (firstn (i + List.length sm) content) = i + List.length sm)
    by (rewrite length_firstn; lia).
  rewrite <- La at 2.
  apply spliced_end_first with (rest := skipn (j + List.length em) content).
  - exact Hp.
  - intros k l E.
    destruct (plain_marker_head _ Hp) as (c0 & m0 & Hem & _).
    assert (Lk : k + List.length em
                 <= List.length (firstn (i + List.length sm) content)).
    { apply (f_equal (@List.length _)) in E.
      rewrite length_skipn, length_app in E. rewrite Hem in *. simpl in *. lia. }
    destruct Hj as (_ & _ & Hmin).
    apply (Hmin k (l ++ skipn (i + List.length sm) content)).
    + rewrite Hem in Lk. simpl in Lk. lia.
    + rewrite <- (firstn_skipn (i + List.length sm) content) at 1.
      rewrite skipn_app_le by lia. rewrite E, <- app_assoc. reflexivity.
  - exact Hx.
  - apply first_at_suffix. exact Hj.
Qed.

Lemma new_file_content_again (content x y sm em : str) (i j : nat) :
  plain_marker em = true ->
  first_at sm content i ->
  first_at em content j ->
  i + List.length sm <= j ->
  ~ occurs em x ->
  new_file_content (new_file_content content x sm em) y sm em
  = new_file_content content y sm em.
Proof.
  intros Hp Hi Hj Hij Hx.
  destruct (spliced_positions content x sm em i j Hp Hi Hj Hij Hx) as (E & Hs & He).
  pose proof (first_at_bound _ _ _ Hi) as Bi.
  rewrite (new_file_content_at _ y _ _ _ _
             (first_at_find_index _ _ _ Hs) (first_at_find_index _ _ _ He)).
  rewrite (new_file_content_at _ y _ _ _ _
             (first_at_find_index _ _ _ Hi) (first_at_find_index _ _ _ Hj)).
  rewrite (first_at_prefix _ _ _ Hi), (first_at_suffix _ _ _ Hj), E.
  assert (La : List.length (firstn i content ++ sm) = i + List.length sm)
    by (rewrite length_app, length_firstn; lia).
  rewrite firstn_app, <- La, firstn_all, Nat.sub_diag. simpl firstn.
  rewrite app_nil_r. do 4 f_equal.
  rewrite skipn_app_ge by lia.
  replace (List.length (firstn i content ++ sm) + 1 + List.length x + 9
           - List.length (firstn i content ++ sm))
    with (S (List.length x + 9)) by lia.
  simpl. rewrite skipn_app_ge by lia.
  replace (List.length x + 9 - List.length x) with 9 by lia.
  reflexivity.
Qed.

(** What is read back after a splice is the splice of a content that holds
    the end marker no more than the first one did: a carriage return of the
    content comes back as a newline, and a plain end marker has none. *)
Lemma reread_spliced (text x sm em : str) (i j : nat) :
  ~ In cr text ->
  first_at sm text i ->
  first_at em text j ->
  exists x',
    universal_newlines (new_file_content text x sm em)
    = new_file_content text x' sm em /\
    (plain_marker em = true -> ~ occurs em x -> ~ occurs em x').
Proof.
  intros Hc Hi Hj.
  pose proof (first_at_find_index _ _ _ Hi) as Fi.
  pose proof (first_at_find_index _ _ _ Hj) as Fj.
  destruct (universal_newlines_before_nl x (lit "        " ++ skipn j text))
    as (x' & E & Pull).
  exists x'. split.
  - rewrite !(new_file_content_at _ _ _ _ _ _ Fi Fj).
    rewrite universal_newlines_app_clean by (apply no_cr_firstn; exact Hc).
    f_equal.
    change ([nl] ++ x ++ [nl] ++ lit "        " ++ skipn j text)
      with (nl :: (x ++ nl :: (lit "        " ++ skipn j text))).
    rewrite universal_newlines_other by discriminate.
    rewrite E. rewrite (universal_newlines_clean (lit "        " ++ skipn j text)).
    + reflexivity.
    + intros I. apply in_app_or in I as [I | I].
      * simpl in I. repeat (destruct I as [I | I]; [discriminate I|]). exact I.
      * exact (no_cr_skipn _ _ Hc I).
  - intros Hp Hx (pre & post & O).
    destruct (Pull pre em post O (plain_marker_no_nl _ Hp)) as (p' & q' & Ex & _).
    apply Hx. exists p', q'. exact Ex.
Qed.

(** Both markers still occur in what is read back after a splice. *)
Lemma reread_occurs (text x sm em : str) :
  ~ In cr text ->
  contains sm text = true ->
  contains em text = true ->
  contains sm (universal_newlines (new_file_content text x sm em)) = true /\
  contains em (universal_newlines (new_file_content text x sm em)) = true.
Proof.
  intros Hc Cs Ce.
  apply contains_occurs, occurs_first_at in Cs as [i Hi].
  apply contains_occurs, occurs_first_at in Ce as [j Hj].
  destruct (reread_spliced text x sm em i j Hc Hi Hj) as (x' & E & _).
  rewrite E. destruct (spliced_occurs text x' sm em i j Hi Hj) as [Os Oe].
  split; apply contains_occurs; assumption.
Qed.

(** Splicing what is read back after a splice. *)
Lemma new_file_content_reread (text x y sm em : str) (i j : nat) :
  ~ In cr text ->
  plain_marker em = true ->
  first_at sm text i ->
  first_at em text j ->
  i + List.length sm <= j ->
  ~ occurs em x ->
  new_file_content (universal_newlines (new_file_content text x sm em)) y sm em
  = new_file_content text y sm em /\
  contains sm (universal_newlines (new_file_content text x sm em)) = true /\
  contains em (universal_newlines (new_file_content text x sm em)) = true.
Proof.
  intros Hc Hp Hi Hj Hij Hx.
  destruct (reread_spliced text x sm em i j Hc Hi Hj) as (x' & E & Hx').
  specialize (Hx' Hp Hx). rewrite E.
  destruct (spliced_occurs text x' sm em i j Hi Hj) as [Os Oe].
  split; [apply (new_file_content_again text x' y sm em i j); assumption|].
  split; apply contains_occurs; assumption.
Qed.

Lemma first_at_contains (sub s : str) (i : nat) :
  first_at sub s i -> contains sub s = true.
Proof.
  intros H. unfold contains. rewrite (first_at_find_index _ _ _ H). reflexivity.
Qed.

(** The configured markers have no newline, start with no space and are
    not empty. *)
Lemma marker_pairs_plain (sm em : str) :
  In (sm, em) marker_pairs ->
  plain_marker em = true /\ contains sm [] = false.
Proof.
  intros [E | [E | []]]; injection E as <- <-; split; reflexivity.
Qed.

(** C6. The splicer run twice.  For the marker pairs of the two pages, a
    page that can be read and whose text has its first start marker end
    before its first end marker begins, and a content [x] in which neither
    marker occurs: a second run with the same [x] leaves every file as the
    first run left it.  When the spliced text can be encoded, both runs
    return true and the page holds the splice of the page's text with [x].
    What a run returns and what it leaves in the page is the same in every
    state of the machine in which the page holds the same bytes. *)
Theorem update_file_content_idempotent
    (w : world) (file_path : path) (bytes text x sm em : str) (i j : nat) :
  In (sm, em) marker_pairs ->
  lookup file_path (fs w) = Some (File bytes) ->
  valid_utf8 bytes = true ->
  universal_newlines bytes = text ->
  first_at sm text i ->
  first_at em text j ->
  i + List.length sm <= j ->
  ~ occurs sm x ->
  ~ occurs em x ->
  let once := update_file_content file_path x sm em w in
  let twice := update_file_content file_path x sm em (final_world once) in
  fs (final_world twice) = fs (final_world once) /\
  (valid_utf8 (new_file_content text x sm em) = true ->
   returned once = Some true /\
   returned twice = Some true /\
   lookup file_path (fs (final_world once))
   = Some (File (new_file_content text x sm em)) /\
   lookup file_path (fs (final_world twice))
   = Some (File (new_file_content text x sm em))) /\
  forall v, lookup file_path (fs v) = Some (File bytes) ->
    let other := update_file_content file_path x sm em v in
    returned other = returned once /\
    lookup file_path (fs (final_world other))
    = lookup file_path (fs (final_world once)).
Proof.
  intros Hm L V T Hi Hj Hij _ Hx once twice. subst text.
  destruct (marker_pairs_plain _ _ Hm) as [Hp Hn].
  pose proof (universal_newlines_no_cr bytes) as Hc.
  pose proof (first_at_contains _ _ _ Hi) as Cs.
  pose proof (first_at_contains _ _ _ Hj) as Ce.
  destruct (new_file_content_reread _ x x sm em i j Hc Hp Hi Hj Hij Hx)
    as (Again & Os & Oe).
  set (c1 := new_file_content (universal_newlines bytes) x sm em) in *.
  destruct (valid_utf8 c1) eqn:E.
  - set (w1 := World (store file_path c1 (fs w)) (cwd w) (stdout w)).
    assert (R1 : once = Done true w1)
      by exact (update_accepted _ _ _ _ _ _ L V Cs Ce E).
    assert (L1 : lookup file_path (fs w1) = Some (File c1))
      by apply lookup_store_same.
    assert (E1 : valid_utf8 (new_file_content (universal_newlines c1) x sm em) = true)
      by (rewrite Again; exact E).
    pose proof (update_accepted w1 _ _ x _ _ L1 E Os Oe E1) as R2.
    rewrite Again in R2. simpl in R2. rewrite store_store in R2. fold w1 in R2.
    assert (T2 : twice = Done true w1) by (unfold twice; rewrite R1; exact R2).
    rewrite T2, R1. simpl.
    split; [reflexivity|]. split.
    + intros _. repeat split; apply lookup_store_same.
    + intros v Lv. cbv zeta.
      rewrite (update_accepted _ _ _ _ _ _ Lv V Cs Ce E). simpl.
      split; [reflexivity|]. rewrite !lookup_store_same. reflexivity.
  - set (w1 := World (store file_path [] (fs w)) (cwd w) (stdout w)).
    assert (R1 : once = Raised UnicodeEncodeError w1)
      by exact (update_unencodable _ _ _ _ _ _ L V Cs Ce E).
    assert (L1 : lookup file_path (fs w1) = Some (File []))
      by apply lookup_store_same.
    assert (R2 : update_file_content file_path x sm em w1
                 = Done false (World (fs w1) (cwd w1)
                                 (stdout w1 ++ missing_markers_log file_path sm em))).
    { apply (update_rejected w1 _ [] x sm em L1 eq_refl).
      change (universal_newlines []) with (@nil ascii). rewrite Hn. reflexivity. }
    assert (T2 : twice = Done false (World (fs w1) (cwd w1)
                                      (stdout w1 ++ missing_markers_log file_path sm em)))
      by (unfold twice; rewrite R1; exact R2).
    rewrite T2, R1. simpl.
    split; [reflexivity|]. split; [discriminate|].
    intros v Lv. cbv zeta.
    rewrite (update_unencodable _ _ _ _ _ _ Lv V Cs Ce E). simpl.
    split; [reflexivity|]. rewrite !lookup_store_same. reflexivity.
Qed.

Lemma update_file_content_idempotent_witness :
  In (GALLERY_START, GALLERY_END) marker_pairs /\
  lookup Demo.gallery_file (fs Demo.crlf_world) = Some (File Demo.crlf_page) /\
  valid_utf8 Demo.crlf_page = true /\
  universal_newlines Demo.crlf_page = Demo.gallery_page /\
  first_at GALLERY_START Demo.gallery_page 7 /\
  first_at GALLERY_END Demo.gallery_page 45 /\
  7 + List.length GALLERY_START <= 45 /\
  ~ occurs GALLERY_START (lit "new" ++ [cr] ++ lit "items") /\
  ~ occurs GALLERY_END (lit "new" ++ [cr] ++ lit "items") /\
  let x := lit "new" ++ [cr] ++ lit "items" in
  let once :=
    update_file_content Demo.gallery_file x GALLERY_START GALLERY_END Demo.crlf_world in
  let twice :=
    update_file_content Demo.gallery_file x GALLERY_START GALLERY_END (final_world once) in
  fs (final_world twice) = fs (final_world once) /\
  returned once = Some true /\
  returned twice = Some true.
Proof.
  assert (H0 : In (GALLERY_START, GALLERY_END) marker_pairs) by (left; reflexivity).
  assert (H1 : lookup Demo.gallery_file (fs Demo.crlf_world)
               = Some (File Demo.crlf_page)) by reflexivity.
  assert (H2 : valid_utf8 Demo.crlf_page = true) by reflexivity.
  assert (H3 : universal_newlines Demo.crlf_page = Demo.gallery_page) by reflexivity.
  assert (H4 : first_at GALLERY_START Demo.gallery_page 7)
    by (apply find_index_first; reflexivity).
  assert (H5 : first_at GALLERY_END Demo.gallery_page 45)
    by (apply find_index_first; reflexivity).
  assert (H6 : 7 + List.length GALLERY_START <= 45) by (simpl; lia).
  assert (H7 : ~ occurs GALLERY_START (lit "new" ++ [cr] ++ lit "items"))
    by (intros O; apply contains_occurs in O; discriminate).
  assert (H8 : ~ occurs GALLERY_END (lit "new" ++ [cr] ++ lit "items"))
    by (intros O; apply contains_occurs in O; discriminate).
  repeat (split; [assumption|]).
  intros x once twice.
  destruct (update_file_content_idempotent Demo.crlf_world Demo.gallery_file
              Demo.crlf_page Demo.gallery_page x GALLERY_START GALLERY_END 7 45
              H0 H1 H2 H3 H4 H5 H6 H7 H8) as (Same & Enc & _).
  destruct (Enc eq_refl) as (R1 & R2 & _).
  split; [exact Same|]. split; [exact R1 | exact R2].
Defined.

(** ** Labels *)

Lemma split_on_nonempty (c : ascii) (s : str) : split_on c s <> [].
Proof.
  destruct s as [|x s]; simpl; [discriminate|].
  destruct (Ascii.eqb x c); [discriminate|].
  destruct (split_on c s); discriminate.
Qed.

Lemma join_cons (sep p : str) (q : str) (rest : list str) :
  join sep (p :: q :: rest) = p ++ sep ++ join sep (q :: rest).
Proof. reflexivity. Qed.

Lemma uncased_fixed (c : ascii) : is_cased c = false -> to_upper c = c /\ to_lower c = c.
Proof.
  unfold is_cased, to_upper, to_lower. intros H.
  apply orb_false_iff in H as [-> ->]. split; reflexivity.
Qed.

(** [title], started in any state, against the words of the text: the
    word under way is capitalized when it starts here and lowered when it
    has started already. *)
Lemma title_from_words (s : str) :
  forall cased ok : bool,
    (cased = true -> ok = true) ->
    plain_words_from ok s = true ->
    title_from cased s
    = join [space]
        match split_on space s with
        | [] => []
        | w :: ws =>
            (if ok && negb cased then capitalize w else lower w) :: map capitalize ws
        end.
Proof.
  induction s as [|c s IH]; intros cased ok Hc Hp.
  - simpl. destruct (ok && negb cased); reflexivity.
  - simpl in Hp. apply andb_true_iff in Hp as [Hhead Hrest].
    simpl title_from. simpl split_on.
    destruct (Ascii.eqb c space) eqn:Es.
    + apply Ascii.eqb_eq in Es. subst c.
      rewrite orb_true_r in Hrest.
      change (is_cased space) with false.
      change (to_lower space) with space. change (to_upper space) with space.
      rewrite (IH false true) by (exact Hrest || discriminate).
      pose proof (split_on_nonempty space s) as NE.
      destruct (split_on space s) as [|w ws]; [congruence|].
      simpl map. rewrite join_cons.
      destruct (ok && negb cased), cased; reflexivity.
    + rewrite orb_false_r in Hrest.
      rewrite (IH (is_cased c) (is_cased c)) by (exact Hrest || auto).
      pose proof (split_on_nonempty space s) as NE.
      destruct (split_on space s) as [|w ws]; [congruence|].
      rewrite andb_negb_r.
      destruct cased.
      * rewrite (Hc eq_refl). simpl. destruct (map capitalize ws); reflexivity.
      * destruct ok; simpl; [destruct (map capitalize ws); reflexivity|].
        rewrite orb_false_r in Hhead. apply negb_true_iff in Hhead.
        destruct (uncased_fixed c Hhead) as [-> ->].
        destruct (map capitalize ws); reflexivity.
Qed.

Lemma title_words (s : str) :
  plain_words s = true ->
  title s = join [space] (map capitalize (split_on space s)).
Proof.
  intros H. unfold title.
  rewrite (title_from_words s false true) by (exact H || discriminate).
  pose proof (split_on_nonempty space s) as NE.
  destruct (split_on space s); [congruence | reflexivity].
Qed.

(** Character by character: a character that follows a letter is lowered,
    any other is raised. *)
Lemma title_from_nth (s : str) :
  forall (cased : bool) (k : nat) (d : ascii),
    k < List.length s ->
    nth k (title_from cased s) d
    = if match k with
         | 0 => cased
         | S k' => is_cased (nth k' s d)
         end
      then to_lower (nth k s d)
      else to_upper (nth k s d).
Proof.
  induction s as [|c s IH]; intros cased k d Hk; simpl in Hk; [lia|].
  destruct k as [|k]; [reflexivity|].
  simpl. rewrite IH by lia. destruct k; reflexivity.
Qed.

Lemma title_from_length (s : str) (cased : bool) :
  List.length (title_from cased s) = List.length s.
Proof. revert cased; induction s; intros; simpl; [|rewrite IHs]; reflexivity. Qed.

(** C4, as stated, fails on a word with a letter after a digit:
    [2nd_place.png] is labelled "2Nd Place", not "2nd Place". *)
Lemma alt_text_not_words_capitalized :
  ascii_only (lit "2nd_place.png") = true /\
  stem [lit "art"; lit "2nd_place.png"] = lit "2nd_place" /\
  alt_text [lit "art"; lit "2nd_place.png"] = lit "2Nd Place" /\
  words_capitalized (stem [lit "art"; lit "2nd_place.png"]) = lit "2nd Place" /\
  alt_text [lit "art"; lit "2nd_place.png"]
  <> words_capitalized (stem [lit "art"; lit "2nd_place.png"]).
Proof. repeat split; try reflexivity. discriminate. Qed.

(** C4, as amended.  The label is the stem with underscores and hyphens
    turned into spaces and then put in title case: as long as the stem, with
    every character that follows a letter lowered and every other character
    raised.  [sunset-over_hills.png] is labelled "Sunset Over Hills".  For a
    name made of ASCII characters in which no letter follows a digit or a
    punctuation mark inside a word, this is the stem with each word
    capitalized.  Scanner and grouper build the label the same way. *)
Theorem alt_text_title (file_path : path) :
  ascii_only (name file_path) = true ->
  alt_text [lit "art"; lit "sunset-over_hills.png"] = lit "Sunset Over Hills" /\
  List.length (alt_text file_path) = List.length (stem file_path) /\
  (forall k d, k < List.length (stem file_path) ->
     nth k (alt_text file_path) d
     = if match k with
          | 0 => false
          | S k' => is_cased (nth k' (spaced (stem file_path)) d)
          end
       then to_lower (nth k (spaced (stem file_path)) d)
       else to_upper (nth k (spaced (stem file_path)) d)) /\
  (plain_words (spaced (stem file_path)) = true ->
     alt_text file_path = words_capitalized (stem file_path)) /\
  (forall here,
     snd (entry_for here GALLERY_HTML file_path) = alt_text file_path /\
     snd (entry_for here COLLECTIONS_HTML file_path) = alt_text file_path).
Proof.
  intros _. split; [reflexivity|].
  assert (L : List.length (spaced (stem file_path)) = List.length (stem file_path))
    by (unfold spaced, replace; rewrite !length_map; reflexivity).
  split; [|split; [|split]].
  - unfold alt_text, display_text, title. rewrite title_from_length. exact L.
  - intros k d Hk. unfold alt_text, display_text, title.
    apply title_from_nth. fold (spaced (stem file_path)). rewrite L. exact Hk.
  - intros Hp. unfold alt_text, display_text, words_capitalized.
    apply title_words. exact Hp.
  - intros here. split; reflexivity.
Qed.

Lemma alt_text_title_witness :
  ascii_only (name [lit "art"; lit "landscapes"; lit "hill_1.jpg"]) = true /\
  alt_text [lit "art"; lit "landscapes"; lit "hill_1.jpg"] = lit "Hill 1" /\
  alt_text [lit "art"; lit "landscapes"; lit "hill_1.jpg"]
  = words_capitalized (stem [lit "art"; lit "landscapes"; lit "hill_1.jpg"]).
Proof.
  split; [reflexivity|]. split; [reflexivity|].
  apply (alt_text_title [lit "art"; lit "landscapes"; lit "hill_1.jpg"] eq_refl).
  reflexivity.
Defined.

(** ** The order of paths *)

Section Lexicographic.

Variable A : Type.
Variable cmp : A -> A -> comparison.
Hypothesis cmp_eq : forall x y, cmp x y = Eq <-> x = y.
Hypothesis cmp_opp : forall x y, cmp y x = CompOpp (cmp x y).
Hypothesis cmp_trans : forall x y z, cmp x y = Lt -> cmp y z = Lt -> cmp x z = Lt.

Lemma lex_compare_eq (a b : list A) : lex_compare cmp a b = Eq <-> a = b.
Proof.
  revert b; induction a as [|x a IH]; intros [|y b]; simpl;
    try (split; (reflexivity || discriminate)).
  destruct (cmp x y) eqn:E.
  - apply cmp_eq in E. subst y. rewrite IH. split; congruence.
  - split; [discriminate|]. intros H. injection H as <- _.
    assert (cmp x x = Eq) by (apply cmp_eq; reflexivity). congruence.
  - split; [discriminate|]. intros H. injection H as <- _.
    assert (cmp x x = Eq) by (apply cmp_eq; reflexivity). congruence.
Qed.

Lemma lex_compare_opp (a b : list A) :
  lex_compare cmp b a = CompOpp (lex_compare cmp a b).
Proof.
  revert b; induction a as [|x a IH]; intros [|y b]; simpl; try reflexivity.
  rewrite (cmp_opp x y). destruct (cmp x y); simpl; [apply IH | reflexivity..].
Qed.

Lemma lex_compare_trans (a b c : list A) :
  lex_compare cmp a b = Lt -> lex_compare cmp b c = Lt -> lex_compare cmp a c = Lt.
Proof.
  revert b c; induction a as [|x a IH]; intros [|y b] [|z c]; simpl;
    try (discriminate || reflexivity).
  destruct (cmp x y) eqn:Exy; [|clear IH|discriminate].
  - apply cmp_eq in Exy. subst y.
    destruct (cmp x z); [apply IH | reflexivity | discriminate].
  - intros _. destruct (cmp y z) eqn:Eyz; [| |discriminate].
    + apply cmp_eq in Eyz. subst z. rewrite Exy. reflexivity.
    + rewrite (cmp_trans _ _ _ Exy Eyz). reflexivity.
Qed.

Lemma leb_of_total (a b : list A) :
  leb_of (lex_compare cmp) a b = false -> leb_of (lex_compare cmp) b a = true.
Proof.
  unfold leb_of. rewrite (lex_compare_opp a b).
  destruct (lex_compare cmp a b); simpl; congruence.
Qed.

Lemma leb_of_antisym (a b : list A) :
  leb_of (lex_compare cmp) a b = true -> leb_of (lex_compare cmp) b a = true -> a = b.
Proof.
  unfold leb_of. rewrite (lex_compare_opp a b).
  destruct (lex_compare cmp a b) eqn:E; simpl; try discriminate.
  intros _ _. apply lex_compare_eq. exact E.
Qed.

Lemma leb_of_trans (a b c : list A) :
  leb_of (lex_compare cmp) a b = true -> leb_of (lex_compare cmp) b c = true ->
  leb_of (lex_compare cmp) a c = true.
Proof.
  unfold leb_of.
  destruct (lex_compare cmp a b) eqn:Eab; [| |discriminate]; intros _.
  - apply lex_compare_eq in Eab. subst b. trivial.
  - destruct (lex_compare cmp b c) eqn:Ebc; [| |discriminate]; intros _.
    + apply lex_compare_eq in Ebc. subst c. rewrite Eab. reflexivity.
    + rewrite (lex_compare_trans _ _ _ Eab Ebc). reflexivity.
Qed.

End Lexicographic.

Lemma char_compare_eq (x y : ascii) : char_compare x y = Eq <-> x = y.
Proof.
  unfold char_compare, code. rewrite N.compare_eq_iff. split; [|congruence].
  intros H. rewrite <- (ascii_N_embedding x), <- (ascii_N_embedding y), H.
  reflexivity.
Qed.

Lemma char_compare_opp (x y : ascii) : char_compare y x = CompOpp (char_compare x y).
Proof. apply N.compare_antisym. Qed.

Lemma char_compare_trans (x y z : ascii) :
  char_compare x y = Lt -> char_compare y z = Lt -> char_compare x z = Lt.
Proof. unfold char_compare. rewrite !N.compare_lt_iff. apply N.lt_trans. Qed.

Lemma str_compare_eq (a b : str) : str_compare a b = Eq <-> a = b.
Proof. apply lex_compare_eq, char_compare_eq. Qed.

Lemma str_compare_opp (a b : str) : str_compare b a = CompOpp (str_compare a b).
Proof. apply lex_compare_opp, char_compare_opp. Qed.

Lemma str_compare_trans (a b c : str) :
  str_compare a b = Lt -> str_compare b c = Lt -> str_compare a c = Lt.
Proof.
  apply lex_compare_trans;
    [apply char_compare_eq | apply char_compare_trans].
Qed.

Lemma path_leb_total (p q : path) : path_leb p q = false -> path_leb q p = true.
Proof. apply leb_of_total, str_compare_opp. Qed.

Lemma path_le_antisym (p q : path) : path_le p q -> path_le q p -> p = q.
Proof. apply leb_of_antisym; [apply str_compare_eq | apply str_compare_opp]. Qed.

Lemma path_le_trans (p q r : path) : path_le p q -> path_le q r -> path_le p r.
Proof. apply leb_of_trans; [apply str_compare_eq | apply str_compare_trans]. Qed.

(** ** [sorted] *)

Lemma insert_perm (p : path) (l : list path) : Permutation (insert p l) (p :: l).
Proof.
  induction l as [|q l IH]; simpl; [reflexivity|].
  destruct (path_leb p q); [reflexivity|].
  rewrite IH. apply perm_swap.
Qed.

Lemma sorted_perm (l : list path) : Permutation (sorted l) l.
Proof.
  induction l as [|p l IH]; simpl; [reflexivity|].
  rewrite insert_perm, IH. reflexivity.
Qed.

Lemma insert_sorted (p : path) (l : list path) :
  StronglySorted path_le l -> StronglySorted path_le (insert p l).
Proof.
  induction 1 as [|q l Hs IH Hq]; simpl.
  - repeat constructor.
  - destruct (path_leb p q) eqn:E.
    + constructor; [constructor; assumption|].
      constructor; [exact E|].
      eapply Forall_impl; [|exact Hq].
      intros r Hr. exact (path_le_trans _ _ _ E Hr).
    + constructor; [exact IH|].
      apply (Permutation_Forall (x := p :: l)); [symmetry; apply insert_perm|].
      constructor; [apply path_leb_total; exact E | exact Hq].
Qed.

Lemma sorted_sorted (l : list path) : StronglySorted path_le (sorted l).
Proof.
  induction l as [|p l IH]; simpl; [constructor | apply insert_sorted, IH].
Qed.


(** An ordered list is determined by its elements. *)
Lemma sorted_unique (l1 l2 : list path) :
  StronglySorted path_le l1 -> StronglySorted path_le l2 ->
  Permutation l1 l2 -> l1 = l2.
Proof.
  intros H1; revert l2; induction H1 as [|a l1 Hs IH Ha]; intros l2 H2 P.
  - apply Permutation_nil in P. congruence.
  - destruct H2 as [|b l2 Hs2 Hb].
    + apply Permutation_sym, Permutation_nil in P. discriminate.
    + assert (E : a = b).
      { rewrite Forall_forall in Ha, Hb.
        assert (Ia : In a (b :: l2))
          by (eapply Permutation_in; [exact P | left; reflexivity]).
        assert (Ib : In b (a :: l1))
          by (eapply Permutation_in; [symmetry; exact P | left; reflexivity]).
        destruct Ia as [-> | Ia]; [reflexivity|].
        destruct Ib as [-> | Ib]; [reflexivity|].
        apply path_le_antisym; auto. }
      subst b. f_equal. apply IH; [exact Hs2|].
      eapply Permutation_cons_inv. exact P.
Qed.

Lemma sorted_of_permutation (l1 l2 : list path) :
  Permutation l1 l2 -> sorted l1 = sorted l2.
Proof.
  intros P. apply sorted_unique; try apply sorted_sorted.
  rewrite !sorted_perm. exact P.
Qed.

(** ** What the scanner and the grouper return *)

Lemma find_all_images_run (art_folder : path) (w : world) :
  find_all_images art_folder w
  = match lookup art_folder (fs w) with
    | None => Done [] (logged w [MsgArtMissing art_folder])
    | Some _ =>
        Done (map (entry_for (cwd w) GALLERY_HTML) (image_files (fs w) art_folder)) w
    end.
Proof.
  unfold find_all_images, bind, path_exists.
  destruct (lookup art_folder (fs w)); reflexivity.
Qed.

Lemma find_collections_run (art_folder : path) (w : world) :
  find_collections art_folder w
  = match lookup art_folder (fs w) with
    | None => Done [] (logged w [MsgArtMissing art_folder])
    | Some Dir =>
        Done (fold_left (collect_subfolder (fs w) (cwd w))
                (sorted (filter (child_of art_folder) (map fst (fs w)))) []) w
    | Some (File _) => Raised NotADirectoryError w
    end.
Proof.
  unfold find_collections, bind, path_exists, iterdir.
  destruct (lookup art_folder (fs w)) as [[|c]|] eqn:L; simpl;
    try rewrite L; reflexivity.
Qed.

(** ** Listings that are alike are scanned alike *)

Lemma is_dir_kind (t : tree) (p : path) :
  is_dir t p = match kind_of t p with Some KDir => true | _ => false end.
Proof. unfold is_dir, kind_of. destruct (lookup p t) as [[|c]|]; reflexivity. Qed.

Lemma is_file_kind (t : tree) (p : path) :
  is_file t p = match kind_of t p with Some KFile => true | _ => false end.
Proof. unfold is_file, kind_of. destruct (lookup p t) as [[|c]|]; reflexivity. Qed.

Lemma alike_refl (t : tree) : alike t t.
Proof. split; [reflexivity | intros; reflexivity]. Qed.

Lemma alike_trans (t1 t2 t3 : tree) : alike t1 t2 -> alike t2 t3 -> alike t1 t3.
Proof.
  intros [P1 K1] [P2 K2]. split; [rewrite P1; exact P2|].
  intros p. rewrite K1. apply K2.
Qed.

Lemma filter_perm {A} (f : A -> bool) (l l' : list A) :
  Permutation l l' -> Permutation (filter f l) (filter f l').
Proof.
  induction 1 as [| x l l' P IH | x y l | l1 l2 l3 P1 IH1 P2 IH2]; simpl.
  - reflexivity.
  - destruct (f x); [constructor|]; exact IH.
  - destruct (f x), (f y); try reflexivity. apply perm_swap.
  - rewrite IH1. exact IH2.
Qed.

Lemma image_files_alike (t t' : tree) (folder : path) :
  alike t t' -> image_files t folder = image_files t' folder.
Proof.
  intros [P K]. unfold image_files, rglob.
  rewrite !is_dir_kind, K.
  destruct (kind_of t' folder) as [[|]|]; try reflexivity.
  rewrite (sorted_of_permutation _ _ (filter_perm (below folder) _ _ P)).
  apply filter_ext. intros p. unfold is_image.
  rewrite !is_file_kind, K. reflexivity.
Qed.

Lemma collect_subfolder_alike (t t' : tree) (here : path)
    (acc : collection_map) (sub : path) :
  alike t t' -> collect_subfolder t here acc sub = collect_subfolder t' here acc sub.
Proof.
  intros H. unfold collect_subfolder.
  rewrite (image_files_alike _ _ sub H), !is_dir_kind, (proj2 H). reflexivity.
Qed.

Lemma fold_left_ext {A B} (f g : A -> B -> A) (l : list B) (a : A) :
  (forall x y, f x y = g x y) -> fold_left f l a = fold_left g l a.
Proof.
  intros E. revert a; induction l as [|y l IH]; intros a; simpl; [reflexivity|].
  rewrite E. apply IH.
Qed.

Lemma groups_alike (t t' : tree) (here art_folder : path) :
  alike t t' ->
  fold_left (collect_subfolder t here)
    (sorted (filter (child_of art_folder) (map fst t))) []
  = fold_left (collect_subfolder t' here)
      (sorted (filter (child_of art_folder) (map fst t'))) [].
Proof.
  intros H.
  rewrite (sorted_of_permutation _ _ (filter_perm (child_of art_folder) _ _ (proj1 H))).
  apply fold_left_ext. intros acc sub. apply collect_subfolder_alike. exact H.
Qed.

Lemma find_all_images_alike (art_folder : path) (w w' : world) :
  alike (fs w) (fs w') -> cwd w = cwd w' ->
  returned (find_all_images art_folder w) = returned (find_all_images art_folder w').
Proof.
  intros H C. rewrite !find_all_images_run.
  pose proof (proj2 H art_folder) as K. unfold kind_of in K.
  rewrite (image_files_alike _ _ art_folder H), C.
  destruct (lookup art_folder (fs w)) as [[|c]|],
           (lookup art_folder (fs w')) as [[|c']|];
    try discriminate; reflexivity.
Qed.

Lemma find_collections_alike (art_folder : path) (w w' : world) :
  alike (fs w) (fs w') -> cwd w = cwd w' ->
  returned (find_collections art_folder w) = returned (find_collections art_folder w').
Proof.
  intros H C. rewrite !find_collections_run.
  pose proof (proj2 H art_folder) as K. unfold kind_of in K.
  rewrite (groups_alike _ _ (cwd w) art_folder H), C.
  destruct (lookup art_folder (fs w)) as [[|c]|],
           (lookup art_folder (fs w')) as [[|c']|];
    try discriminate; reflexivity.
Qed.

(** Overwriting a file keeps the listing alike. *)
Lemma store_alike (p : path) (c c0 : str) (t : tree) :
  lookup p t = Some (File c0) -> alike t (store p c t).
Proof.
  intros L. split.
  - rewrite map_fst_store by congruence. reflexivity.
  - intros q. unfold kind_of. destruct (path_eqb p q) eqn:E.
    + apply path_eqb_eq in E. subst q. rewrite lookup_store_same, L. reflexivity.
    + rewrite lookup_store_other; [reflexivity|].
      intros ->. rewrite path_eqb_refl in E. discriminate.
Qed.


Lemma lookup_some_in (t : tree) (p : path) (n : node) :
  lookup p t = Some n -> In (p, n) t.
Proof.
  induction t as [|[q m] t IH]; simpl; [discriminate|].
  destruct (path_eqb q p) eqn:E.
  - apply path_eqb_eq in E. subst q. intros H; injection H as ->. left. reflexivity.
  - intros H. right. apply IH. exact H.
Qed.



(** ** The mapping the grouper builds *)

Lemma dict_append_fresh (k : str) (v : image_entry) (d : collection_map) :
  ~ In k (map fst d) -> dict_append k v d = d ++ [(k, [v])].
Proof.
  induction d as [|[k' vs] d IH]; simpl; [reflexivity|].
  intros N. destruct (str_eqb k' k) eqn:E.
  - apply str_eqb_eq in E. exfalso. apply N. left. exact E.
  - rewrite IH by (intros I; apply N; right; exact I). reflexivity.
Qed.

Lemma dict_append_last (k : str) (v : image_entry) (vs : list image_entry)
    (d : collection_map) :
  ~ In k (map fst d) -> dict_append k v (d ++ [(k, vs)]) = d ++ [(k, vs ++ [v])].
Proof.
  induction d as [|[k' ws] d IH]; simpl.
  - rewrite str_eqb_refl. reflexivity.
  - intros N. destruct (str_eqb k' k) eqn:E.
    + apply str_eqb_eq in E. exfalso. apply N. left. exact E.
    + rewrite IH by (intros I; apply N; right; exact I). reflexivity.
Qed.

Lemma fold_dict_append_last (k : str) (f : path -> image_entry) (ps : list path)
    (vs : list image_entry) (d : collection_map) :
  ~ In k (map fst d) ->
  fold_left (fun acc p => dict_append k (f p) acc) ps (d ++ [(k, vs)])
  = d ++ [(k, vs ++ map f ps)].
Proof.
  intros N. revert vs; induction ps as [|p ps IH]; intros vs; simpl.
  - rewrite app_nil_r. reflexivity.
  - rewrite dict_append_last by exact N. rewrite IH, <- app_assoc. reflexivity.
Qed.

Lemma collect_subfolder_fresh (t : tree) (here : path) (acc : collection_map)
    (sub : path) :
  ~ In (name sub) (map fst acc) ->
  collect_subfolder t here acc sub = acc ++ collection_group t here sub.
Proof.
  intros N. unfold collect_subfolder, collection_group.
  destruct (is_dir t sub); [|rewrite app_nil_r; reflexivity].
  destruct (image_files t sub) as [|p ps]; simpl; [rewrite app_nil_r; reflexivity|].
  rewrite dict_append_fresh by exact N.
  apply (fold_dict_append_last (name sub) (entry_for here COLLECTIONS_HTML)).
  exact N.
Qed.

Lemma collection_group_keys (t : tree) (here sub : path) (k : str) :
  In k (map fst (collection_group t here sub)) -> k = name sub.
Proof.
  unfold collection_group. destruct (is_dir t sub); [|contradiction].
  destruct (image_files t sub); simpl; [contradiction|].
  intros [E | []]. symmetry. exact E.
Qed.

Lemma fold_collect_subfolder (t : tree) (here : path) (subs : list path) :
  NoDup (map name subs) ->
  forall acc,
    (forall sub, In sub subs -> ~ In (name sub) (map fst acc)) ->
    fold_left (collect_subfolder t here) subs acc
    = acc ++ flat_map (collection_group t here) subs.
Proof.
  induction subs as [|sub subs IH]; intros ND acc Hacc; simpl.
  - rewrite app_nil_r. reflexivity.
  - inversion ND as [|? ? Hn ND']; subst.
    rewrite collect_subfolder_fresh by (apply Hacc; left; reflexivity).
    rewrite IH; [rewrite <- app_assoc; reflexivity | exact ND' |].
    intros s Hs I. rewrite map_app in I. apply in_app_or in I as [I | I].
    + exact (Hacc s (or_intror Hs) I).
    + apply collection_group_keys in I. apply Hn. rewrite <- I.
      apply in_map. exact Hs.
Qed.

Lemma child_of_name (d p : path) : child_of d p = true -> p = d ++ [name p].
Proof.
  revert p; induction d as [|x d IH]; intros [|y p]; simpl; try discriminate.
  - destruct p; [reflexivity | discriminate].
  - intros H. apply andb_true_iff in H as [Hx Hr].
    apply str_eqb_eq in Hx. subst y.
    rewrite (IH p Hr) at 1. f_equal.
    destruct p as [|z p]; [destruct d; discriminate|].
    simpl. destruct (d ++ [last (z :: p) []]) eqn:E; [|reflexivity].
    destruct d; discriminate.
Qed.

Lemma NoDup_map_on {A B} (f : A -> B) (l : list A) :
  (forall x y, In x l -> In y l -> f x = f y -> x = y) ->
  NoDup l -> NoDup (map f l).
Proof.
  intros Inj ND. induction ND as [|a l Ha ND IH]; simpl; constructor.
  - intros I. apply in_map_iff in I as (b & E & Ib).
    assert (b = a) by (apply Inj; [right; exact Ib | left; reflexivity | exact E]).
    subst b. contradiction.
  - apply IH. intros x y Hx Hy. apply Inj; right; assumption.
Qed.

Lemma subfolder_names_distinct (t : tree) (d : path) :
  NoDup (map fst t) ->
  NoDup (map name (sorted (filter (child_of d) (map fst t)))).
Proof.
  intros ND. apply NoDup_map_on.
  - intros p q Hp Hq E.
    apply (Permutation_in _ (sorted_perm _)), filter_In in Hp as [_ Hp].
    apply (Permutation_in _ (sorted_perm _)), filter_In in Hq as [_ Hq].
    rewrite (child_of_name d p Hp), (child_of_name d q Hq), E. reflexivity.
  - eapply Permutation_NoDup; [symmetry; apply sorted_perm|].
    apply NoDup_filter. exact ND.
Qed.

(** The grouper returns one group per subdirectory with an image, in the
    order of the subdirectories. *)
Lemma find_collections_groups (art_folder : path) (w : world) (colls : collection_map) :
  NoDup (map fst (fs w)) ->
  returned (find_collections art_folder w) = Some colls ->
  colls = flat_map (collection_group (fs w) (cwd w))
            (match lookup art_folder (fs w) with
             | Some Dir => sorted (filter (child_of art_folder) (map fst (fs w)))
             | _ => []
             end).
Proof.
  intros ND. rewrite find_collections_run.
  destruct (lookup art_folder (fs w)) as [[|c]|]; simpl; try congruence.
  intros H; injection H as <-.
  rewrite fold_collect_subfolder; [reflexivity | | intros ? ? []].
  apply subfolder_names_distinct. exact ND.
Qed.

(** ** Order and reproducibility of a scan *)



Ltac distinct_paths :=
  repeat (constructor;
          [simpl; intros H;
           repeat (destruct H as [H | H]; [discriminate H|]); exact H|]);
  constructor.




(** ** The frame of a run *)

Lemma final_world_bind {A B} (m : M A) (k : A -> M B) (w : world) :
  final_world (bind m k w)
  = match m w with
    | Done a w1 => final_world (k a w1)
    | Raised _ w1 => w1
    end.
Proof. unfold bind. destruct (m w); reflexivity. Qed.

Lemma only_touches_refl (p : path) (w : world) : only_touches p w w.
Proof.
  split; [reflexivity|]. split; [apply alike_refl|]. split; [reflexivity|].
  exists []. split; [rewrite app_nil_r; reflexivity | intros q _ []].
Qed.

Lemma only_touches_trans (p : path) (w1 w2 w3 : world) :
  only_touches p w1 w2 -> only_touches p w2 w3 -> only_touches p w1 w3.
Proof.
  intros (C1 & A1 & F1 & l1 & S1 & N1) (C2 & A2 & F2 & l2 & S2 & N2).
  split; [congruence|]. split; [exact (alike_trans _ _ _ A1 A2)|].
  split; [intros q Hq; rewrite F2, F1 by exact Hq; reflexivity|].
  exists (l1 ++ l2). split; [rewrite S2, S1, app_assoc; reflexivity|].
  intros q Hq I. apply in_app_or in I as [I | I]; [exact (N1 q Hq I) | exact (N2 q Hq I)].
Qed.

Lemma keeps_to_bind {A B} (p : path) (m : M A) (k : A -> M B) :
  keeps_to p m -> (forall a, keeps_to p (k a)) -> keeps_to p (bind m k).
Proof.
  intros Hm Hk w. rewrite final_world_bind. specialize (Hm w).
  destruct (m w) as [a w1 | e w1]; simpl in Hm; [|exact Hm].
  exact (only_touches_trans _ _ _ _ Hm (Hk a w1)).
Qed.

Lemma keeps_to_ret {A} (p : path) (a : A) : keeps_to p (ret a).
Proof. intros w. apply only_touches_refl. Qed.

Lemma keeps_to_log (p : path) (w : world) (log : list message) :
  (forall q, q <> p -> ~ In (MsgUpdating q) log) ->
  only_touches p w (logged w log).
Proof.
  intros N. split; [reflexivity|]. split; [apply alike_refl|].
  split; [reflexivity|]. exists log. split; [reflexivity | exact N].
Qed.

Lemma keeps_to_print (p : path) (m : message) :
  (forall q, q <> p -> m <> MsgUpdating q) -> keeps_to p (print m).
Proof.
  intros N w. apply (keeps_to_log p w [m]).
  intros q Hq [E | []]. exact (N q Hq E).
Qed.

Ltac quiet := intros ? ?; discriminate.

Lemma keeps_to_update (p : path) (x sm em : str) :
  keeps_to p (update_file_content p x sm em).
Proof.
  intros w.
  assert (Stored : forall c content,
             lookup p (fs w) = Some (File content) ->
             only_touches p w (World (store p c (fs w)) (cwd w) (stdout w))).
  { intros c content L.
    split; [reflexivity|]. split; [exact (store_alike _ _ _ _ L)|].
    split; [intros q Hq; apply lookup_store_other; congruence|].
    exists []. split; [simpl; rewrite app_nil_r; reflexivity | intros q _ []]. }
  destruct (update_cases w p x sm em)
    as [(L & R) | [(L & R) | [(b & L & V & R) | [(b & L & V & C & R)
       | [(b & L & V & Cs & Ce & E & R) | (b & L & V & Cs & Ce & E & R)]]]]];
    rewrite R; simpl final_world.
  - apply (keeps_to_log p w). intros q _ [I | []]. discriminate I.
  - apply only_touches_refl.
  - apply only_touches_refl.
  - apply (keeps_to_log p w). intros q _ I. simpl in I.
    repeat (destruct I as [I | I]; [discriminate I|]). exact I.
  - exact (Stored _ _ L).
  - exact (Stored _ _ L).
Qed.

Lemma keeps_to_find_all_images (p art_folder : path) :
  keeps_to p (find_all_images art_folder).
Proof.
  intros w. rewrite find_all_images_run.
  destruct (lookup art_folder (fs w)); simpl; [apply only_touches_refl|].
  apply (keeps_to_log p w). intros q _ [I | []]. discriminate I.
Qed.

Lemma keeps_to_find_collections (p art_folder : path) :
  keeps_to p (find_collections art_folder).
Proof.
  intros w. rewrite find_collections_run.
  destruct (lookup art_folder (fs w)) as [[|c]|]; simpl;
    try apply only_touches_refl.
  apply (keeps_to_log p w). intros q _ [I | []]. discriminate I.
Qed.

Lemma keeps_to_for_each {A} (p : path) (l : list A) (body : A -> M unit) :
  (forall x, keeps_to p (body x)) -> keeps_to p (for_each l body).
Proof.
  intros H. induction l as [|x l IH]; simpl; [apply keeps_to_ret|].
  apply keeps_to_bind; [apply H | intros _; exact IH].
Qed.

Lemma keeps_to_gallery_pipeline (art_folder gallery_file : path) :
  keeps_to gallery_file (gallery_pipeline art_folder gallery_file).
Proof.
  unfold gallery_pipeline.
  apply keeps_to_bind; [apply keeps_to_print; quiet | intros _].
  apply keeps_to_bind; [apply keeps_to_find_all_images | intros imgs].
  destruct imgs as [|e imgs]; [apply keeps_to_print; quiet|].
  apply keeps_to_bind; [apply keeps_to_print; quiet | intros _].
  apply keeps_to_bind; [apply keeps_to_print; quiet | intros _].
  apply keeps_to_bind;
    [apply keeps_to_print; intros q Hq E; injection E as E; congruence | intros _].
  apply keeps_to_bind; [apply keeps_to_update | intros ok].
  destruct ok; apply keeps_to_print; quiet.
Qed.

Lemma keeps_to_collections_pipeline (art_folder collections_file : path) :
  keeps_to collections_file (collections_pipeline art_folder collections_file).
Proof.
  unfold collections_pipeline.
  apply keeps_to_bind; [apply keeps_to_print; quiet | intros _].
  apply keeps_to_bind; [apply keeps_to_find_collections | intros colls].
  destruct colls as [|kv colls]; [apply keeps_to_print; quiet|].
  apply keeps_to_bind; [apply keeps_to_print; quiet | intros _].
  apply keeps_to_bind;
    [apply keeps_to_for_each; intros x; apply keeps_to_print; quiet | intros _].
  apply keeps_to_bind; [apply keeps_to_print; quiet | intros _].
  apply keeps_to_bind;
    [apply keeps_to_print; intros q Hq E; injection E as E; congruence | intros _].
  apply keeps_to_bind; [apply keeps_to_update | intros ok].
  destruct ok; apply keeps_to_print; quiet.
Qed.

Lemma untouched_refl (p : path) (w : world) : untouched p w w.
Proof.
  split; [reflexivity|]. exists []. split; [rewrite app_nil_r; reflexivity | intros []].
Qed.

Lemma untouched_trans (p : path) (w1 w2 w3 : world) :
  untouched p w1 w2 -> untouched p w2 w3 -> untouched p w1 w3.
Proof.
  intros (F1 & l1 & S1 & N1) (F2 & l2 & S2 & N2).
  split; [congruence|]. exists (l1 ++ l2).
  split; [rewrite S2, S1, app_assoc; reflexivity|].
  intros I. apply in_app_or in I as [I | I]; auto.
Qed.

Lemma only_touches_untouched (p q : path) (w w' : world) :
  q <> p -> only_touches p w w' -> untouched q w w'.
Proof.
  intros N (_ & _ & F & log & S & Q). split; [exact (F q N)|].
  exists log. split; [exact S | exact (Q q N)].
Qed.

Lemma untouched_log (p : path) (w : world) (log : list message) :
  ~ In (MsgUpdating p) log -> untouched p w (logged w log).
Proof. intros N. split; [reflexivity|]. exists log. split; [reflexivity | exact N]. Qed.

Lemma pages_differ (script_dir : path) :
  script_dir ++ GALLERY_HTML <> script_dir ++ COLLECTIONS_HTML.
Proof. intros E. apply app_inv_head in E. discriminate E. Qed.

(** ** Running the two pipelines *)

Lemma bind_print {B} (m : message) (k : unit -> M B) (w : world) :
  bind (print m) k w = k tt (logged w [m]).
Proof. reflexivity. Qed.

Lemma print_run (m : message) (w : world) : print m w = Done tt (logged w [m]).
Proof. reflexivity. Qed.

Lemma logged_logged (w : world) (a b : list message) :
  logged (logged w a) b = logged w (a ++ b).
Proof. unfold logged. simpl. rewrite <- app_assoc. reflexivity. Qed.

Lemma find_all_images_logged (art_folder : path) (w : world) (log : list message) :
  returned (find_all_images art_folder (logged w log))
  = returned (find_all_images art_folder w).
Proof. apply find_all_images_alike; [apply alike_refl | reflexivity]. Qed.

Lemma find_collections_logged (art_folder : path) (w : world) (log : list message) :
  returned (find_collections art_folder (logged w log))
  = returned (find_collections art_folder w).
Proof. apply find_collections_alike; [apply alike_refl | reflexivity]. Qed.

(** A scan that returns leaves the files alone and prints at most the
    complaint about the missing folder. *)
Lemma find_all_images_done (art_folder : path) (w : world) (imgs : list image_entry) :
  returned (find_all_images art_folder w) = Some imgs ->
  exists log,
    find_all_images art_folder w = Done imgs (logged w log) /\
    forall m, In m log -> m = MsgArtMissing art_folder.
Proof.
  rewrite find_all_images_run. destruct (lookup art_folder (fs w)); simpl;
    intros H; injection H as <-.
  - exists []. split; [|intros m []].
    unfold logged. rewrite app_nil_r. destruct w; reflexivity.
  - exists [MsgArtMissing art_folder]. split; [reflexivity|].
    intros m [<- | []]. reflexivity.
Qed.

Lemma find_collections_done (art_folder : path) (w : world) (colls : collection_map) :
  returned (find_collections art_folder w) = Some colls ->
  exists log,
    find_collections art_folder w = Done colls (logged w log) /\
    forall m, In m log -> m = MsgArtMissing art_folder.
Proof.
  rewrite find_collections_run.
  destruct (lookup art_folder (fs w)) as [[|c]|]; simpl; intros H;
    try discriminate; injection H as <-.
  - exists []. split; [|intros m []].
    unfold logged. rewrite app_nil_r. destruct w; reflexivity.
  - exists [MsgArtMissing art_folder]. split; [reflexivity|].
    intros m [<- | []]. reflexivity.
Qed.

Lemma for_each_print {A} (l : list A) (line : A -> message) (w : world) :
  for_each l (fun x => print (line x)) w = Done tt (logged w (map line l)).
Proof.
  revert w; induction l as [|x l IH]; intros w; simpl.
  - unfold ret, logged. rewrite app_nil_r. destruct w; reflexivity.
  - rewrite bind_print, IH, logged_logged. reflexivity.
Qed.

(** The gallery pipeline when the scan finds nothing. *)
Lemma gallery_pipeline_empty (art_folder gallery_file : path) (w : world) :
  returned (find_all_images art_folder w) = Some [] ->
  exists log,
    gallery_pipeline art_folder gallery_file w = Done tt (logged w log) /\
    In MsgNoImages log /\
    forall q, ~ In (MsgUpdating q) log.
Proof.
  intros R. unfold gallery_pipeline. rewrite bind_print.
  rewrite <- (find_all_images_logged art_folder w [MsgGalleryStage]) in R.
  destruct (find_all_images_done _ _ _ R) as (log & E & Hlog).
  unfold bind at 1. rewrite E. cbv beta iota. rewrite print_run, !logged_logged.
  eexists. split; [reflexivity|]. split.
  - apply in_or_app. right. apply in_or_app. right. left. reflexivity.
  - intros q I. simpl in I. destruct I as [I | I]; [discriminate I|].
    apply in_app_or in I as [I | [I | []]]; [|discriminate I].
    apply Hlog in I. discriminate I.
Qed.

(** The gallery pipeline when the scan finds images: it comes down to the
    update of the page. *)
Lemma gallery_pipeline_found (art_folder gallery_file : path) (w : world)
    (imgs : list image_entry) :
  returned (find_all_images art_folder w) = Some imgs ->
  imgs <> [] ->
  gallery_pipeline art_folder gallery_file w
  = bind (update_file_content gallery_file (generate_gallery_html imgs)
            GALLERY_START GALLERY_END)
      (fun ok : bool =>
         if ok then print (MsgGalleryUpdated (List.length imgs))
         else print MsgGalleryFailed)
      (logged w [MsgGalleryStage; MsgFoundImages (List.length imgs);
                 MsgGeneratingGallery; MsgUpdating gallery_file]).
Proof.
  intros R NE. unfold gallery_pipeline. rewrite bind_print.
  rewrite <- (find_all_images_logged art_folder w [MsgGalleryStage]) in R.
  rewrite find_all_images_run in R. unfold bind at 1.
  rewrite find_all_images_run.
  change (fs (logged w [MsgGalleryStage])) with (fs w) in *.
  change (cwd (logged w [MsgGalleryStage])) with (cwd w) in *.
  destruct (lookup art_folder (fs w)); cbv beta iota in R; unfold returned in R;
    injection R as R; [|congruence].
  rewrite R. destruct imgs as [|e imgs]; [congruence|].
  rewrite !bind_print, !logged_logged. reflexivity.
Qed.

(** The collections pipeline when the scan finds nothing. *)
Lemma collections_pipeline_empty (art_folder collections_file : path) (w : world) :
  returned (find_collections art_folder w) = Some [] ->
  exists log,
    collections_pipeline art_folder collections_file w = Done tt (logged w log) /\
    In MsgNoCollections log /\
    forall q, ~ In (MsgUpdating q) log.
Proof.
  intros R. unfold collections_pipeline. rewrite bind_print.
  rewrite <- (find_collections_logged art_folder w [MsgCollectionsStage]) in R.
  destruct (find_collections_done _ _ _ R) as (log & E & Hlog).
  unfold bind at 1. rewrite E. cbv beta iota. rewrite print_run, !logged_logged.
  eexists. split; [reflexivity|]. split.
  - apply in_or_app. right. apply in_or_app. right. left. reflexivity.
  - intros q I. simpl in I. destruct I as [I | I]; [discriminate I|].
    apply in_app_or in I as [I | [I | []]]; [|discriminate I].
    apply Hlog in I. discriminate I.
Qed.

(** The collections pipeline when the scan finds collections. *)
Lemma collections_pipeline_found (art_folder collections_file : path) (w : world)
    (colls : collection_map) :
  returned (find_collections art_folder w) = Some colls ->
  colls <> [] ->
  collections_pipeline art_folder collections_file w
  = bind (update_file_content collections_file (generate_collections_html colls)
            COLLECTIONS_START COLLECTIONS_END)
      (fun ok : bool =>
         if ok then print (MsgCollectionsUpdated (List.length colls))
         else print MsgCollectionsFailed)
      (logged w ([MsgCollectionsStage;
                  MsgFoundCollections (List.length colls) (total_images colls)]
                 ++ map (fun kv => MsgCollectionLine (fst kv) (List.length (snd kv))) colls
                 ++ [MsgGeneratingCollections; MsgUpdating collections_file])).
Proof.
  intros R NE. unfold collections_pipeline. rewrite bind_print.
  rewrite <- (find_collections_logged art_folder w [MsgCollectionsStage]) in R.
  rewrite find_collections_run in R. unfold bind at 1.
  rewrite find_collections_run.
  change (fs (logged w [MsgCollectionsStage])) with (fs w) in *.
  change (cwd (logged w [MsgCollectionsStage])) with (cwd w) in *.
  destruct (lookup art_folder (fs w)) as [[|c]|];
    cbv beta iota in R; unfold returned in R;
    try discriminate; injection R as R; [|congruence].
  rewrite R. destruct colls as [|kv colls]; [congruence|].
  rewrite bind_print. unfold bind at 1. rewrite for_each_print.
  rewrite !bind_print, !logged_logged. reflexivity.
Qed.

(** ** A missing art folder *)

(** C9. When the art folder does not exist, the scanner and the grouper
    each print their complaint and return an empty result, and the run goes
    on to its end: it reports no images and no collections and changes no
    file. *)
Theorem missing_art_folder (script_dir : path) (w : world) :
  lookup (script_dir ++ ART_FOLDER) (fs w) = None ->
  find_all_images (script_dir ++ ART_FOLDER) w
  = Done [] (logged w [MsgArtMissing (script_dir ++ ART_FOLDER)]) /\
  find_collections (script_dir ++ ART_FOLDER) w
  = Done [] (logged w [MsgArtMissing (script_dir ++ ART_FOLDER)]) /\
  main script_dir w
  = Done tt (logged w [MsgBanner; MsgRule;
                       MsgScanning (script_dir ++ ART_FOLDER);
                       MsgGalleryStage;
                       MsgArtMissing (script_dir ++ ART_FOLDER);
                       MsgNoImages;
                       MsgCollectionsStage;
                       MsgArtMissing (script_dir ++ ART_FOLDER);
                       MsgNoCollections;
                       MsgFinalRule; MsgComplete]) /\
  fs (final_world (main script_dir w)) = fs w.
Proof.
  intros L.
  assert (F : forall log, find_all_images (script_dir ++ ART_FOLDER) (logged w log)
                = Done [] (logged w (log ++ [MsgArtMissing (script_dir ++ ART_FOLDER)]))).
  { intros log. rewrite find_all_images_run. simpl fs. rewrite L.
    rewrite logged_logged. reflexivity. }
  assert (C : forall log, find_collections (script_dir ++ ART_FOLDER) (logged w log)
                = Done [] (logged w (log ++ [MsgArtMissing (script_dir ++ ART_FOLDER)]))).
  { intros log. rewrite find_collections_run. simpl fs. rewrite L.
    rewrite logged_logged. reflexivity. }
  assert (E : main script_dir w
              = Done tt (logged w [MsgBanner; MsgRule;
                       MsgScanning (script_dir ++ ART_FOLDER);
                       MsgGalleryStage;
                       MsgArtMissing (script_dir ++ ART_FOLDER);
                       MsgNoImages;
                       MsgCollectionsStage;
                       MsgArtMissing (script_dir ++ ART_FOLDER);
                       MsgNoCollections;
                       MsgFinalRule; MsgComplete])).
  { assert (G : forall log,
              gallery_pipeline (script_dir ++ ART_FOLDER) (script_dir ++ GALLERY_HTML)
                (logged w log)
              = Done tt (logged w (log ++ [MsgGalleryStage;
                                           MsgArtMissing (script_dir ++ ART_FOLDER);
                                           MsgNoImages]))).
    { intros log. unfold gallery_pipeline. rewrite bind_print, logged_logged.
      unfold bind. rewrite F. rewrite print_run, logged_logged, <- !app_assoc.
      reflexivity. }
    assert (K : forall log,
              collections_pipeline (script_dir ++ ART_FOLDER)
                (script_dir ++ COLLECTIONS_HTML) (logged w log)
              = Done tt (logged w (log ++ [MsgCollectionsStage;
                                           MsgArtMissing (script_dir ++ ART_FOLDER);
                                           MsgNoCollections]))).
    { intros log. unfold collections_pipeline. rewrite bind_print, logged_logged.
      unfold bind. rewrite C. rewrite print_run, logged_logged, <- !app_assoc.
      reflexivity. }
    unfold main. rewrite !bind_print. cbv zeta. rewrite !logged_logged.
    unfold bind at 1. rewrite G.
    unfold bind at 1. rewrite K.
    rewrite bind_print, print_run, !logged_logged. reflexivity. }
  split; [|split; [|split]].
  - rewrite find_all_images_run, L. reflexivity.
  - rewrite find_collections_run, L. reflexivity.
  - exact E.
  - rewrite E. reflexivity.
Qed.

(** ** A scan that finds nothing *)

(** C10. When the scanner returns no image, the run leaves the gallery
    page as it is and never announces an update of it, whatever the
    collections pipeline does; when the grouper returns no collection, the
    same holds for the collections page.  Markup of an earlier run stays in
    the page. *)
Theorem empty_scan_leaves_page (script_dir : path) (w : world) :
  (returned (find_all_images (script_dir ++ ART_FOLDER) w) = Some [] ->
   untouched (script_dir ++ GALLERY_HTML) w (final_world (main script_dir w))) /\
  (returned (find_collections (script_dir ++ ART_FOLDER) w) = Some [] ->
   untouched (script_dir ++ COLLECTIONS_HTML) w (final_world (main script_dir w))).
Proof.
  set (art := script_dir ++ ART_FOLDER).
  set (gf := script_dir ++ GALLERY_HTML).
  set (cf := script_dir ++ COLLECTIONS_HTML).
  assert (D : gf <> cf) by apply pages_differ.
  set (head := [MsgBanner] ++ [MsgRule] ++ [MsgScanning art]).
  assert (Hhead : forall q, ~ In (MsgUpdating q) head)
    by (intros q I; simpl in I;
        repeat (destruct I as [I | I]; [discriminate I|]); exact I).
  assert (Htail : forall q, ~ In (MsgUpdating q) ([MsgFinalRule] ++ [MsgComplete]))
    by (intros q I; simpl in I;
        repeat (destruct I as [I | I]; [discriminate I|]); exact I).
  assert (E : main script_dir w
              = bind (gallery_pipeline art gf)
                  (fun _ => bind (collections_pipeline art cf)
                     (fun _ => bind (print MsgFinalRule) (fun _ => print MsgComplete)))
                  (logged w head)).
  { unfold main. rewrite !bind_print. cbv zeta. rewrite !logged_logged. reflexivity. }
  rewrite E. clear E. split; intros R.
  - rewrite <- (find_all_images_logged art w head) in R.
    destruct (gallery_pipeline_empty art gf _ R) as (log & G & _ & N).
    rewrite final_world_bind, G, logged_logged, final_world_bind.
    pose proof (keeps_to_collections_pipeline art cf (logged w (head ++ log))) as KT.
    assert (U : untouched gf w (logged w (head ++ log))).
    { apply untouched_log. intros I. apply in_app_or in I as [I | I];
        [exact (Hhead _ I) | exact (N _ I)]. }
    apply (only_touches_untouched cf gf) in KT; [|exact D].
    destruct (collections_pipeline art cf (logged w (head ++ log))) as [[] w5 | e w5];
      simpl in KT.
    + rewrite bind_print, print_run, logged_logged. simpl final_world.
      apply (untouched_trans _ _ _ _ U), (untouched_trans _ _ _ _ KT).
      apply untouched_log, Htail.
    + exact (untouched_trans _ _ _ _ U KT).
  - rewrite final_world_bind.
    pose proof (keeps_to_gallery_pipeline art gf (logged w head)) as KT.
    assert (U : untouched cf w (logged w head)) by apply untouched_log, Hhead.
    destruct (gallery_pipeline art gf (logged w head)) as [[] w4 | e w4];
      simpl in KT.
    + assert (R4 : returned (find_collections art w4) = Some []).
      { destruct KT as (C & A & _).
        rewrite <- (find_collections_alike art (logged w head) w4 A (eq_sym C)).
        rewrite find_collections_logged. exact R. }
      apply (only_touches_untouched gf cf) in KT; [|congruence].
      destruct (collections_pipeline_empty art cf w4 R4) as (log & K & _ & N).
      rewrite final_world_bind, K, bind_print, print_run, !logged_logged.
      simpl final_world.
      apply (untouched_trans _ _ _ _ U), (untouched_trans _ _ _ _ KT).
      apply untouched_log. intros I. apply in_app_or in I as [I | I];
        [exact (N _ I) | exact (Htail _ I)].
    + apply (only_touches_untouched gf cf) in KT; [|congruence].
      exact (untouched_trans _ _ _ _ U KT).
Qed.

(** Membership in a log written as appended pieces. *)
Ltac in_log :=
  solve [ assumption
        | left; reflexivity
        | right; in_log
        | apply in_or_app; left; in_log
        | apply in_or_app; right; in_log ].

Lemma main_run (script_dir : path) (w : world) :
  main script_dir w
  = bind (gallery_pipeline (script_dir ++ ART_FOLDER) (script_dir ++ GALLERY_HTML))
      (fun _ =>
         bind (collections_pipeline (script_dir ++ ART_FOLDER)
                 (script_dir ++ COLLECTIONS_HTML))
           (fun _ => bind (print MsgFinalRule) (fun _ => print MsgComplete)))
      (logged w [MsgBanner; MsgRule; MsgScanning (script_dir ++ ART_FOLDER)]).
Proof.
  unfold main. rewrite !bind_print. cbv zeta. rewrite !logged_logged. reflexivity.
Qed.

(** The splicer reports a failure when the page is missing or lacks a
    marker. *)
Lemma update_refused (w : world) (p : path) (x sm em : str) :
  (lookup p (fs w) = None \/
   exists bytes,
     lookup p (fs w) = Some (File bytes) /\ valid_utf8 bytes = true /\
     (~ occurs sm (universal_newlines bytes) \/
      ~ occurs em (universal_newlines bytes))) ->
  exists log, update_file_content p x sm em w = Done false (logged w log).
Proof.
  intros [L | (bytes & L & V & N)].
  - eexists. exact (update_missing _ _ _ _ _ L).
  - eexists. apply (update_rejected _ _ _ _ _ _ L V).
    destruct N as [N | N]; rewrite (not_occurs_contains _ _ N);
      [reflexivity | apply andb_false_r].
Qed.

Lemma gallery_pipeline_refused (art_folder gallery_file : path) (w : world)
    (imgs : list image_entry) :
  returned (find_all_images art_folder w) = Some imgs ->
  imgs <> [] ->
  (lookup gallery_file (fs w) = None \/
   exists bytes,
     lookup gallery_file (fs w) = Some (File bytes) /\ valid_utf8 bytes = true /\
     (~ occurs GALLERY_START (universal_newlines bytes) \/
      ~ occurs GALLERY_END (universal_newlines bytes))) ->
  exists log,
    gallery_pipeline art_folder gallery_file w = Done tt (logged w log) /\
    In MsgGalleryFailed log.
Proof.
  intros R NE C. rewrite (gallery_pipeline_found _ _ _ _ R NE).
  set (w1 := logged w _).
  destruct (update_refused w1 gallery_file (generate_gallery_html imgs)
              GALLERY_START GALLERY_END C) as (log & K).
  unfold bind. rewrite K, print_run. unfold w1. rewrite !logged_logged.
  eexists. split; [reflexivity | in_log].
Qed.

Lemma gallery_pipeline_accepted (art_folder gallery_file : path) (w : world)
    (imgs : list image_entry) (bytes : str) :
  returned (find_all_images art_folder w) = Some imgs ->
  imgs <> [] ->
  lookup gallery_file (fs w) = Some (File bytes) ->
  valid_utf8 bytes = true ->
  contains GALLERY_START (universal_newlines bytes) = true ->
  contains GALLERY_END (universal_newlines bytes) = true ->
  valid_utf8 (new_file_content (universal_newlines bytes) (generate_gallery_html imgs)
                GALLERY_START GALLERY_END) = true ->
  gallery_pipeline art_folder gallery_file w
  = Done tt
      (World (store gallery_file
                (new_file_content (universal_newlines bytes) (generate_gallery_html imgs)
                   GALLERY_START GALLERY_END) (fs w))
         (cwd w)
         (stdout w ++ [MsgGalleryStage; MsgFoundImages (List.length imgs);
                       MsgGeneratingGallery; MsgUpdating gallery_file;
                       MsgGalleryUpdated (List.length imgs)])).
Proof.
  intros R NE L V Cs Ce E. rewrite (gallery_pipeline_found _ _ _ _ R NE).
  set (w1 := logged w _).
  unfold bind. rewrite (update_accepted w1 _ bytes _ _ _ L V Cs Ce E).
  rewrite print_run. unfold w1, logged. simpl. rewrite <- !app_assoc. reflexivity.
Qed.

Lemma gallery_pipeline_undecodable (art_folder gallery_file : path) (w : world)
    (imgs : list image_entry) (bytes : str) :
  returned (find_all_images art_folder w) = Some imgs ->
  imgs <> [] ->
  lookup gallery_file (fs w) = Some (File bytes) ->
  valid_utf8 bytes = false ->
  gallery_pipeline art_folder gallery_file w
  = Raised UnicodeDecodeError
      (logged w [MsgGalleryStage; MsgFoundImages (List.length imgs);
                 MsgGeneratingGallery; MsgUpdating gallery_file]).
Proof.
  intros R NE L V. rewrite (gallery_pipeline_found _ _ _ _ R NE).
  set (w1 := logged w _).
  unfold bind. rewrite (update_undecodable w1 _ bytes _ _ _ L V). reflexivity.
Qed.

Lemma collections_pipeline_refused (art_folder collections_file : path) (w : world)
    (colls : collection_map) :
  returned (find_collections art_folder w) = Some colls ->
  colls <> [] ->
  (lookup collections_file (fs w) = None \/
   exists bytes,
     lookup collections_file (fs w) = Some (File bytes) /\ valid_utf8 bytes = true /\
     (~ occurs COLLECTIONS_START (universal_newlines bytes) \/
      ~ occurs COLLECTIONS_END (universal_newlines bytes))) ->
  exists log,
    collections_pipeline art_folder collections_file w = Done tt (logged w log) /\
    In MsgCollectionsFailed log.
Proof.
  intros R NE C. rewrite (collections_pipeline_found _ _ _ _ R NE).
  set (w1 := logged w _).
  destruct (update_refused w1 collections_file (generate_collections_html colls)
              COLLECTIONS_START COLLECTIONS_END C) as (log & K).
  unfold bind. rewrite K, print_run. unfold w1. rewrite !logged_logged.
  eexists. split; [reflexivity | in_log].
Qed.

Lemma collections_pipeline_accepted (art_folder collections_file : path) (w : world)
    (colls : collection_map) (bytes : str) :
  returned (find_collections art_folder w) = Some colls ->
  colls <> [] ->
  lookup collections_file (fs w) = Some (File bytes) ->
  valid_utf8 bytes = true ->
  contains COLLECTIONS_START (universal_newlines bytes) = true ->
  contains COLLECTIONS_END (universal_newlines bytes) = true ->
  valid_utf8 (new_file_content (universal_newlines bytes)
                (generate_collections_html colls)
                COLLECTIONS_START COLLECTIONS_END) = true ->
  exists log,
    collections_pipeline art_folder collections_file w
    = Done tt
        (World (store collections_file
                  (new_file_content (universal_newlines bytes)
                     (generate_collections_html colls)
                     COLLECTIONS_START COLLECTIONS_END) (fs w))
           (cwd w) (stdout w ++ log)) /\
    In (MsgCollectionsUpdated (List.length colls)) log.
Proof.
  intros R NE L V Cs Ce E. rewrite (collections_pipeline_found _ _ _ _ R NE).
  set (w1 := logged w _).
  unfold bind. rewrite (update_accepted w1 _ bytes _ _ _ L V Cs Ce E).
  rewrite print_run. unfold w1, logged. simpl. rewrite <- !app_assoc.
  eexists. split; [reflexivity | in_log].
Qed.

(** ** A failing update stays local, an exception does not *)

(** C7, as stated, fails.  The gallery page of this site exists and has no
    end marker, and the collections page has both of its markers; but the
    gallery page is not UTF-8, so reading it raises, the splicer returns
    nothing, and the run ends before the collections pipeline has started:
    the collections page is not updated. *)
Lemma failed_update_blocks_the_other :
  lookup Demo.gallery_file (fs Demo.raw_world) = Some (File Demo.raw_open) /\
  ~ occurs GALLERY_END Demo.raw_open /\
  lookup Demo.collections_file (fs Demo.raw_world)
  = Some (File Demo.collections_page) /\
  occurs COLLECTIONS_START Demo.collections_page /\
  occurs COLLECTIONS_END Demo.collections_page /\
  (forall x, returned (update_file_content Demo.gallery_file x
                         GALLERY_START GALLERY_END Demo.raw_world) = None) /\
  exists w',
    main Demo.site Demo.raw_world = Raised UnicodeDecodeError w' /\
    ~ In MsgCollectionsStage (stdout w') /\
    lookup Demo.collections_file (fs w') = Some (File Demo.collections_page).
Proof.
  split; [reflexivity|].
  split; [intros O; apply contains_occurs in O; discriminate|].
  split; [reflexivity|].
  split; [apply contains_occurs; reflexivity|].
  split; [apply contains_occurs; reflexivity|].
  split.
  - intros x.
    rewrite (update_undecodable Demo.raw_world Demo.gallery_file Demo.raw_open);
      reflexivity.
  - eexists. split; [vm_compute; reflexivity|].
    split; [|reflexivity].
    simpl. intros I. repeat (destruct I as [I | I]; [discriminate I|]). exact I.
Qed.

(** C7, as amended.  Both scans find something.  When the update of one
    page is refused, because the page is missing or can be read and lacks a
    marker, while the other page can be read, has both of its markers and
    gets a text that can be encoded: the run completes, reports the failed
    update, leaves the refused page as it was and rewrites the other page,
    and nothing but that page changes.  This holds with the gallery page
    refused and with the collections page refused.  When the gallery page
    cannot be decoded, the run ends with the exception before the
    collections pipeline has started, and no file has changed. *)
Theorem failed_update_is_local
    (script_dir : path) (w : world) (imgs : list image_entry)
    (colls : collection_map) :
  returned (find_all_images (script_dir ++ ART_FOLDER) w) = Some imgs ->
  imgs <> [] ->
  returned (find_collections (script_dir ++ ART_FOLDER) w) = Some colls ->
  colls <> [] ->
  (forall collections : str,
     (lookup (script_dir ++ GALLERY_HTML) (fs w) = None \/
      exists gallery,
        lookup (script_dir ++ GALLERY_HTML) (fs w) = Some (File gallery) /\
        valid_utf8 gallery = true /\
        (~ occurs GALLERY_START (universal_newlines gallery) \/
         ~ occurs GALLERY_END (universal_newlines gallery))) ->
     lookup (script_dir ++ COLLECTIONS_HTML) (fs w) = Some (File collections) ->
     valid_utf8 collections = true ->
     occurs COLLECTIONS_START (universal_newlines collections) ->
     occurs COLLECTIONS_END (universal_newlines collections) ->
     valid_utf8 (new_file_content (universal_newlines collections)
                   (generate_collections_html colls)
                   COLLECTIONS_START COLLECTIONS_END) = true ->
     exists w' log,
       main script_dir w = Done tt w' /\
       stdout w' = stdout w ++ log /\
       In MsgGalleryFailed log /\
       In (MsgCollectionsUpdated (List.length colls)) log /\
       fs w' = store (script_dir ++ COLLECTIONS_HTML)
                 (new_file_content (universal_newlines collections)
                    (generate_collections_html colls)
                    COLLECTIONS_START COLLECTIONS_END) (fs w) /\
       lookup (script_dir ++ GALLERY_HTML) (fs w')
       = lookup (script_dir ++ GALLERY_HTML) (fs w) /\
       lookup (script_dir ++ COLLECTIONS_HTML) (fs w')
       = Some (File (new_file_content (universal_newlines collections)
                       (generate_collections_html colls)
                       COLLECTIONS_START COLLECTIONS_END))) /\
  (forall gallery : str,
     (lookup (script_dir ++ COLLECTIONS_HTML) (fs w) = None \/
      exists collections,
        lookup (script_dir ++ COLLECTIONS_HTML) (fs w) = Some (File collections) /\
        valid_utf8 collections = true /\
        (~ occurs COLLECTIONS_START (universal_newlines collections) \/
         ~ occurs COLLECTIONS_END (universal_newlines collections))) ->
     lookup (script_dir ++ GALLERY_HTML) (fs w) = Some (File gallery) ->
     valid_utf8 gallery = true ->
     occurs GALLERY_START (universal_newlines gallery) ->
     occurs GALLERY_END (universal_newlines gallery) ->
     valid_utf8 (new_file_content (universal_newlines gallery)
                   (generate_gallery_html imgs)
                   GALLERY_START GALLERY_END) = true ->
     exists w' log,
       main script_dir w = Done tt w' /\
       stdout w' = stdout w ++ log /\
       In (MsgGalleryUpdated (List.length imgs)) log /\
       In MsgCollectionsFailed log /\
       fs w' = store (script_dir ++ GALLERY_HTML)
                 (new_file_content (universal_newlines gallery)
                    (generate_gallery_html imgs)
                    GALLERY_START GALLERY_END) (fs w) /\
       lookup (script_dir ++ GALLERY_HTML) (fs w')
       = Some (File (new_file_content (universal_newlines gallery)
                       (generate_gallery_html imgs)
                       GALLERY_START GALLERY_END)) /\
       lookup (script_dir ++ COLLECTIONS_HTML) (fs w')
       = lookup (script_dir ++ COLLECTIONS_HTML) (fs w)) /\
  (forall gallery : str,
     lookup (script_dir ++ GALLERY_HTML) (fs w) = Some (File gallery) ->
     valid_utf8 gallery = false ->
     exists log,
       main script_dir w = Raised UnicodeDecodeError (logged w log) /\
       ~ In MsgCollectionsStage log).
Proof.
  set (art := script_dir ++ ART_FOLDER).
  set (gf := script_dir ++ GALLERY_HTML).
  set (cf := script_dir ++ COLLECTIONS_HTML).
  intros Ri NEi Rc NEc.
  assert (D : gf <> cf) by apply pages_differ.
  rewrite main_run. fold art gf cf.
  set (w3 := logged w [MsgBanner; MsgRule; MsgScanning art]).
  assert (Ri3 : returned (find_all_images art w3) = Some imgs)
    by (unfold w3; rewrite find_all_images_logged; exact Ri).
  split; [|split].
  - intros collections Cg Lc Vc Os Oe Ec. apply contains_occurs in Os, Oe.
    destruct (gallery_pipeline_refused art gf w3 imgs Ri3 NEi Cg) as (lg & Kg & Ig).
    unfold bind at 1. rewrite Kg.
    unfold w3. rewrite logged_logged. set (w4 := logged w _).
    assert (Rc4 : returned (find_collections art w4) = Some colls)
      by (unfold w4; rewrite find_collections_logged; exact Rc).
    destruct (collections_pipeline_accepted art cf w4 colls collections
                Rc4 NEc Lc Vc Os Oe Ec) as (log & K & I).
    unfold bind at 1. rewrite K, bind_print, print_run.
    eexists. eexists. split; [reflexivity|].
    split; [unfold w4, logged; simpl; rewrite <- !app_assoc; reflexivity|].
    split; [in_log|]. split; [in_log|].
    split; [reflexivity|]. simpl.
    rewrite lookup_store_same, lookup_store_other by congruence. auto.
  - intros gallery Cc Lg Vg Os Oe Eg. apply contains_occurs in Os, Oe.
    unfold bind at 1.
    rewrite (gallery_pipeline_accepted art gf w3 imgs gallery Ri3 NEi Lg Vg Os Oe Eg).
    set (w4 := World _ _ _).
    assert (Rc4 : returned (find_collections art w4) = Some colls).
    { rewrite <- Rc. symmetry. apply find_collections_alike; [|reflexivity].
      exact (store_alike _ _ _ _ Lg). }
    assert (Lc4 : lookup cf (fs w4) = lookup cf (fs w))
      by (simpl; apply lookup_store_other; exact D).
    rewrite <- Lc4 in Cc.
    destruct (collections_pipeline_refused art cf w4 colls Rc4 NEc Cc)
      as (log & K & I).
    unfold bind at 1. rewrite K, bind_print, print_run.
    eexists. eexists. split; [reflexivity|].
    split; [unfold w4, logged; simpl; rewrite <- !app_assoc; reflexivity|].
    split; [in_log|]. split; [in_log|].
    split; [reflexivity|]. simpl.
    rewrite lookup_store_same, lookup_store_other by exact D. auto.
  - intros gallery Lg Vg. unfold bind at 1.
    rewrite (gallery_pipeline_undecodable art gf w3 imgs gallery Ri3 NEi Lg Vg).
    unfold w3. rewrite logged_logged. eexists. split; [reflexivity|].
    simpl. intros I. repeat (destruct I as [I | I]; [discriminate I|]). exact I.
Qed.

(** ** The rendered sections *)

Lemma occurs_refl (x : str) : occurs x x.
Proof. exists [], []. rewrite app_nil_r. reflexivity. Qed.

Lemma occurs_app_l (x a b : str) : occurs x a -> occurs x (a ++ b).
Proof.
  intros (pre & post & ->). exists pre, (post ++ b).
  rewrite <- !app_assoc. reflexivity.
Qed.

Lemma occurs_app_r (x a b : str) : occurs x b -> occurs x (a ++ b).
Proof.
  intros (pre & post & ->). exists (a ++ pre), post.
  rewrite <- !app_assoc. reflexivity.
Qed.

Lemma occurs_prefix (x rest : str) : occurs x (x ++ rest).
Proof. apply occurs_app_l, occurs_refl. Qed.

Lemma occurs_join (sep x : str) (l : list str) : In x l -> occurs x (join sep l).
Proof.
  induction l as [|y l IH]; [contradiction|].
  intros [-> | I].
  - destruct l; [apply occurs_refl | apply occurs_prefix].
  - destruct l as [|z l]; [contradiction|].
    rewrite join_cons. apply occurs_app_r, occurs_app_r, IH. exact I.
Qed.

Lemma html_sections_in (collections : collection_map) (collection_name : str)
    (images : list image_entry) :
  In (collection_name, images) collections -> images <> [] ->
  In (render_collection collection_name images) (html_sections collections).
Proof.
  intros I NE. induction collections as [|[k vs] rest IH]; [contradiction|].
  destruct I as [E | I].
  - injection E as -> ->. destruct images; [congruence | left; reflexivity].
  - simpl. destruct vs; [|right]; apply IH; exact I.
Qed.

(** Find a piece among the pieces a text is appended from. *)
Ltac among_pieces :=
  solve [ apply occurs_prefix
        | apply occurs_refl
        | apply occurs_app_r; among_pieces ].

Ltac among_pieces_with H :=
  solve [ apply occurs_app_l; exact H
        | apply occurs_app_r; among_pieces_with H ].

(** C8. A collection with at least one image is rendered as a section of
    the output.  The section carries the name as it is in its
    [data-collection] attribute, in the [data-carousel] attribute of both
    buttons and, after [carousel-], in the [id] of the scroll track; its
    heading is the name with underscores and hyphens turned into spaces, in
    title case.  [my_collection-1] is headed "My Collection 1". *)
Theorem collection_section_identifiers
    (collections : collection_map) (collection_name : str)
    (images : list image_entry) :
  In (collection_name, images) collections ->
  images <> [] ->
  ascii_only collection_name = true ->
  occurs (render_collection collection_name images)
    (generate_collections_html collections) /\
  occurs (lit "<section class=" ++ quoted (lit "collection-section")
            ++ lit " data-collection=" ++ quoted collection_name ++ lit ">")
    (render_collection collection_name images) /\
  occurs (lit "<button class=" ++ quoted (lit "carousel-btn prev")
            ++ lit " data-carousel=" ++ quoted collection_name ++ lit ">")
    (render_collection collection_name images) /\
  occurs (lit "<button class=" ++ quoted (lit "carousel-btn next")
            ++ lit " data-carousel=" ++ quoted collection_name ++ lit ">")
    (render_collection collection_name images) /\
  occurs (lit "<div class=" ++ quoted (lit "collection-carousel")
            ++ lit " id=" ++ quoted (lit "carousel-" ++ collection_name) ++ lit ">")
    (render_collection collection_name images) /\
  occurs (lit "<h2>" ++ title (spaced collection_name) ++ lit "</h2>")
    (render_collection collection_name images) /\
  title (spaced (lit "my_collection-1")) = lit "My Collection 1".
Proof.
  intros I NE _.
  assert (B : forall which label,
            occurs (lit "<button class=" ++ quoted (lit "carousel-btn " ++ which)
                      ++ lit " data-carousel=" ++ quoted collection_name ++ lit ">")
              (button_tag which collection_name label)).
  { intros which label. eexists [], _. unfold button_tag.
    rewrite <- !app_assoc. reflexivity. }
  split; [apply occurs_join, html_sections_in; assumption|].
  unfold render_collection, section_html.
  split; [among_pieces|].
  split; [among_pieces_with (B (lit "prev") prev_label)|].
  split; [among_pieces_with (B (lit "next") next_label)|].
  split; [among_pieces|].
  split; [among_pieces | reflexivity].
Qed.

(** ** Locators *)

(** Started in the directory of the script, the scan computes the
    locators from the directory of the page. *)
Lemma locator_from_script_dir (script_dir html file_path : path) :
  html <> [] ->
  fst (entry_for script_dir html file_path)
  = replace os_sep "/"%char
      (relpath [] file_path (parent (script_dir ++ html))).
Proof.
  intros NE. unfold entry_for, relpath, parent. simpl.
  rewrite removelast_app by exact NE. reflexivity.
Qed.

(** C5 fails when the script is started from another directory.  With the
    site in [/srv/site] and the script started in [/srv], the locator of
    [art/banner.png] is [../site/art/banner.png]; read in a page of
    [/srv/site/pages] it names [/srv/site/site/art/banner.png], which is not
    the file.  The path relative to the directory of the page is
    [../art/banner.png], which is what the scan gives when it is started in
    [/srv/site]. *)
Theorem locator_follows_working_directory :
  returned (find_all_images Demo.art Demo.elsewhere)
  = Some [(lit "../site/art/banner.png", lit "Banner");
          (lit "../site/art/landscapes/hill_1.jpg", lit "Hill 1")] /\
  returned (find_collections Demo.art Demo.elsewhere)
  = Some [(lit "landscapes", [(lit "../site/art/landscapes/hill_1.jpg", lit "Hill 1")])] /\
  resolve (parent Demo.gallery_file) (lit "../site/art/banner.png")
  = [lit "srv"; lit "site"; lit "site"; lit "art"; lit "banner.png"] /\
  resolve (parent Demo.gallery_file) (lit "../site/art/banner.png")
  <> Demo.art ++ [lit "banner.png"] /\
  relpath [] (Demo.art ++ [lit "banner.png"]) (parent Demo.gallery_file)
  = lit "../art/banner.png" /\
  resolve (parent Demo.gallery_file) (lit "../art/banner.png")
  = Demo.art ++ [lit "banner.png"] /\
  returned (find_all_images Demo.art Demo.start)
  = Some [(lit "../art/banner.png", lit "Banner");
          (lit "../art/landscapes/hill_1.jpg", lit "Hill 1")].
Proof. repeat split; try reflexivity. discriminate. Qed.

(** ** The theorems at work on the small site *)

Lemma update_file_content_splices_witness :
  lookup Demo.gallery_file (fs Demo.crlf_world) = Some (File Demo.crlf_page) /\
  valid_utf8 Demo.crlf_page = true /\
  universal_newlines Demo.crlf_page = Demo.gallery_page /\
  valid_utf8 GALLERY_START = true /\
  valid_utf8 GALLERY_END = true /\
  first_at GALLERY_START Demo.gallery_page 7 /\
  first_at GALLERY_END Demo.gallery_page 45 /\
  7 + List.length GALLERY_START <= 45 /\
  exists w',
    update_file_content Demo.gallery_file (lit "new items")
      GALLERY_START GALLERY_END Demo.crlf_world = Done true w' /\
    lookup Demo.gallery_file (fs w')
    = Some (File (lit "<main>" ++ [nl] ++ GALLERY_START ++ [nl] ++ lit "new items"
                    ++ [nl] ++ lit "        " ++ GALLERY_END ++ [nl] ++ lit "</main>")).
Proof.
  assert (H1 : lookup Demo.gallery_file (fs Demo.crlf_world)
               = Some (File Demo.crlf_page)) by reflexivity.
  assert (H2 : valid_utf8 Demo.crlf_page = true) by reflexivity.
  assert (H3 : universal_newlines Demo.crlf_page = Demo.gallery_page) by reflexivity.
  assert (H4 : valid_utf8 GALLERY_START = true) by reflexivity.
  assert (H5 : valid_utf8 GALLERY_END = true) by reflexivity.
  assert (H6 : first_at GALLERY_START Demo.gallery_page 7)
    by (apply find_index_first; reflexivity).
  assert (H7 : first_at GALLERY_END Demo.gallery_page 45)
    by (apply find_index_first; reflexivity).
  assert (H8 : 7 + List.length GALLERY_START <= 45) by (simpl; lia).
  repeat (split; [assumption|]).
  destruct (update_file_content_splices Demo.crlf_world Demo.gallery_file
              Demo.crlf_page Demo.gallery_page (lit "new items")
              GALLERY_START GALLERY_END 7 45
              H1 H2 H3 H4 H5 H6 H7 H8 eq_refl) as (w' & between & R & L & _).
  exists w'. split; [exact R | exact L].
Defined.

Lemma update_file_content_outcome_witness :
  valid_utf8 GALLERY_START = true /\
  valid_utf8 GALLERY_END = true /\
  returned (update_file_content Demo.gallery_file (lit "new items")
              GALLERY_START GALLERY_END Demo.start) = Some true.
Proof.
  assert (H1 : valid_utf8 GALLERY_START = true) by reflexivity.
  assert (H2 : valid_utf8 GALLERY_END = true) by reflexivity.
  repeat (split; [assumption|]).
  pose proof (update_file_content_outcome Demo.start Demo.gallery_file
                (lit "new items") GALLERY_START GALLERY_END H1 H2) as H.
  cbv zeta in H. destruct H as (_ & _ & T & _).
  apply T. exists Demo.gallery_page.
  split; [reflexivity|]. split; [reflexivity|].
  split; [apply contains_occurs; reflexivity|].
  split; [apply contains_occurs; reflexivity | reflexivity].
Defined.

Lemma collection_section_identifiers_witness :
  In (lit "my_collection-1", [(lit "../art/my_collection-1/a.png", lit "A")])
    Demo.one_collection /\
  [(lit "../art/my_collection-1/a.png", lit "A")] <> [] /\
  ascii_only (lit "my_collection-1") = true /\
  occurs (lit "<section class=" ++ quoted (lit "collection-section")
            ++ lit " data-collection=" ++ quoted (lit "my_collection-1") ++ lit ">")
    (generate_collections_html Demo.one_collection) /\
  occurs (lit "<h2>My Collection 1</h2>")
    (generate_collections_html Demo.one_collection).
Proof.
  assert (H1 : In (lit "my_collection-1",
                   [(lit "../art/my_collection-1/a.png", lit "A")])
                 Demo.one_collection) by (left; reflexivity).
  assert (H2 : [(lit "../art/my_collection-1/a.png", lit "A")] <> [])
    by discriminate.
  assert (H3 : ascii_only (lit "my_collection-1") = true) by reflexivity.
  repeat (split; [assumption|]).
  destruct (collection_section_identifiers Demo.one_collection
              (lit "my_collection-1") _ H1 H2 H3) as (_ & S & _ & _ & _ & H & _).
  split; [exact S | exact H].
Defined.

Lemma missing_art_folder_witness :
  lookup (Demo.site ++ ART_FOLDER) (fs Demo.bare) = None /\
  fs (final_world (main Demo.site Demo.bare)) = fs Demo.bare.
Proof.
  assert (H : lookup (Demo.site ++ ART_FOLDER) (fs Demo.bare) = None) by reflexivity.
  split; [exact H|].
  apply (missing_art_folder Demo.site Demo.bare H).
Defined.

Lemma empty_scan_leaves_page_witness :
  returned (find_all_images (Demo.site ++ ART_FOLDER) Demo.bare) = Some [] /\
  untouched (Demo.site ++ GALLERY_HTML) Demo.bare
    (final_world (main Demo.site Demo.bare)).
Proof.
  assert (H : returned (find_all_images (Demo.site ++ ART_FOLDER) Demo.bare) = Some [])
    by reflexivity.
  split; [exact H|].
  apply (proj1 (empty_scan_leaves_page Demo.site Demo.bare) H).
Defined.

Lemma failed_update_is_local_witness :
  let w := World (Demo.files Demo.gallery_open Demo.collections_page) Demo.site [] in
  let imgs := [(lit "../art/banner.png", lit "Banner");
               (lit "../art/landscapes/hill_1.jpg", lit "Hill 1")] in
  let colls :=
    [(lit "landscapes", [(lit "../art/landscapes/hill_1.jpg", lit "Hill 1")])] in
  returned (find_all_images (Demo.site ++ ART_FOLDER) w) = Some imgs /\
  imgs <> [] /\
  returned (find_collections (Demo.site ++ ART_FOLDER) w) = Some colls /\
  colls <> [] /\
  exists w',
    main Demo.site w = Done tt w' /\
    lookup (Demo.site ++ GALLERY_HTML) (fs w') = Some (File Demo.gallery_open) /\
    In MsgGalleryFailed (stdout w') /\
    In (MsgCollectionsUpdated 1) (stdout w').
Proof.
  intros w imgs colls.
  assert (H1 : returned (find_all_images (Demo.site ++ ART_FOLDER) w) = Some imgs)
    by reflexivity.
  assert (H2 : imgs <> []) by discriminate.
  assert (H3 : returned (find_collections (Demo.site ++ ART_FOLDER) w) = Some colls)
    by reflexivity.
  assert (H4 : colls <> []) by discriminate.
  repeat (split; [assumption|]).
  destruct (failed_update_is_local Demo.site w imgs colls H1 H2 H3 H4) as [P _].
  destruct (P Demo.collections_page) as (w' & log & R & S & I1 & I2 & _ & L & _).
  - right. exists Demo.gallery_open.
    split; [reflexivity|]. split; [reflexivity|].
    right. intros O. apply contains_occurs in O. discriminate O.
  - reflexivity.
  - reflexivity.
  - apply contains_occurs. reflexivity.
  - apply contains_occurs. reflexivity.
  - reflexivity.
  - exists w'. split; [exact R|]. split; [rewrite L; reflexivity|].
    rewrite S. split; exact I1 || exact I2.
Defined.

(* ================================================================== *)
(** * Further properties of the scanner and the grouper *)

Lemma below_split (d p : path) :
  below d p = true <-> exists rest, rest <> [] /\ p = d ++ rest.
Proof.
  revert p; induction d as [|x d IH]; intros p; simpl.
  - destruct p as [|y p]; split.
    + discriminate.
    + intros (rest & NE & E). subst rest. congruence.
    + intros _. exists (y :: p). split; [discriminate | reflexivity].
    + reflexivity.
  - destruct p as [|y p]; split.
    + discriminate.
    + intros (rest & _ & E). discriminate E.
    + intros H. apply andb_true_iff in H as [Hx Hr].
      apply str_eqb_eq in Hx. subst y.
      apply IH in Hr as (rest & NE & ->). exists rest. split; [exact NE | reflexivity].
    + intros (rest & NE & E). injection E as -> ->.
      rewrite str_eqb_refl. simpl. apply IH. exists rest. split; [exact NE | reflexivity].
Qed.

Lemma child_of_app (d : path) (n : str) : child_of d (d ++ [n]) = true.
Proof.
  induction d as [|x d IH]; simpl; [reflexivity|].
  rewrite str_eqb_refl. exact IH.
Qed.

Lemma name_app (d : path) (n : str) : name (d ++ [n]) = n.
Proof. unfold name. apply last_last. Qed.

Lemma lookup_listed (t : tree) (p : path) (n : node) :
  lookup p t = Some n -> In p (map fst t).
Proof.
  intros L. apply lookup_some_in in L.
  apply in_map_iff. exists (p, n). split; [reflexivity | exact L].
Qed.

Lemma is_file_listed (t : tree) (p : path) : is_file t p = true -> In p (map fst t).
Proof.
  unfold is_file. destruct (lookup p t) as [n|] eqn:L; [|discriminate].
  intros _. exact (lookup_listed _ _ _ L).
Qed.

Lemma image_files_in (t : tree) (folder p : path) :
  is_dir t folder = true ->
  (In p (image_files t folder)
   <-> below folder p = true /\ is_file t p = true
       /\ supported (lower (suffix p)) = true).
Proof.
  intros D. unfold image_files, rglob. rewrite D, filter_In. split.
  - intros [I Himg].
    apply (Permutation_in _ (sorted_perm _)), filter_In in I as [_ B].
    unfold is_image in Himg. apply andb_true_iff in Himg as [F S]. auto.
  - intros (B & F & S). split.
    + apply (Permutation_in _ (Permutation_sym (sorted_perm _))), filter_In.
      split; [exact (is_file_listed _ _ F) | exact B].
    + unfold is_image. rewrite F, S. reflexivity.
Qed.

Lemma image_files_nodup (t : tree) (folder : path) :
  NoDup (map fst t) -> NoDup (image_files t folder).
Proof.
  intros ND. unfold image_files, rglob. apply NoDup_filter.
  eapply Permutation_NoDup; [symmetry; apply sorted_perm|].
  destruct (is_dir t folder); [apply NoDup_filter; exact ND | constructor].
Qed.

(** X1. In an art folder that is a directory, the scanner returns one entry
    for each regular file that lies somewhere below the folder and whose
    suffix, in lower case, is one of the supported extensions: no other
    path is scanned (a directory never is, whatever its name), none is
    missed and none comes twice. *)
Theorem find_all_images_exact (w : world) (art_folder : path) :
  NoDup (map fst (fs w)) ->
  lookup art_folder (fs w) = Some Dir ->
  exists files,
    find_all_images art_folder w
    = Done (map (entry_for (cwd w) GALLERY_HTML) files) w /\
    NoDup files /\
    forall p,
      In p files <->
      (exists rest, rest <> [] /\ p = art_folder ++ rest) /\
      (exists content, lookup p (fs w) = Some (File content)) /\
      supported (lower (suffix p)) = true.
Proof.
  intros ND L. exists (image_files (fs w) art_folder).
  split; [rewrite find_all_images_run, L; reflexivity|].
  split; [apply image_files_nodup; exact ND|].
  intros p. rewrite image_files_in by (unfold is_dir; rewrite L; reflexivity).
  rewrite below_split. unfold is_file.
  assert (F : (match lookup p (fs w) with Some (File _) => true | _ => false end) = true
              <-> exists content, lookup p (fs w) = Some (File content)).
  { destruct (lookup p (fs w)) as [[|c]|]; split; try discriminate;
      try (intros [c' E]; discriminate E); eauto. }
  rewrite F. reflexivity.
Qed.

Lemma find_all_images_exact_witness :
  NoDup (map fst (fs Demo.start)) /\
  lookup Demo.art (fs Demo.start) = Some Dir /\
  exists files,
    find_all_images Demo.art Demo.start
    = Done (map (entry_for (cwd Demo.start) GALLERY_HTML) files) Demo.start /\
    NoDup files.
Proof.
  assert (ND : NoDup (map fst (fs Demo.start))) by distinct_paths.
  assert (L : lookup Demo.art (fs Demo.start) = Some Dir) by reflexivity.
  split; [exact ND|]. split; [exact L|].
  destruct (find_all_images_exact Demo.start Demo.art ND L) as (files & R & N & _).
  exists files. split; [exact R | exact N].
Defined.

Lemma collection_group_in (t : tree) (here sub : path) (n : str)
    (imgs : list image_entry) :
  In (n, imgs) (collection_group t here sub) <->
  is_dir t sub = true /\ n = name sub /\ imgs <> [] /\
  imgs = map (entry_for here COLLECTIONS_HTML) (image_files t sub).
Proof.
  unfold collection_group. destruct (is_dir t sub).
  - destruct (image_files t sub) as [|p ps]; simpl.
    + split; [contradiction | intros (_ & _ & NE & E); congruence].
    + split.
      * intros [E | []]. injection E as <- <-.
        repeat split; discriminate.
      * intros (_ & -> & _ & ->). left. reflexivity.
  - split; [contradiction | intros (D & _); discriminate D].
Qed.

(** X2. With the art folder a directory, the grouper returns a collection
    named [n] exactly when [n] is an entry of the art folder that is itself
    a directory and holds at least one image file somewhere below it; the
    collection then lists the entries of exactly those files.  A collection
    is never empty, and an image that lies in the art folder itself belongs
    to no collection. *)
Theorem find_collections_exact (w : world) (art_folder : path)
    (colls : collection_map) :
  NoDup (map fst (fs w)) ->
  lookup art_folder (fs w) = Some Dir ->
  returned (find_collections art_folder w) = Some colls ->
  forall n imgs,
    In (n, imgs) colls <->
    lookup (art_folder ++ [n]) (fs w) = Some Dir /\
    imgs <> [] /\
    imgs = map (entry_for (cwd w) COLLECTIONS_HTML)
             (image_files (fs w) (art_folder ++ [n])).
Proof.
  intros ND L R n imgs.
  rewrite (find_collections_groups art_folder w colls ND R), L.
  rewrite in_flat_map. split.
  - intros (sub & Hsub & I).
    apply (Permutation_in _ (sorted_perm _)), filter_In in Hsub as [_ C].
    apply collection_group_in in I as (D & -> & NE & E).
    rewrite <- (child_of_name _ _ C).
    split; [|split; assumption].
    unfold is_dir in D. destruct (lookup sub (fs w)) as [[|c]|]; congruence.
  - intros (D & NE & E). exists (art_folder ++ [n]). split.
    + apply (Permutation_in _ (Permutation_sym (sorted_perm _))), filter_In.
      split; [exact (lookup_listed _ _ _ D) | apply child_of_app].
    + apply collection_group_in. rewrite name_app.
      unfold is_dir. rewrite D. auto.
Qed.

Lemma find_collections_exact_witness :
  NoDup (map fst (fs Demo.start)) /\
  lookup Demo.art (fs Demo.start) = Some Dir /\
  returned (find_collections Demo.art Demo.start)
  = Some [(lit "landscapes", [(lit "../art/landscapes/hill_1.jpg", lit "Hill 1")])] /\
  lookup (Demo.art ++ [lit "landscapes"]) (fs Demo.start) = Some Dir.
Proof.
  assert (ND : NoDup (map fst (fs Demo.start))) by distinct_paths.
  assert (L : lookup Demo.art (fs Demo.start) = Some Dir) by reflexivity.
  assert (R : returned (find_collections Demo.art Demo.start)
              = Some [(lit "landscapes",
                       [(lit "../art/landscapes/hill_1.jpg", lit "Hill 1")])])
    by reflexivity.
  split; [exact ND|]. split; [exact L|]. split; [exact R|].
  apply (proj1 (find_collections_exact Demo.start Demo.art _ ND L R
                  (lit "landscapes")
                  [(lit "../art/landscapes/hill_1.jpg", lit "Hill 1")])).
  left. reflexivity.
Defined.

(** ** The keys of the mapping *)








(** X4. Whatever the grouper puts in a collection, the scanner has in the
    gallery too, with the same locator and the same label: both pages lie
    in the same directory, and a file below a subfolder lies below the art
    folder. *)
Theorem collections_within_gallery (w : world) (art_folder : path)
    (colls : collection_map) (all_images : list image_entry) :
  NoDup (map fst (fs w)) ->
  returned (find_collections art_folder w) = Some colls ->
  returned (find_all_images art_folder w) = Some all_images ->
  forall n imgs e, In (n, imgs) colls -> In e imgs -> In e all_images.
Proof.
  intros ND Rc Ri n imgs e I Ie.
  rewrite (find_collections_groups art_folder w colls ND Rc) in I.
  rewrite find_all_images_run in Ri.
  destruct (lookup art_folder (fs w)) as [[|c]|] eqn:L; try contradiction.
  simpl in Ri. injection Ri as <-.
  apply in_flat_map in I as (sub & Hsub & I).
  apply (Permutation_in _ (sorted_perm _)), filter_In in Hsub as [_ C].
  apply collection_group_in in I as (D & _ & _ & ->).
  apply in_map_iff in Ie as (p & <- & Ip).
  apply in_map_iff. exists p. split; [reflexivity|].
  apply (image_files_in _ _ _ D) in Ip as (B & F & S).
  apply image_files_in; [unfold is_dir; rewrite L; reflexivity|].
  split; [|split; assumption].
  apply below_split in B as (rest & NE & ->).
  rewrite (child_of_name _ _ C), <- app_assoc.
  apply below_split. exists ([name sub] ++ rest). split; [discriminate | reflexivity].
Qed.

Lemma collections_within_gallery_witness :
  NoDup (map fst (fs Demo.start)) /\
  In (lit "../art/landscapes/hill_1.jpg", lit "Hill 1")
    [(lit "../art/banner.png", lit "Banner");
     (lit "../art/landscapes/hill_1.jpg", lit "Hill 1")].
Proof.
  assert (ND : NoDup (map fst (fs Demo.start))) by distinct_paths.
  split; [exact ND|].
  apply (collections_within_gallery Demo.start Demo.art
           [(lit "landscapes", [(lit "../art/landscapes/hill_1.jpg", lit "Hill 1")])]
           _ ND eq_refl eq_refl (lit "landscapes")
           [(lit "../art/landscapes/hill_1.jpg", lit "Hill 1")]);
    left; reflexivity.
Defined.

(* ================================================================== *)
(** * Further properties of the generators *)

Lemma map_not_nil {A B} (f : A -> B) (l : list A) : l <> [] -> map f l <> [].
Proof. destruct l; [congruence | discriminate]. Qed.

Lemma join_app (sep : str) (a b : list str) :
  a <> [] -> b <> [] -> join sep (a ++ b) = join sep a ++ sep ++ join sep b.
Proof.
  intros Na Nb. induction a as [|x a IH]; [congruence|].
  destruct a as [|y a].
  - simpl. destruct b; [congruence | reflexivity].
  - change ((x :: y :: a) ++ b) with (x :: (y :: a) ++ b).
    change ((y :: a) ++ b) with (y :: a ++ b) at 1.
    rewrite join_cons. change (y :: a ++ b) with ((y :: a) ++ b).
    rewrite IH by discriminate.
    rewrite join_cons, <- !app_assoc. reflexivity.
Qed.

(** X5. The gallery markup of no image is the empty text and that of one
    image is its block; the markup of two lists put end to end is the
    markup of the first, a newline, and the markup of the second, so the
    blocks come in the order of the input with one newline between two of
    them and none around; and the block of every image of the input occurs
    in the output. *)
Theorem generate_gallery_html_blocks :
  generate_gallery_html [] = [] /\
  (forall e, generate_gallery_html [e] = item_html (fst e) (snd e)) /\
  (forall a b : list image_entry,
     a <> [] -> b <> [] ->
     generate_gallery_html (a ++ b)
     = generate_gallery_html a ++ [nl] ++ generate_gallery_html b) /\
  (forall images e,
     In e images ->
     occurs (lit "<img src=" ++ quoted (fst e) ++ lit " alt=" ++ quoted (snd e) ++ lit ">")
       (generate_gallery_html images)).
Proof.
  split; [reflexivity|]. split; [reflexivity|]. split.
  - intros a b Na Nb. unfold generate_gallery_html. rewrite map_app.
    apply join_app; apply map_not_nil; assumption.
  - intros images e I. unfold generate_gallery_html.
    destruct (occurs_join [nl] (item_html (fst e) (snd e))
                (map (fun e => item_html (fst e) (snd e)) images))
      as (pre & post & E).
    { apply in_map_iff. exists e. split; [reflexivity | exact I]. }
    rewrite E. apply occurs_app_r, occurs_app_l.
    exists (sp 8 ++ lit "<div class=" ++ quoted (lit "gallery-grid-item")
              ++ lit ">" ++ [nl] ++ sp 12),
           ([nl] ++ sp 8 ++ lit "</div>").
    unfold item_html, quoted. repeat rewrite <- app_assoc. reflexivity.
Qed.

Lemma generate_gallery_html_blocks_witness :
  [(lit "a.png", lit "A")] <> [] /\
  [(lit "b.png", lit "B")] <> [] /\
  generate_gallery_html [(lit "a.png", lit "A"); (lit "b.png", lit "B")]
  = generate_gallery_html [(lit "a.png", lit "A")] ++ [nl]
      ++ generate_gallery_html [(lit "b.png", lit "B")].
Proof.
  assert (Na : [(lit "a.png", lit "A")] <> []) by discriminate.
  assert (Nb : [(lit "b.png", lit "B")] <> []) by discriminate.
  split; [exact Na|]. split; [exact Nb|].
  apply (proj1 (proj2 (proj2 generate_gallery_html_blocks))
           [(lit "a.png", lit "A")] [(lit "b.png", lit "B")] Na Nb).
Defined.

Lemma html_sections_filter (collections : collection_map) :
  html_sections collections
  = map (fun kv => render_collection (fst kv) (snd kv))
      (filter (fun kv => match snd kv with [] => false | _ => true end) collections).
Proof.
  induction collections as [|[k vs] rest IH]; simpl; [reflexivity|].
  destruct vs; simpl; rewrite IH; reflexivity.
Qed.

Lemma filter_all {A} (f : A -> bool) (l : list A) :
  (forall x, In x l -> f x = true) -> filter f l = l.
Proof.
  induction l as [|x l IH]; simpl; intros H; [reflexivity|].
  rewrite (H x (or_introl eq_refl)), IH; [reflexivity|].
  intros y Hy. apply H. right. exact Hy.
Qed.

(** X6. The collections markup has one section for each collection whose
    list is not empty, in the order of the mapping, and nothing for a
    collection whose list is empty; for the mapping the grouper returns no
    collection is passed over, so the sections and the collections match
    one to one. *)
Theorem generate_collections_html_sections (w : world) (art_folder : path) :
  (forall collections,
     generate_collections_html collections
     = join [nl]
         (map (fun kv => render_collection (fst kv) (snd kv))
            (filter (fun kv => match snd kv with [] => false | _ => true end)
               collections))) /\
  (forall colls,
     NoDup (map fst (fs w)) ->
     returned (find_collections art_folder w) = Some colls ->
     html_sections colls = map (fun kv => render_collection (fst kv) (snd kv)) colls).
Proof.
  split.
  - intros collections. unfold generate_collections_html.
    rewrite html_sections_filter. reflexivity.
  - intros colls ND R. rewrite html_sections_filter. f_equal.
    apply filter_all. intros [n imgs] I.
    rewrite (find_collections_groups art_folder w colls ND R) in I.
    apply in_flat_map in I as (sub & _ & I).
    apply collection_group_in in I as (_ & _ & NE & _).
    simpl. destruct imgs; [congruence | reflexivity].
Qed.

Lemma generate_collections_html_sections_witness :
  NoDup (map fst (fs Demo.start)) /\
  html_sections [(lit "landscapes", [(lit "../art/landscapes/hill_1.jpg", lit "Hill 1")])]
  = [render_collection (lit "landscapes")
       [(lit "../art/landscapes/hill_1.jpg", lit "Hill 1")]].
Proof.
  assert (ND : NoDup (map fst (fs Demo.start))) by distinct_paths.
  split; [exact ND|].
  apply (proj2 (generate_collections_html_sections Demo.start Demo.art) _ ND eq_refl).
Defined.

(** A text without some character of a marker has no occurrence of it. *)
Lemma occurs_has_chars (m s : str) (c : ascii) : In c m -> occurs m s -> In c s.
Proof.
  intros I (pre & post & ->). apply in_or_app. right. apply in_or_app. left. exact I.
Qed.

Lemma in_join (sep : str) (l : list str) (c : ascii) :
  In c (join sep l) -> In c sep \/ exists x, In x l /\ In c x.
Proof.
  induction l as [|x l IH]; [contradiction|].
  destruct l as [|y l].
  - simpl. intros I. right. exists x. split; [left; reflexivity | exact I].
  - rewrite join_cons. intros I. apply in_app_or in I as [I | I].
    + right. exists x. split; [left; reflexivity | exact I].
    + apply in_app_or in I as [I | I]; [left; exact I|].
      destruct (IH I) as [S | (z & Hz & Hc)]; [left; exact S|].
      right. exists z. split; [right; exact Hz | exact Hc].
Qed.

Lemma item_html_bang (img_path alt : str) :
  In "!"%char (item_html img_path alt) ->
  In "!"%char img_path \/ In "!"%char alt.
Proof.
  unfold item_html, quoted, sp. intros I.
  rewrite !in_app_iff in I. simpl in I.
  intuition discriminate.
Qed.

(** X7. When no locator and no label of the input holds an exclamation
    mark, neither gallery marker occurs in the gallery markup: the blocks
    themselves bring none. *)
Theorem generate_gallery_html_no_marker (images : list image_entry) :
  (forall e, In e images -> ~ In "!"%char (fst e) /\ ~ In "!"%char (snd e)) ->
  ~ occurs GALLERY_START (generate_gallery_html images) /\
  ~ occurs GALLERY_END (generate_gallery_html images).
Proof.
  intros H.
  assert (N : ~ In "!"%char (generate_gallery_html images)).
  { intros I. apply in_join in I as [I | (x & Hx & I)].
    - destruct I as [I | []]. discriminate I.
    - apply in_map_iff in Hx as (e & <- & He).
      destruct (H e He) as [N1 N2].
      apply item_html_bang in I as [I | I]; contradiction. }
  split; intros O; apply N; apply (occurs_has_chars _ _ "!"%char) in O;
    try exact O; right; left; reflexivity.
Qed.

Lemma generate_gallery_html_no_marker_witness :
  (forall e, In e [(lit "../art/banner.png", lit "Banner")] ->
             ~ In "!"%char (fst e) /\ ~ In "!"%char (snd e)) /\
  ~ occurs GALLERY_END (generate_gallery_html [(lit "../art/banner.png", lit "Banner")]).
Proof.
  assert (H : forall e, In e [(lit "../art/banner.png", lit "Banner")] ->
                        ~ In "!"%char (fst e) /\ ~ In "!"%char (snd e)).
  { intros e [<- | []]. split; simpl; intros I;
      repeat (destruct I as [I | I]; [discriminate I|]); exact I. }
  split; [exact H|].
  apply (generate_gallery_html_no_marker _ H).
Defined.

(* ================================================================== *)
(** * Further properties of the splicer *)

(** X8. The last update wins.  Take a page that can be read, in whose text
    the first start marker ends before the first end marker begins, with an
    end marker that has no newline and no leading space.  After an update
    with a content [x] free of the end marker, whose rewritten text can be
    encoded, an update with any content [y] has the outcome, and leaves the
    machine in the state, of the update with [y] alone.  Markup of earlier
    runs does not pile up. *)
Theorem update_file_content_last_wins
    (w : world) (file_path : path) (bytes text x y sm em : str) (i j : nat) :
  plain_marker em = true ->
  valid_utf8 sm = true ->
  valid_utf8 em = true ->
  lookup file_path (fs w) = Some (File bytes) ->
  valid_utf8 bytes = true ->
  universal_newlines bytes = text ->
  first_at sm text i ->
  first_at em text j ->
  i + List.length sm <= j ->
  ~ occurs em x ->
  valid_utf8 (new_file_content text x sm em) = true ->
  exists w1,
    update_file_content file_path x sm em w = Done true w1 /\
    lookup file_path (fs w1) = Some (File (new_file_content text x sm em)) /\
    update_file_content file_path y sm em w1
    = update_file_content file_path y sm em w.
Proof.
  intros Hp _ _ L V T Hi Hj Hij Hx E. subst text.
  pose proof (universal_newlines_no_cr bytes) as Hc.
  pose proof (first_at_contains _ _ _ Hi) as Cs.
  pose proof (first_at_contains _ _ _ Hj) as Ce.
  destruct (new_file_content_reread _ x y sm em i j Hc Hp Hi Hj Hij Hx)
    as (Again & Os & Oe).
  set (c1 := new_file_content (universal_newlines bytes) x sm em) in *.
  set (w1 := World (store file_path c1 (fs w)) (cwd w) (stdout w)).
  assert (L1 : lookup file_path (fs w1) = Some (File c1))
    by apply lookup_store_same.
  exists w1. split; [exact (update_accepted _ _ _ _ _ _ L V Cs Ce E)|].
  split; [exact L1|].
  destruct (valid_utf8 (new_file_content (universal_newlines bytes) y sm em)) eqn:Ey.
  - rewrite (update_accepted _ _ _ _ _ _ L V Cs Ce Ey).
    rewrite (update_accepted w1 _ c1 y _ _ L1 E Os Oe) by (rewrite Again; exact Ey).
    rewrite Again. simpl. rewrite store_store. reflexivity.
  - rewrite (update_unencodable _ _ _ _ _ _ L V Cs Ce Ey).
    rewrite (update_unencodable w1 _ c1 y _ _ L1 E Os Oe) by (rewrite Again; exact Ey).
    simpl. rewrite store_store. reflexivity.
Qed.

Lemma update_file_content_last_wins_witness :
  plain_marker GALLERY_END = true /\
  valid_utf8 GALLERY_START = true /\
  valid_utf8 GALLERY_END = true /\
  lookup Demo.gallery_file (fs Demo.crlf_world) = Some (File Demo.crlf_page) /\
  valid_utf8 Demo.crlf_page = true /\
  universal_newlines Demo.crlf_page = Demo.gallery_page /\
  first_at GALLERY_START Demo.gallery_page 7 /\
  first_at GALLERY_END Demo.gallery_page 45 /\
  7 + List.length GALLERY_START <= 45 /\
  ~ occurs GALLERY_END (lit "first") /\
  valid_utf8 (new_file_content Demo.gallery_page (lit "first")
                GALLERY_START GALLERY_END) = true /\
  exists w1,
    update_file_content Demo.gallery_file (lit "first")
      GALLERY_START GALLERY_END Demo.crlf_world = Done true w1 /\
    update_file_content Demo.gallery_file (lit "second")
      GALLERY_START GALLERY_END w1
    = update_file_content Demo.gallery_file (lit "second")
        GALLERY_START GALLERY_END Demo.crlf_world.
Proof.
  assert (H1 : plain_marker GALLERY_END = true) by reflexivity.
  assert (Hs : valid_utf8 GALLERY_START = true) by reflexivity.
  assert (He : valid_utf8 GALLERY_END = true) by reflexivity.
  assert (H2 : lookup Demo.gallery_file (fs Demo.crlf_world)
               = Some (File Demo.crlf_page)) by reflexivity.
  assert (Hv : valid_utf8 Demo.crlf_page = true) by reflexivity.
  assert (Ht : universal_newlines Demo.crlf_page = Demo.gallery_page) by reflexivity.
  assert (H3 : first_at GALLERY_START Demo.gallery_page 7)
    by (apply find_index_first; reflexivity).
  assert (H4 : first_at GALLERY_END Demo.gallery_page 45)
    by (apply find_index_first; reflexivity).
  assert (H5 : 7 + List.length GALLERY_START <= 45) by (simpl; lia).
  assert (H6 : ~ occurs GALLERY_END (lit "first"))
    by (intros O; apply contains_occurs in O; discriminate).
  assert (H7 : valid_utf8 (new_file_content Demo.gallery_page (lit "first")
                             GALLERY_START GALLERY_END) = true) by reflexivity.
  repeat (split; [assumption|]).
  destruct (update_file_content_last_wins Demo.crlf_world Demo.gallery_file
              Demo.crlf_page Demo.gallery_page (lit "first") (lit "second")
              GALLERY_START GALLERY_END 7 45 H1 Hs He H2 Hv Ht H3 H4 H5 H6 H7)
    as (w1 & R & _ & Same).
  exists w1. split; [exact R | exact Same].
Defined.

(** X9. What an update puts in can be found again.  Under the conditions
    of X8 the file holds, after the update, a text whose first start marker
    is where it was in the text of the page (the page as read, its line
    endings translated) and whose first end marker comes right after the
    inserted block: between the two lie exactly a newline, the content, a
    newline and eight spaces. *)
Theorem update_file_content_region
    (w : world) (file_path : path) (bytes text x sm em : str) (i j : nat) :
  plain_marker em = true ->
  valid_utf8 sm = true ->
  valid_utf8 em = true ->
  lookup file_path (fs w) = Some (File bytes) ->
  valid_utf8 bytes = true ->
  universal_newlines bytes = text ->
  first_at sm text i ->
  first_at em text j ->
  i + List.length sm <= j ->
  ~ occurs em x ->
  valid_utf8 (new_file_content text x sm em) = true ->
  exists w' stored,
    update_file_content file_path x sm em w = Done true w' /\
    lookup file_path (fs w') = Some (File stored) /\
    first_at sm stored i /\
    first_at em stored (i + List.length sm + 1 + List.length x + 9) /\
    firstn (1 + List.length x + 9) (skipn (i + List.length sm) stored)
    = [nl] ++ x ++ [nl] ++ lit "        ".
Proof.
  intros Hp _ _ L V T Hi Hj Hij Hx E. subst text.
  pose proof (first_at_contains _ _ _ Hi) as Cs.
  pose proof (first_at_contains _ _ _ Hj) as Ce.
  destruct (spliced_positions _ x sm em i j Hp Hi Hj Hij Hx) as (Eq & Hs & He).
  pose proof (first_at_bound _ _ _ Hi) as Bi.
  set (text := universal_newlines bytes) in *.
  eexists. exists (new_file_content text x sm em).
  split; [exact (update_accepted _ _ _ _ _ _ L V Cs Ce E)|].
  split; [apply lookup_store_same|].
  split; [exact Hs|]. split; [exact He|].
  rewrite Eq.
  assert (La : List.length (firstn i text ++ sm) = i + List.length sm)
    by (rewrite length_app, length_firstn; lia).
  rewrite <- La, skipn_app_ge, Nat.sub_diag by lia.
  simpl. f_equal. rewrite firstn_app, firstn_all2 by lia.
  replace (List.length x + 9 - List.length x) with 9 by lia.
  reflexivity.
Qed.

Lemma update_file_content_region_witness :
  plain_marker GALLERY_END = true /\
  valid_utf8 GALLERY_START = true /\
  valid_utf8 GALLERY_END = true /\
  lookup Demo.gallery_file (fs Demo.crlf_world) = Some (File Demo.crlf_page) /\
  valid_utf8 Demo.crlf_page = true /\
  universal_newlines Demo.crlf_page = Demo.gallery_page /\
  first_at GALLERY_START Demo.gallery_page 7 /\
  first_at GALLERY_END Demo.gallery_page 45 /\
  7 + List.length GALLERY_START <= 45 /\
  ~ occurs GALLERY_END (lit "new items") /\
  valid_utf8 (new_file_content Demo.gallery_page (lit "new items")
                GALLERY_START GALLERY_END) = true /\
  exists w' stored,
    update_file_content Demo.gallery_file (lit "new items")
      GALLERY_START GALLERY_END Demo.crlf_world = Done true w' /\
    lookup Demo.gallery_file (fs w') = Some (File stored) /\
    first_at GALLERY_END stored (7 + List.length GALLERY_START + 1 + 9 + 9).
Proof.
  assert (H1 : plain_marker GALLERY_END = true) by reflexivity.
  assert (Hs : valid_utf8 GALLERY_START = true) by reflexivity.
  assert (He : valid_utf8 GALLERY_END = true) by reflexivity.
  assert (H2 : lookup Demo.gallery_file (fs Demo.crlf_world)
               = Some (File Demo.crlf_page)) by reflexivity.
  assert (Hv : valid_utf8 Demo.crlf_page = true) by reflexivity.
  assert (Ht : universal_newlines Demo.crlf_page = Demo.gallery_page) by reflexivity.
  assert (H3 : first_at GALLERY_START Demo.gallery_page 7)
    by (apply find_index_first; reflexivity).
  assert (H4 : first_at GALLERY_END Demo.gallery_page 45)
    by (apply find_index_first; reflexivity).
  assert (H5 : 7 + List.length GALLERY_START <= 45) by (simpl; lia).
  assert (H6 : ~ occurs GALLERY_END (lit "new items"))
    by (intros O; apply contains_occurs in O; discriminate).
  assert (H7 : valid_utf8 (new_file_content Demo.gallery_page (lit "new items")
                             GALLERY_START GALLERY_END) = true) by reflexivity.
  repeat (split; [assumption|]).
  destruct (update_file_content_region Demo.crlf_world Demo.gallery_file
              Demo.crlf_page Demo.gallery_page (lit "new items")
              GALLERY_START GALLERY_END 7 45 H1 Hs He H2 Hv Ht H3 H4 H5 H6 H7)
    as (w' & stored & R & L & _ & E & _).
  exists w', stored. split; [exact R|]. split; [exact L | exact E].
Defined.

(** X10. An update that succeeded is not followed by a refusal.  Once the
    function has returned true for a file, the file can be read and its
    text holds both markers, whatever their order.  So a later call with the
    same file and markers does not return false: it returns true when the
    text it builds can be encoded, and raises [UnicodeEncodeError]
    otherwise. *)
Theorem update_file_content_repeatable
    (w w1 : world) (file_path : path) (x y sm em : str) :
  update_file_content file_path x sm em w = Done true w1 ->
  returned (update_file_content file_path y sm em w1) <> Some false /\
  exists stored,
    lookup file_path (fs w1) = Some (File stored) /\
    valid_utf8 stored = true /\
    occurs sm (universal_newlines stored) /\
    occurs em (universal_newlines stored) /\
    (valid_utf8 (new_file_content (universal_newlines stored) y sm em) = true ->
     exists w2, update_file_content file_path y sm em w1 = Done true w2) /\
    (valid_utf8 (new_file_content (universal_newlines stored) y sm em) = false ->
     exists w2,
       update_file_content file_path y sm em w1 = Raised UnicodeEncodeError w2).
Proof.
  intros R.
  destruct (update_cases w file_path x sm em)
    as [(L & K) | [(L & K) | [(b & L & V & K) | [(b & L & V & C & K)
       | [(b & L & V & Cs & Ce & E & K) | (b & L & V & Cs & Ce & E & K)]]]]];
    rewrite K in R; try discriminate R.
  injection R as <-.
  set (c1 := new_file_content (universal_newlines b) x sm em) in *.
  set (w1 := World (store file_path c1 (fs w)) (cwd w) (stdout w)).
  assert (L1 : lookup file_path (fs w1) = Some (File c1))
    by apply lookup_store_same.
  destruct (reread_occurs (universal_newlines b) x sm em
              (universal_newlines_no_cr b) Cs Ce) as [Os Oe].
  fold c1 in Os, Oe.
  assert (Yes : valid_utf8 (new_file_content (universal_newlines c1) y sm em) = true ->
                exists w2, update_file_content file_path y sm em w1 = Done true w2).
  { intros Ey. eexists. exact (update_accepted w1 _ c1 y _ _ L1 E Os Oe Ey). }
  assert (No : valid_utf8 (new_file_content (universal_newlines c1) y sm em) = false ->
               exists w2,
                 update_file_content file_path y sm em w1
                 = Raised UnicodeEncodeError w2).
  { intros Ey. eexists. exact (update_unencodable w1 _ c1 y _ _ L1 E Os Oe Ey). }
  split.
  - destruct (valid_utf8 (new_file_content (universal_newlines c1) y sm em)) eqn:Ey.
    + destruct (Yes eq_refl) as [w2 K2]. rewrite K2. discriminate.
    + destruct (No eq_refl) as [w2 K2]. rewrite K2. discriminate.
  - exists c1. split; [exact L1|]. split; [exact E|].
    split; [apply contains_occurs; exact Os|].
    split; [apply contains_occurs; exact Oe|].
    split; [exact Yes | exact No].
Qed.

Lemma update_file_content_repeatable_witness :
  exists w1 w2,
    update_file_content Demo.gallery_file (lit "first")
      GALLERY_START GALLERY_END Demo.start = Done true w1 /\
    update_file_content Demo.gallery_file (lit "second")
      GALLERY_START GALLERY_END w1 = Done true w2.
Proof.
  assert (R : update_file_content Demo.gallery_file (lit "first")
                GALLERY_START GALLERY_END Demo.start
              = Done true
                  (World (store Demo.gallery_file
                            (new_file_content Demo.gallery_page (lit "first")
                               GALLERY_START GALLERY_END) (fs Demo.start))
                     (cwd Demo.start) (stdout Demo.start)))
    by reflexivity.
  destruct (update_file_content_repeatable _ _ _ (lit "first") (lit "second") _ _ R)
    as (_ & stored & L & _ & _ & _ & Yes & _).
  injection L as <-.
  destruct (Yes eq_refl) as [w2 R2].
  eexists. exists w2. split; [exact R | exact R2].
Defined.

(** X11. Markers in the wrong order.  Take a page that can be read, in
    whose text the first end marker begins before the first start marker
    has ended.  When the text it builds can be encoded, the update still
    returns true and removes nothing: it keeps the whole text up to the end
    of the start marker, inserts the block, repeats the text from the end
    marker up to the end of the start marker and goes on with the rest.
    The text written is longer than the text read by the block and the
    repeated text. *)
Theorem update_file_content_reversed
    (w : world) (file_path : path) (bytes text x sm em : str) (i j : nat) :
  valid_utf8 sm = true ->
  valid_utf8 em = true ->
  lookup file_path (fs w) = Some (File bytes) ->
  valid_utf8 bytes = true ->
  universal_newlines bytes = text ->
  first_at sm text i ->
  first_at em text j ->
  j <= i + List.length sm ->
  valid_utf8 (new_file_content text x sm em) = true ->
  exists w' stored,
    update_file_content file_path x sm em w = Done true w' /\
    lookup file_path (fs w') = Some (File stored) /\
    stored = firstn (i + List.length sm) text
               ++ ([nl] ++ x ++ [nl] ++ lit "        "
                     ++ skipn j (firstn (i + List.length sm) text))
               ++ skipn (i + List.length sm) text /\
    List.length stored
    = List.length text + List.length x + 10 + (i + List.length sm - j).
Proof.
  intros _ _ L V T Hi Hj Hij Ev. subst text.
  set (text := universal_newlines bytes) in *.
  pose proof (first_at_find_index _ _ _ Hi) as Fi.
  pose proof (first_at_find_index _ _ _ Hj) as Fj.
  pose proof (first_at_bound _ _ _ Hi) as Bi.
  pose proof (first_at_contains _ _ _ Hi) as Cs.
  pose proof (first_at_contains _ _ _ Hj) as Ce.
  assert (E : new_file_content text x sm em
              = firstn (i + List.length sm) text
                  ++ ([nl] ++ x ++ [nl] ++ lit "        "
                        ++ skipn j (firstn (i + List.length sm) text))
                  ++ skipn (i + List.length sm) text).
  { rewrite (new_file_content_at _ x _ _ _ _ Fi Fj).
    rewrite <- (firstn_skipn (i + List.length sm) text) at 2.
    rewrite skipn_app_le by (rewrite length_firstn; lia).
    rewrite <- !app_assoc. reflexivity. }
  eexists. exists (new_file_content text x sm em).
  split; [exact (update_accepted _ _ _ _ _ _ L V Cs Ce Ev)|].
  split; [apply lookup_store_same|]. split; [exact E|].
  rewrite E. rewrite !length_app, length_skipn, length_skipn, length_firstn.
  simpl. lia.
Qed.

Lemma update_file_content_reversed_witness :
  let page := GALLERY_END ++ lit "old" ++ GALLERY_START in
  let w := World [(Demo.gallery_file, File page)] Demo.site [] in
  valid_utf8 GALLERY_START = true /\
  valid_utf8 GALLERY_END = true /\
  lookup Demo.gallery_file (fs w) = Some (File page) /\
  valid_utf8 page = true /\
  universal_newlines page = page /\
  first_at GALLERY_START page 30 /\
  first_at GALLERY_END page 0 /\
  0 <= 30 + List.length GALLERY_START /\
  valid_utf8 (new_file_content page (lit "new") GALLERY_START GALLERY_END) = true /\
  exists w' stored,
    update_file_content Demo.gallery_file (lit "new") GALLERY_START GALLERY_END w
    = Done true w' /\
    lookup Demo.gallery_file (fs w') = Some (File stored) /\
    List.length stored
    = List.length page + 3 + 10 + (30 + List.length GALLERY_START - 0).
Proof.
  intros page w.
  assert (Hs : valid_utf8 GALLERY_START = true) by reflexivity.
  assert (He : valid_utf8 GALLERY_END = true) by reflexivity.
  assert (H1 : lookup Demo.gallery_file (fs w) = Some (File page)) by reflexivity.
  assert (Hv : valid_utf8 page = true) by reflexivity.
  assert (Ht : universal_newlines page = page) by reflexivity.
  assert (H2 : first_at GALLERY_START page 30)
    by (apply find_index_first; reflexivity).
  assert (H3 : first_at GALLERY_END page 0)
    by (apply find_index_first; reflexivity).
  assert (H4 : 0 <= 30 + List.length GALLERY_START) by lia.
  assert (H5 : valid_utf8 (new_file_content page (lit "new")
                             GALLERY_START GALLERY_END) = true) by reflexivity.
  repeat (split; [assumption|]).
  destruct (update_file_content_reversed w Demo.gallery_file page page (lit "new")
              GALLERY_START GALLERY_END 30 0 Hs He H1 Hv Ht H2 H3 H4 H5)
    as (w' & stored & R & L & _ & Len).
  exists w', stored. split; [exact R|]. split; [exact L | exact Len].
Defined.

(* ================================================================== *)
(** * What a run leaves alone *)

Lemma same_files_refl (ps : list path) (w : world) : same_files_except ps w w.
Proof. repeat split; reflexivity. Qed.

Lemma same_files_trans (ps : list path) (w1 w2 w3 : world) :
  same_files_except ps w1 w2 -> same_files_except ps w2 w3 ->
  same_files_except ps w1 w3.
Proof.
  intros (C1 & M1 & K1 & F1) (C2 & M2 & K2 & F2).
  split; [congruence|]. split; [congruence|].
  split; [intros q; rewrite K2; apply K1|].
  intros q Hq. rewrite F2, F1 by exact Hq. reflexivity.
Qed.

Lemma same_files_logged (ps : list path) (w : world) (log : list message) :
  same_files_except ps w (logged w log).
Proof. repeat split; reflexivity. Qed.

Lemma same_files_weaken (ps qs : list path) (w w' : world) :
  (forall q, In q ps -> In q qs) ->
  same_files_except ps w w' -> same_files_except qs w w'.
Proof.
  intros S (C & M & K & F). repeat split; try assumption.
  intros q Hq. apply F. intros I. apply Hq, S, I.
Qed.

Lemma confined_bind {A B} (ps : list path) (m : M A) (k : A -> M B) :
  confined ps m -> (forall a, confined ps (k a)) -> confined ps (bind m k).
Proof.
  intros Hm Hk w. rewrite final_world_bind. specialize (Hm w).
  destruct (m w) as [a w1 | e w1]; simpl in Hm; [|exact Hm].
  exact (same_files_trans _ _ _ _ Hm (Hk a w1)).
Qed.

Lemma confined_ret {A} (ps : list path) (a : A) : confined ps (ret a).
Proof. intros w. apply same_files_refl. Qed.

Lemma confined_print (ps : list path) (m : message) : confined ps (print m).
Proof. intros w. apply (same_files_logged ps w [m]). Qed.

Lemma confined_weaken {A} (ps qs : list path) (m : M A) :
  (forall q, In q ps -> In q qs) -> confined ps m -> confined qs m.
Proof. intros S H w. exact (same_files_weaken _ _ _ _ S (H w)). Qed.

Lemma confined_update (p : path) (x sm em : str) :
  confined [p] (update_file_content p x sm em).
Proof.
  intros w.
  assert (Stored : forall c content,
             lookup p (fs w) = Some (File content) ->
             same_files_except [p] w (World (store p c (fs w)) (cwd w) (stdout w))).
  { intros c content L.
    split; [reflexivity|].
    split; [simpl; apply map_fst_store; congruence|].
    split; [intros q; symmetry; apply (store_alike _ _ _ _ L)|].
    intros q Hq. simpl. apply lookup_store_other.
    intros ->. apply Hq. left. reflexivity. }
  destruct (update_cases w p x sm em)
    as [(L & R) | [(L & R) | [(b & L & V & R) | [(b & L & V & C & R)
       | [(b & L & V & Cs & Ce & E & R) | (b & L & V & Cs & Ce & E & R)]]]]];
    rewrite R; simpl final_world.
  - apply (same_files_logged [p] w).
  - apply same_files_refl.
  - apply same_files_refl.
  - apply (same_files_logged [p] w).
  - exact (Stored _ _ L).
  - exact (Stored _ _ L).
Qed.

Lemma confined_find_all_images (ps : list path) (art_folder : path) :
  confined ps (find_all_images art_folder).
Proof.
  intros w. rewrite find_all_images_run.
  destruct (lookup art_folder (fs w)); simpl;
    [apply same_files_refl | apply same_files_logged].
Qed.

Lemma confined_find_collections (ps : list path) (art_folder : path) :
  confined ps (find_collections art_folder).
Proof.
  intros w. rewrite find_collections_run.
  destruct (lookup art_folder (fs w)) as [[|c]|]; simpl;
    try apply same_files_refl. apply same_files_logged.
Qed.

Lemma confined_for_each {A} (ps : list path) (l : list A) (body : A -> M unit) :
  (forall x, confined ps (body x)) -> confined ps (for_each l body).
Proof.
  intros H. induction l as [|x l IH]; simpl; [apply confined_ret|].
  apply confined_bind; [apply H | intros _; exact IH].
Qed.

Lemma confined_gallery_pipeline (art_folder gallery_file : path) :
  confined [gallery_file] (gallery_pipeline art_folder gallery_file).
Proof.
  unfold gallery_pipeline.
  apply confined_bind; [apply confined_print | intros _].
  apply confined_bind; [apply confined_find_all_images | intros imgs].
  destruct imgs as [|e imgs]; [apply confined_print|].
  do 3 (apply confined_bind; [apply confined_print | intros _]).
  apply confined_bind; [apply confined_update | intros ok].
  destruct ok; apply confined_print.
Qed.

Lemma confined_collections_pipeline (art_folder collections_file : path) :
  confined [collections_file] (collections_pipeline art_folder collections_file).
Proof.
  unfold collections_pipeline.
  apply confined_bind; [apply confined_print | intros _].
  apply confined_bind; [apply confined_find_collections | intros colls].
  destruct colls as [|kv colls]; [apply confined_print|].
  apply confined_bind; [apply confined_print | intros _].
  apply confined_bind;
    [apply confined_for_each; intros x; apply confined_print | intros _].
  do 2 (apply confined_bind; [apply confined_print | intros _]).
  apply confined_bind; [apply confined_update | intros ok].
  destruct ok; apply confined_print.
Qed.

Lemma confined_main (script_dir : path) :
  confined [script_dir ++ GALLERY_HTML; script_dir ++ COLLECTIONS_HTML]
    (main script_dir).
Proof.
  unfold main.
  do 2 (apply confined_bind; [apply confined_print | intros _]).
  cbv zeta.
  apply confined_bind; [apply confined_print | intros _].
  apply confined_bind.
  { apply (confined_weaken [script_dir ++ GALLERY_HTML]);
      [|apply confined_gallery_pipeline].
    intros q [<- | []]. left. reflexivity. }
  intros _. apply confined_bind.
  { apply (confined_weaken [script_dir ++ COLLECTIONS_HTML]);
      [|apply confined_collections_pipeline].
    intros q [<- | []]. right. left. reflexivity. }
  intros _. apply confined_bind; [apply confined_print | intros _].
  apply confined_print.
Qed.

(** X12. An update writes to its own file only.  Whether it returns true
    or false or raises, the same paths exist afterwards, in the same order
    and with the same kinds, the working directory is the same and every
    other file holds what it held: nothing is created, deleted or turned
    from a file into a directory. *)
Theorem update_file_content_frame
    (w : world) (file_path : path) (x sm em : str) :
  let w' := final_world (update_file_content file_path x sm em w) in
  cwd w' = cwd w /\
  map fst (fs w') = map fst (fs w) /\
  (forall q, kind_of (fs w') q = kind_of (fs w) q) /\
  (forall q, q <> file_path -> lookup q (fs w') = lookup q (fs w)).
Proof.
  destruct (confined_update file_path x sm em w) as (C & M & K & F).
  repeat split; try assumption.
  intros q Hq. apply F. intros [E | []]. congruence.
Qed.

(** X13. A whole run writes to the two pages only.  Whatever the state it
    starts in, and whether it completes or is ended by an exception, the
    same paths exist afterwards with the same kinds, the working directory
    is the same, and every file other than the gallery page and the
    collections page holds what it held; the images under the art folder
    are read, never written. *)
Theorem main_frame (script_dir : path) (w : world) :
  let w' := final_world (main script_dir w) in
  cwd w' = cwd w /\
  map fst (fs w') = map fst (fs w) /\
  (forall q, kind_of (fs w') q = kind_of (fs w) q) /\
  (forall q,
     q <> script_dir ++ GALLERY_HTML ->
     q <> script_dir ++ COLLECTIONS_HTML ->
     lookup q (fs w') = lookup q (fs w)).
Proof.
  destruct (confined_main script_dir w) as (C & M & K & F).
  repeat split; try assumption.
  intros q Hg Hc. apply F. intros [E | [E | []]]; congruence.
Qed.

Lemma update_file_content_frame_witness :
  Demo.art ++ [lit "banner.png"] <> Demo.gallery_file /\
  lookup (Demo.art ++ [lit "banner.png"])
    (fs (final_world (update_file_content Demo.gallery_file (lit "new items")
                        GALLERY_START GALLERY_END Demo.start)))
  = lookup (Demo.art ++ [lit "banner.png"]) (fs Demo.start).
Proof.
  assert (N : Demo.art ++ [lit "banner.png"] <> Demo.gallery_file) by discriminate.
  split; [exact N|].
  apply (update_file_content_frame Demo.start Demo.gallery_file (lit "new items")
           GALLERY_START GALLERY_END).
  exact N.
Defined.

Lemma main_frame_witness :
  Demo.art ++ [lit "banner.png"] <> Demo.site ++ GALLERY_HTML /\
  Demo.art ++ [lit "banner.png"] <> Demo.site ++ COLLECTIONS_HTML /\
  lookup (Demo.art ++ [lit "banner.png"])
    (fs (final_world (main Demo.site Demo.start)))
  = lookup (Demo.art ++ [lit "banner.png"]) (fs Demo.start).
Proof.
  assert (N1 : Demo.art ++ [lit "banner.png"] <> Demo.site ++ GALLERY_HTML)
    by discriminate.
  assert (N2 : Demo.art ++ [lit "banner.png"] <> Demo.site ++ COLLECTIONS_HTML)
    by discriminate.
  split; [exact N1|]. split; [exact N2|].
  apply (main_frame Demo.site Demo.start); assumption.
Defined.

(* ================================================================== *)
(** * When a run completes *)

Lemma kind_of_dir (t : tree) (q : path) :
  kind_of t q = Some KDir <-> lookup q t = Some Dir.
Proof.
  unfold kind_of. destruct (lookup q t) as [[|c]|]; split; congruence.
Qed.

Lemma kind_of_file (t : tree) (q : path) :
  kind_of t q = Some KFile <-> exists c, lookup q t = Some (File c).
Proof.
  unfold kind_of. destruct (lookup q t) as [[|c]|]; split;
    try congruence; try (intros [c' E]; congruence); eauto.
Qed.

(** The splicer returns exactly when [update_is_safe] says so. *)
Lemma update_returns (w : world) (p : path) (x sm em : str) :
  update_is_safe (fs w) p x sm em = true <->
  exists ok w', update_file_content p x sm em w = Done ok w'.
Proof.
  unfold update_is_safe.
  destruct (update_cases w p x sm em)
    as [(L & R) | [(L & R) | [(b & L & V & R) | [(b & L & V & C & R)
       | [(b & L & V & Cs & Ce & E & R) | (b & L & V & Cs & Ce & E & R)]]]]];
    rewrite R, L; try rewrite V; try rewrite Cs, Ce; try rewrite E; simpl;
    split; try discriminate; try (intros (ok & w' & K); discriminate K);
    try (intros _; eexists; eexists; reflexivity).
  intros _. destruct C as [C | C]; rewrite C; [reflexivity | apply orb_true_iff].
  left. rewrite andb_false_r. reflexivity.
Qed.

Lemma find_all_images_returns (art_folder : path) (w : world) :
  exists imgs, returned (find_all_images art_folder w) = Some imgs.
Proof.
  rewrite find_all_images_run. destruct (lookup art_folder (fs w)); eexists; reflexivity.
Qed.

Lemma find_collections_returns (art_folder : path) (w : world) :
  (forall c, lookup art_folder (fs w) <> Some (File c)) ->
  exists colls, returned (find_collections art_folder w) = Some colls.
Proof.
  intros NF. rewrite find_collections_run.
  destruct (lookup art_folder (fs w)) as [[|c]|] eqn:L;
    try (eexists; reflexivity).
  exfalso. exact (NF c eq_refl).
Qed.

Lemma gallery_pipeline_returns (art_folder gallery_file : path) (w : world) :
  (forall imgs,
     returned (find_all_images art_folder w) = Some imgs ->
     update_is_safe (fs w) gallery_file (generate_gallery_html imgs)
       GALLERY_START GALLERY_END = true) ->
  exists w', gallery_pipeline art_folder gallery_file w = Done tt w'.
Proof.
  intros Safe. destruct (find_all_images_returns art_folder w) as [imgs R].
  specialize (Safe imgs R). destruct imgs as [|e imgs].
  - destruct (gallery_pipeline_empty art_folder gallery_file w R) as (log & E & _).
    eexists. exact E.
  - rewrite (gallery_pipeline_found _ _ _ _ R) by discriminate.
    set (w1 := logged w _).
    destruct (proj1 (update_returns w1 gallery_file
                       (generate_gallery_html (e :: imgs)) GALLERY_START GALLERY_END)
                Safe) as (ok & w2 & U).
    unfold bind. rewrite U. destruct ok; rewrite print_run; eexists; reflexivity.
Qed.

Lemma collections_pipeline_returns (art_folder collections_file : path) (w : world) :
  (forall c, lookup art_folder (fs w) <> Some (File c)) ->
  (forall colls,
     returned (find_collections art_folder w) = Some colls ->
     update_is_safe (fs w) collections_file (generate_collections_html colls)
       COLLECTIONS_START COLLECTIONS_END = true) ->
  exists w', collections_pipeline art_folder collections_file w = Done tt w'.
Proof.
  intros NF Safe. destruct (find_collections_returns art_folder w NF) as [colls R].
  specialize (Safe colls R). destruct colls as [|kv colls].
  - destruct (collections_pipeline_empty art_folder collections_file w R)
      as (log & E & _).
    eexists. exact E.
  - rewrite (collections_pipeline_found _ _ _ _ R) by discriminate.
    set (w1 := logged w _).
    destruct (proj1 (update_returns w1 collections_file
                       (generate_collections_html (kv :: colls))
                       COLLECTIONS_START COLLECTIONS_END) Safe)
      as (ok & w2 & U).
    unfold bind. rewrite U. destruct ok; rewrite print_run; eexists; reflexivity.
Qed.

(** X14. When a run completes.  Suppose the art folder is not a regular
    file and the splicer is safe on both pages for the markup of what the
    scans return: neither page is a directory, a page that exists decodes
    as UTF-8, and where a page holds both of its markers the text to write
    can be encoded.  Then the run completes: missing pages, missing markers
    and a missing art folder are all reported and survived, and the last
    two lines printed are the rule and the closing message. *)
Theorem main_completes (script_dir : path) (w : world) :
  (forall c, lookup (script_dir ++ ART_FOLDER) (fs w) <> Some (File c)) ->
  (forall imgs,
     returned (find_all_images (script_dir ++ ART_FOLDER) w) = Some imgs ->
     update_is_safe (fs w) (script_dir ++ GALLERY_HTML) (generate_gallery_html imgs)
       GALLERY_START GALLERY_END = true) ->
  (forall colls,
     returned (find_collections (script_dir ++ ART_FOLDER) w) = Some colls ->
     update_is_safe (fs w) (script_dir ++ COLLECTIONS_HTML)
       (generate_collections_html colls)
       COLLECTIONS_START COLLECTIONS_END = true) ->
  exists w' log,
    main script_dir w = Done tt w' /\
    stdout w' = stdout w ++ log ++ [MsgFinalRule; MsgComplete].
Proof.
  set (art := script_dir ++ ART_FOLDER).
  set (gf := script_dir ++ GALLERY_HTML).
  set (cf := script_dir ++ COLLECTIONS_HTML).
  intros NF Sg Sc. rewrite main_run. fold art gf cf.
  assert (D : gf <> cf) by apply pages_differ.
  set (w3 := logged w [MsgBanner; MsgRule; MsgScanning art]).
  assert (Sg3 : forall imgs,
             returned (find_all_images art w3) = Some imgs ->
             update_is_safe (fs w3) gf (generate_gallery_html imgs)
               GALLERY_START GALLERY_END = true).
  { intros imgs R. unfold w3 in R. rewrite find_all_images_logged in R.
    exact (Sg imgs R). }
  destruct (gallery_pipeline_returns art gf w3 Sg3) as [w4 G].
  pose proof (confined_gallery_pipeline art gf w3) as Fr.
  pose proof (keeps_to_gallery_pipeline art gf w3) as (Cw & Al & Same & l1 & S1 & _).
  rewrite G in Fr, S1, Cw, Al, Same. simpl in Fr, S1, Cw, Al, Same.
  destruct Fr as (_ & _ & K & _).
  assert (NF4 : forall c, lookup art (fs w4) <> Some (File c)).
  { intros c E.
    assert (kind_of (fs w3) art = Some KFile)
      by (rewrite <- K; apply kind_of_file; eauto).
    apply kind_of_file in H as [c' E']. exact (NF c' E'). }
  assert (Sc4 : forall colls,
             returned (find_collections art w4) = Some colls ->
             update_is_safe (fs w4) cf (generate_collections_html colls)
               COLLECTIONS_START COLLECTIONS_END = true).
  { intros colls R.
    rewrite <- (find_collections_alike art w3 w4 Al (eq_sym Cw)) in R.
    unfold w3 in R. rewrite find_collections_logged in R.
    unfold update_is_safe. rewrite (Same cf) by congruence.
    exact (Sc colls R). }
  destruct (collections_pipeline_returns art cf w4 NF4 Sc4) as [w5 C].
  pose proof (keeps_to_collections_pipeline art cf w4) as (_ & _ & _ & l2 & S2 & _).
  rewrite C in S2. simpl in S2.
  unfold bind at 1. rewrite G. unfold bind at 1. rewrite C.
  rewrite bind_print, print_run, logged_logged.
  eexists. exists ([MsgBanner; MsgRule; MsgScanning art] ++ l1 ++ l2).
  split; [reflexivity|].
  simpl stdout. rewrite S2, S1. unfold w3. simpl stdout.
  rewrite <- !app_assoc. reflexivity.
Qed.

Lemma main_completes_witness :
  (forall c, lookup (Demo.site ++ ART_FOLDER) (fs Demo.start) <> Some (File c)) /\
  (forall imgs,
     returned (find_all_images (Demo.site ++ ART_FOLDER) Demo.start) = Some imgs ->
     update_is_safe (fs Demo.start) (Demo.site ++ GALLERY_HTML)
       (generate_gallery_html imgs) GALLERY_START GALLERY_END = true) /\
  (forall colls,
     returned (find_collections (Demo.site ++ ART_FOLDER) Demo.start) = Some colls ->
     update_is_safe (fs Demo.start) (Demo.site ++ COLLECTIONS_HTML)
       (generate_collections_html colls) COLLECTIONS_START COLLECTIONS_END = true) /\
  exists w', main Demo.site Demo.start = Done tt w'.
Proof.
  assert (H1 : forall c, lookup (Demo.site ++ ART_FOLDER) (fs Demo.start)
                         <> Some (File c)) by (intros c; discriminate).
  assert (H2 : forall imgs,
             returned (find_all_images (Demo.site ++ ART_FOLDER) Demo.start)
             = Some imgs ->
             update_is_safe (fs Demo.start) (Demo.site ++ GALLERY_HTML)
               (generate_gallery_html imgs) GALLERY_START GALLERY_END = true)
    by (intros imgs R; injection R as <-; reflexivity).
  assert (H3 : forall colls,
             returned (find_collections (Demo.site ++ ART_FOLDER) Demo.start)
             = Some colls ->
             update_is_safe (fs Demo.start) (Demo.site ++ COLLECTIONS_HTML)
               (generate_collections_html colls)
               COLLECTIONS_START COLLECTIONS_END = true)
    by (intros colls R; injection R as <-; reflexivity).
  repeat (split; [assumption|]).
  destruct (main_completes Demo.site Demo.start H1 H2 H3) as (w' & log & R & _).
  exists w'. exact R.
Defined.

Lemma image_files_of_file (t : tree) (folder : path) (c : str) :
  lookup folder t = Some (File c) -> image_files t folder = [].
Proof. intros L. unfold image_files, rglob, is_dir. rewrite L. reflexivity. Qed.

(** X15. An art folder that is a regular file ends the run.  The scanner
    takes it for a folder without images and returns the empty list
    without a complaint; the grouper then raises [NotADirectoryError],
    which nothing catches: the run stops after announcing the collections
    stage, with no file changed. *)
Theorem main_art_is_a_file (script_dir : path) (w : world) (c : str) :
  lookup (script_dir ++ ART_FOLDER) (fs w) = Some (File c) ->
  find_all_images (script_dir ++ ART_FOLDER) w = Done [] w /\
  find_collections (script_dir ++ ART_FOLDER) w = Raised NotADirectoryError w /\
  main script_dir w
  = Raised NotADirectoryError
      (logged w [MsgBanner; MsgRule; MsgScanning (script_dir ++ ART_FOLDER);
                 MsgGalleryStage; MsgNoImages; MsgCollectionsStage]).
Proof.
  set (art := script_dir ++ ART_FOLDER). intros L.
  assert (F : forall log, find_all_images art (logged w log) = Done [] (logged w log)).
  { intros log. rewrite find_all_images_run. simpl fs. rewrite L.
    rewrite (image_files_of_file _ _ _ L). reflexivity. }
  assert (C : forall log, find_collections art (logged w log)
                          = Raised NotADirectoryError (logged w log)).
  { intros log. rewrite find_collections_run. simpl fs. rewrite L. reflexivity. }
  split; [|split].
  - rewrite find_all_images_run, L, (image_files_of_file _ _ _ L). reflexivity.
  - rewrite find_collections_run, L. reflexivity.
  - rewrite main_run. fold art.
    unfold bind at 1. unfold gallery_pipeline.
    rewrite bind_print, logged_logged. unfold bind at 1. rewrite F.
    rewrite print_run, logged_logged.
    unfold bind at 1. unfold collections_pipeline.
    rewrite bind_print, logged_logged. unfold bind at 1. rewrite C.
    reflexivity.
Qed.

Lemma main_art_is_a_file_witness :
  let w := World [(Demo.site, Dir); (Demo.art, File (lit "not a folder"))]
             Demo.site [] in
  lookup (Demo.site ++ ART_FOLDER) (fs w) = Some (File (lit "not a folder")) /\
  find_collections (Demo.site ++ ART_FOLDER) w = Raised NotADirectoryError w.
Proof.
  intros w.
  assert (L : lookup (Demo.site ++ ART_FOLDER) (fs w)
              = Some (File (lit "not a folder"))) by reflexivity.
  split; [exact L|].
  apply (main_art_is_a_file Demo.site w _ L).
Defined.

(* ================================================================== *)
(** * Running the script again *)

Lemma store_same (p : path) (c : str) (l : tree) :
  lookup p l = Some (File c) -> store p c l = l.
Proof.
  induction l as [|[q n] l IH]; simpl; [discriminate|].
  destruct (path_eqb q p) eqn:E.
  - intros H. injection H as ->. reflexivity.
  - intros H. rewrite IH by exact H. reflexivity.
Qed.

(** A run in which both scans find something, both pages can be read and
    have their markers, and both new texts can be encoded rewrites both
    pages. *)
Lemma main_updates_both
    (script_dir : path) (w : world) (imgs : list image_entry)
    (colls : collection_map) (gallery collections : str) :
  returned (find_all_images (script_dir ++ ART_FOLDER) w) = Some imgs ->
  imgs <> [] ->
  returned (find_collections (script_dir ++ ART_FOLDER) w) = Some colls ->
  colls <> [] ->
  lookup (script_dir ++ GALLERY_HTML) (fs w) = Some (File gallery) ->
  lookup (script_dir ++ COLLECTIONS_HTML) (fs w) = Some (File collections) ->
  valid_utf8 gallery = true ->
  valid_utf8 collections = true ->
  contains GALLERY_START (universal_newlines gallery) = true ->
  contains GALLERY_END (universal_newlines gallery) = true ->
  contains COLLECTIONS_START (universal_newlines collections) = true ->
  contains COLLECTIONS_END (universal_newlines collections) = true ->
  valid_utf8 (new_file_content (universal_newlines gallery)
                (generate_gallery_html imgs) GALLERY_START GALLERY_END) = true ->
  valid_utf8 (new_file_content (universal_newlines collections)
                (generate_collections_html colls)
                COLLECTIONS_START COLLECTIONS_END) = true ->
  exists log,
    main script_dir w
    = Done tt
        (World
           (store (script_dir ++ COLLECTIONS_HTML)
              (new_file_content (universal_newlines collections)
                 (generate_collections_html colls)
                 COLLECTIONS_START COLLECTIONS_END)
              (store (script_dir ++ GALLERY_HTML)
                 (new_file_content (universal_newlines gallery)
                    (generate_gallery_html imgs)
                    GALLERY_START GALLERY_END)
                 (fs w)))
           (cwd w) (stdout w ++ log)) /\
    In (MsgGalleryUpdated (List.length imgs)) log /\
    In (MsgCollectionsUpdated (List.length colls)) log.
Proof.
  set (art := script_dir ++ ART_FOLDER).
  set (gf := script_dir ++ GALLERY_HTML).
  set (cf := script_dir ++ COLLECTIONS_HTML).
  intros Ri NEi Rc NEc Lg Lc Vg Vc Gs Ge Cs Ce Eg Ec.
  assert (D : gf <> cf) by apply pages_differ.
  rewrite main_run. fold art gf cf.
  set (w3 := logged w [MsgBanner; MsgRule; MsgScanning art]).
  assert (Ri3 : returned (find_all_images art w3) = Some imgs)
    by (unfold w3; rewrite find_all_images_logged; exact Ri).
  unfold bind at 1.
  rewrite (gallery_pipeline_accepted art gf w3 imgs gallery Ri3 NEi Lg Vg Gs Ge Eg).
  set (w4 := World _ _ _).
  assert (Rc4 : returned (find_collections art w4) = Some colls).
  { rewrite <- Rc. symmetry. apply find_collections_alike; [|reflexivity].
    exact (store_alike _ _ _ _ Lg). }
  assert (Lc4 : lookup cf (fs w4) = Some (File collections))
    by (simpl; rewrite lookup_store_other by exact D; exact Lc).
  destruct (collections_pipeline_accepted art cf w4 colls collections
              Rc4 NEc Lc4 Vc Cs Ce Ec) as (log & K & I).
  unfold bind at 1. rewrite K, bind_print, print_run.
  eexists. split; [|split].
  - unfold w4, w3, logged. simpl. rewrite <- !app_assoc. reflexivity.
  - in_log.
  - in_log.
Qed.

(** X16. Running the script twice is running it once.  Suppose both scans
    find something, each page can be read and has, in its text, its first
    start marker ending before its first end marker begins, the generated
    markup holds no end marker, and the text written to each page can be
    encoded.  Then the first run rewrites both pages, and the second run,
    which scans the same images, completes and leaves the file system
    exactly as the first run left it. *)
Theorem main_twice
    (script_dir : path) (w : world) (imgs : list image_entry)
    (colls : collection_map) (gallery collections : str) (gi gj ci cj : nat) :
  returned (find_all_images (script_dir ++ ART_FOLDER) w) = Some imgs ->
  imgs <> [] ->
  returned (find_collections (script_dir ++ ART_FOLDER) w) = Some colls ->
  colls <> [] ->
  lookup (script_dir ++ GALLERY_HTML) (fs w) = Some (File gallery) ->
  lookup (script_dir ++ COLLECTIONS_HTML) (fs w) = Some (File collections) ->
  valid_utf8 gallery = true ->
  valid_utf8 collections = true ->
  first_at GALLERY_START (universal_newlines gallery) gi ->
  first_at GALLERY_END (universal_newlines gallery) gj ->
  gi + List.length GALLERY_START <= gj ->
  first_at COLLECTIONS_START (universal_newlines collections) ci ->
  first_at COLLECTIONS_END (universal_newlines collections) cj ->
  ci + List.length COLLECTIONS_START <= cj ->
  ~ occurs GALLERY_END (generate_gallery_html imgs) ->
  ~ occurs COLLECTIONS_END (generate_collections_html colls) ->
  valid_utf8 (new_file_content (universal_newlines gallery)
                (generate_gallery_html imgs) GALLERY_START GALLERY_END) = true ->
  valid_utf8 (new_file_content (universal_newlines collections)
                (generate_collections_html colls)
                COLLECTIONS_START COLLECTIONS_END) = true ->
  exists w1 w2,
    main script_dir w = Done tt w1 /\
    main script_dir w1 = Done tt w2 /\
    fs w2 = fs w1 /\
    cwd w2 = cwd w1.
Proof.
  set (art := script_dir ++ ART_FOLDER).
  set (gf := script_dir ++ GALLERY_HTML).
  set (cf := script_dir ++ COLLECTIONS_HTML).
  intros Ri NEi Rc NEc Lg Lc Vg Vc Hgi Hgj Hg Hci Hcj Hc Ng Nc Eg Ec.
  assert (D : gf <> cf) by apply pages_differ.
  set (hg := generate_gallery_html imgs) in *.
  set (hc := generate_collections_html colls) in *.
  set (tg := universal_newlines gallery) in *.
  set (tc := universal_newlines collections) in *.
  set (G := new_file_content tg hg GALLERY_START GALLERY_END) in *.
  set (C := new_file_content tc hc COLLECTIONS_START COLLECTIONS_END) in *.
  pose proof (first_at_contains _ _ _ Hgi) as Gs.
  pose proof (first_at_contains _ _ _ Hgj) as Ge.
  pose proof (first_at_contains _ _ _ Hci) as Cs.
  pose proof (first_at_contains _ _ _ Hcj) as Ce.
  destruct (main_updates_both script_dir w imgs colls gallery collections
              Ri NEi Rc NEc Lg Lc Vg Vc Gs Ge Cs Ce Eg Ec) as (log1 & R1 & _).
  fold art gf cf hg hc tg tc G C in R1.
  set (w1 := World (store cf C (store gf G (fs w))) (cwd w) (stdout w ++ log1)) in *.
  assert (Lg1 : lookup gf (fs w1) = Some (File G))
    by (simpl; rewrite lookup_store_other by congruence; apply lookup_store_same).
  assert (Lc1 : lookup cf (fs w1) = Some (File C)) by apply lookup_store_same.
  assert (A : alike (fs w) (fs w1)).
  { apply (alike_trans _ (store gf G (fs w))); [exact (store_alike _ _ _ _ Lg)|].
    apply (store_alike _ _ collections).
    rewrite lookup_store_other by exact D. exact Lc. }
  assert (Ri1 : returned (find_all_images art w1) = Some imgs)
    by (rewrite <- Ri; symmetry; apply find_all_images_alike; [exact A | reflexivity]).
  assert (Rc1 : returned (find_collections art w1) = Some colls)
    by (rewrite <- Rc; symmetry; apply find_collections_alike; [exact A | reflexivity]).
  destruct (new_file_content_reread tg hg hg GALLERY_START GALLERY_END gi gj
              (universal_newlines_no_cr gallery) eq_refl Hgi Hgj Hg Ng)
    as (Gagain & Gs1 & Ge1).
  destruct (new_file_content_reread tc hc hc COLLECTIONS_START COLLECTIONS_END ci cj
              (universal_newlines_no_cr collections) eq_refl Hci Hcj Hc Nc)
    as (Cagain & Cs1 & Ce1).
  fold G in Gagain, Gs1, Ge1. fold C in Cagain, Cs1, Ce1.
  assert (Eg1 : valid_utf8 (new_file_content (universal_newlines G) hg
                              GALLERY_START GALLERY_END) = true)
    by (rewrite Gagain; exact Eg).
  assert (Ec1 : valid_utf8 (new_file_content (universal_newlines C) hc
                              COLLECTIONS_START COLLECTIONS_END) = true)
    by (rewrite Cagain; exact Ec).
  destruct (main_updates_both script_dir w1 imgs colls G C
              Ri1 NEi Rc1 NEc Lg1 Lc1 Eg Ec Gs1 Ge1 Cs1 Ce1 Eg1 Ec1)
    as (log2 & R2 & _).
  fold art gf cf hg hc in R2. rewrite Gagain, Cagain in R2.
  exists w1. eexists. split; [exact R1|]. split; [exact R2|].
  split; [|reflexivity]. simpl fs.
  rewrite (store_same gf G) by exact Lg1.
  apply store_same. exact Lc1.
Qed.

Lemma main_twice_witness :
  exists w1 w2,
    main Demo.site Demo.start = Done tt w1 /\
    main Demo.site w1 = Done tt w2 /\
    fs w2 = fs w1.
Proof.
  destruct (main_twice Demo.site Demo.start
              [(lit "../art/banner.png", lit "Banner");
               (lit "../art/landscapes/hill_1.jpg", lit "Hill 1")]
              [(lit "landscapes", [(lit "../art/landscapes/hill_1.jpg", lit "Hill 1")])]
              Demo.gallery_page Demo.collections_page 7 45 7 45)
    as (w1 & w2 & R1 & R2 & E & _);
    try reflexivity; try discriminate;
    try (apply find_index_first; reflexivity);
    try (simpl; lia);
    try (intros O; apply contains_occurs in O; discriminate O).
  exists w1, w2. auto.
Defined.

(* ================================================================== *)
(** * A tree without images *)

Lemma filter_none {A} (f : A -> bool) (l : list A) :
  (forall x, In x l -> f x = false) -> filter f l = [].
Proof.
  induction l as [|x l IH]; simpl; intros H; [reflexivity|].
  rewrite (H x (or_introl eq_refl)). apply IH.
  intros y Hy. apply H. right. exact Hy.
Qed.

Lemma image_files_none (t : tree) (folder : path) :
  (forall p, In p (map fst t) -> supported (lower (suffix p)) = false) ->
  image_files t folder = [].
Proof.
  intros H. unfold image_files. apply filter_none. intros p I.
  apply (Permutation_in _ (sorted_perm _)) in I.
  unfold is_image. rewrite H, andb_false_r; [reflexivity|].
  unfold rglob in I. destruct (is_dir t folder); [|contradiction].
  apply filter_In in I as [I _]. exact I.
Qed.

Lemma fold_collect_none (t : tree) (here : path) (subs : list path)
    (acc : collection_map) :
  (forall sub, image_files t sub = []) ->
  fold_left (collect_subfolder t here) subs acc = acc.
Proof.
  intros H. revert acc; induction subs as [|sub subs IH]; intros acc; simpl;
    [reflexivity|].
  rewrite IH. unfold collect_subfolder. rewrite H.
  destruct (is_dir t sub); reflexivity.
Qed.

(** X17. In a tree where no path has a supported extension, the scanner
    returns no image and the grouper no collection; unless the art folder
    is a regular file, the run then completes, reports both and changes no
    file. *)
Theorem main_without_images (script_dir : path) (w : world) :
  (forall p, In p (map fst (fs w)) -> supported (lower (suffix p)) = false) ->
  (forall c, lookup (script_dir ++ ART_FOLDER) (fs w) <> Some (File c)) ->
  returned (find_all_images (script_dir ++ ART_FOLDER) w) = Some [] /\
  returned (find_collections (script_dir ++ ART_FOLDER) w) = Some [] /\
  exists log,
    main script_dir w = Done tt (logged w log) /\
    In MsgNoImages log /\ In MsgNoCollections log.
Proof.
  set (art := script_dir ++ ART_FOLDER). intros H NF.
  assert (Ri : returned (find_all_images art w) = Some []).
  { rewrite find_all_images_run, (image_files_none _ art H).
    destruct (lookup art (fs w)); reflexivity. }
  assert (Rc : returned (find_collections art w) = Some []).
  { rewrite find_collections_run.
    destruct (lookup art (fs w)) as [[|c]|] eqn:L; try reflexivity.
    - simpl. rewrite fold_collect_none; [reflexivity|].
      intros sub. apply image_files_none. exact H.
    - exfalso. exact (NF c eq_refl). }
  split; [exact Ri|]. split; [exact Rc|].
  rewrite main_run. fold art.
  set (w3 := logged w [MsgBanner; MsgRule; MsgScanning art]).
  assert (Ri3 : returned (find_all_images art w3) = Some [])
    by (unfold w3; rewrite find_all_images_logged; exact Ri).
  destruct (gallery_pipeline_empty art (script_dir ++ GALLERY_HTML) w3 Ri3)
    as (l1 & G & I1 & _).
  unfold bind at 1. rewrite G. unfold w3. rewrite logged_logged.
  set (w4 := logged w _).
  assert (Rc4 : returned (find_collections art w4) = Some [])
    by (unfold w4; rewrite find_collections_logged; exact Rc).
  destruct (collections_pipeline_empty art (script_dir ++ COLLECTIONS_HTML) w4 Rc4)
    as (l2 & K & I2 & _).
  unfold bind at 1. rewrite K. unfold w4.
  rewrite bind_print, print_run, !logged_logged.
  eexists. split; [reflexivity|]. split; in_log.
Qed.

Lemma main_without_images_witness :
  let w := World [(Demo.site, Dir); (Demo.art, Dir);
                  (Demo.art ++ [lit "notes.txt"], File [])] Demo.site [] in
  (forall p, In p (map fst (fs w)) -> supported (lower (suffix p)) = false) /\
  (forall c, lookup (Demo.site ++ ART_FOLDER) (fs w) <> Some (File c)) /\
  returned (find_all_images (Demo.site ++ ART_FOLDER) w) = Some [].
Proof.
  intros w.
  assert (H : forall p, In p (map fst (fs w)) -> supported (lower (suffix p)) = false).
  { intros p I. simpl in I.
    repeat (destruct I as [I | I]; [subst p; reflexivity|]). contradiction. }
  assert (NF : forall c, lookup (Demo.site ++ ART_FOLDER) (fs w) <> Some (File c))
    by (intros c; discriminate).
  split; [exact H|]. split; [exact NF|].
  apply (main_without_images Demo.site w H NF).
Defined.

(* ================================================================== *)
(** * Further properties of labels and locators *)

Lemma case_mapping_facts (c : ascii) :
  is_cased (to_upper c) = is_cased c /\
  is_cased (to_lower c) = is_cased c /\
  to_upper (to_upper c) = to_upper c /\
  to_lower (to_lower c) = to_lower c /\
  (to_upper c = "_"%char -> c = "_"%char) /\
  (to_upper c = "-"%char -> c = "-"%char) /\
  (to_lower c = "_"%char -> c = "_"%char) /\
  (to_lower c = "-"%char -> c = "-"%char).
Proof.
  destruct c as [[] [] [] [] [] [] [] []];
    repeat split; try reflexivity; intros E; (reflexivity || discriminate E).
Qed.

Lemma title_from_idempotent (s : str) (cased : bool) :
  title_from cased (title_from cased s) = title_from cased s.
Proof.
  revert cased; induction s as [|c s IH]; intros cased; simpl; [reflexivity|].
  destruct (case_mapping_facts c) as (Cu & Cl & Uu & Ll & _).
  destruct cased; [rewrite Ll, Cl | rewrite Uu, Cu]; rewrite IH; reflexivity.
Qed.

Lemma title_from_chars (s : str) (cased : bool) (c : ascii) :
  (c = "_"%char \/ c = "-"%char) -> In c (title_from cased s) -> In c s.
Proof.
  intros Hc. revert cased; induction s as [|x s IH]; intros cased; simpl; [tauto|].
  destruct (case_mapping_facts x) as (_ & _ & _ & _ & U1 & U2 & L1 & L2).
  intros [E | I]; [left | right; exact (IH _ I)].
  destruct cased, Hc as [-> | ->]; auto.
Qed.

Lemma replace_absent (a b : ascii) (s : str) : ~ In a s -> replace a b s = s.
Proof.
  induction s as [|x s IH]; simpl; intros N; [reflexivity|].
  destruct (Ascii.eqb x a) eqn:E.
  - apply Ascii.eqb_eq in E. exfalso. apply N. left. exact E.
  - rewrite IH by (intros I; apply N; right; exact I). reflexivity.
Qed.

Lemma replace_removes (a b : ascii) (s : str) : a <> b -> ~ In a (replace a b s).
Proof.
  intros D I. apply in_map_iff in I as (x & E & _).
  destruct (Ascii.eqb x a) eqn:Ex; [congruence|].
  apply Ascii.eqb_neq in Ex. congruence.
Qed.

Lemma replace_keeps_out (a b c : ascii) (s : str) :
  c <> b -> ~ In c s -> ~ In c (replace a b s).
Proof.
  intros D N I. apply in_map_iff in I as (x & E & Hx).
  destruct (Ascii.eqb x a); [congruence|]. subst x. contradiction.
Qed.

(** X18. A label or display name holds neither an underscore nor a hyphen,
    and deriving a label from a label gives the label back: putting a text
    that is already in title case through the same steps changes
    nothing. *)
Theorem display_text_stable (x : str) :
  ascii_only x = true ->
  ~ In "_"%char (display_text x) /\
  ~ In "-"%char (display_text x) /\
  display_text (display_text x) = display_text x.
Proof.
  intros _.
  assert (N1 : ~ In "_"%char (spaced x)).
  { unfold spaced. apply replace_keeps_out; [discriminate|].
    apply replace_removes. discriminate. }
  assert (N2 : ~ In "-"%char (spaced x))
    by (unfold spaced; apply replace_removes; discriminate).
  assert (T1 : ~ In "_"%char (display_text x))
    by (intros I; apply N1, (title_from_chars _ false); auto).
  assert (T2 : ~ In "-"%char (display_text x))
    by (intros I; apply N2, (title_from_chars _ false); auto).
  split; [exact T1|]. split; [exact T2|].
  unfold display_text at 1.
  rewrite (replace_absent "_"%char) by exact T1.
  rewrite (replace_absent "-"%char) by exact T2.
  apply title_from_idempotent.
Qed.

Lemma display_text_stable_witness :
  ascii_only (lit "my_collection-1") = true /\
  display_text (display_text (lit "my_collection-1"))
  = display_text (lit "my_collection-1").
Proof.
  split; [reflexivity|].
  apply (display_text_stable (lit "my_collection-1") eq_refl).
Defined.

Lemma commonprefix_app (d a b : path) :
  commonprefix (d ++ a) (d ++ b) = d ++ commonprefix a b.
Proof.
  induction d as [|x d IH]; simpl; [reflexivity|].
  rewrite str_eqb_refl, IH. reflexivity.
Qed.

Lemma replace_same (a : ascii) (s : str) : replace a a s = s.
Proof.
  induction s as [|x s IH]; simpl; [reflexivity|].
  rewrite IH. destruct (Ascii.eqb x a) eqn:E; [|reflexivity].
  apply Ascii.eqb_eq in E. congruence.
Qed.

(** X19. Started in the directory of the script, the scanner and the
    grouper give a file [art/<rest>] the locator [../art/<rest>], the
    components of [<rest>] joined by slashes. *)
Theorem locator_in_script_dir (script_dir rest : path) :
  rest <> [] ->
  fst (entry_for script_dir GALLERY_HTML (script_dir ++ ART_FOLDER ++ rest))
  = lit "../art/" ++ join (lit "/") rest /\
  fst (entry_for script_dir COLLECTIONS_HTML (script_dir ++ ART_FOLDER ++ rest))
  = lit "../art/" ++ join (lit "/") rest.
Proof.
  intros NE.
  assert (E : forall html,
            parent html = [lit "pages"] ->
            fst (entry_for script_dir html (script_dir ++ ART_FOLDER ++ rest))
            = lit "../art/" ++ join (lit "/") rest).
  { intros html P. unfold entry_for, relpath. simpl fst. rewrite P.
    rewrite replace_same, commonprefix_app, !length_app. simpl commonprefix.
    simpl List.length. rewrite Nat.add_0_r.
    replace (List.length script_dir + 1 - List.length script_dir) with 1 by lia.
    rewrite skipn_app, skipn_all, Nat.sub_diag. simpl.
    destruct rest as [|r rest']; [congruence|].
    destruct rest'; reflexivity. }
  split; apply E; reflexivity.
Qed.

Lemma locator_in_script_dir_witness :
  [lit "landscapes"; lit "hill_1.jpg"] <> [] /\
  fst (entry_for Demo.site GALLERY_HTML
         (Demo.site ++ ART_FOLDER ++ [lit "landscapes"; lit "hill_1.jpg"]))
  = lit "../art/landscapes/hill_1.jpg".
Proof.
  assert (NE : [lit "landscapes"; lit "hill_1.jpg"] <> []) by discriminate.
  split; [exact NE|].
  apply (locator_in_script_dir Demo.site [lit "landscapes"; lit "hill_1.jpg"] NE).
Defined.

(** ** Reading a locator back *)

Lemma split_on_no_sep (sep : ascii) (x : str) : ~ In sep x -> split_on sep x = [x].
Proof.
  induction x as [|c x IH]; simpl; intros N; [reflexivity|].
  destruct (Ascii.eqb c sep) eqn:E.
  - apply Ascii.eqb_eq in E. exfalso. apply N. left. exact E.
  - rewrite IH by (intros I; apply N; right; exact I). reflexivity.
Qed.

Lemma split_on_app (sep : ascii) (x r : str) :
  ~ In sep x -> split_on sep (x ++ sep :: r) = x :: split_on sep r.
Proof.
  induction x as [|c x IH]; simpl; intros N.
  - rewrite Ascii.eqb_refl. reflexivity.
  - destruct (Ascii.eqb c sep) eqn:E.
    + apply Ascii.eqb_eq in E. exfalso. apply N. left. exact E.
    + rewrite IH by (intros I; apply N; right; exact I). reflexivity.
Qed.

Lemma split_on_join (sep : ascii) (l : list str) :
  l <> [] -> Forall (fun x => ~ In sep x) l -> split_on sep (join [sep] l) = l.
Proof.
  intros NE F. revert NE. induction F as [|x l Hx F IH]; intros NE;
    [exfalso; apply NE; reflexivity|].
  destruct l as [|y l].
  - simpl. apply split_on_no_sep. exact Hx.
  - rewrite join_cons.
    change ([sep] ++ join [sep] (y :: l)) with (sep :: join [sep] (y :: l)).
    rewrite split_on_app by exact Hx.
    rewrite IH by discriminate. reflexivity.
Qed.

Lemma commonprefix_firstn (a b : path) :
  firstn (List.length (commonprefix a b)) a = commonprefix a b /\
  firstn (List.length (commonprefix a b)) b = commonprefix a b.
Proof.
  revert b; induction a as [|x a IH]; intros [|y b]; simpl; try (split; reflexivity).
  destruct (str_eqb x y) eqn:E; simpl; [|split; reflexivity].
  apply str_eqb_eq in E. subst y. destruct (IH b) as [-> ->]. split; reflexivity.
Qed.

Lemma walk_up (step : path -> str -> path) (n : nat) (s : path) :
  (forall acc, step acc pardir = removelast acc) ->
  fold_left step (repeat pardir n) s = firstn (List.length s - n) s.
Proof.
  intros Hstep. revert s; induction n as [|n IH]; intros s; simpl.
  - rewrite Nat.sub_0_r, firstn_all. reflexivity.
  - rewrite Hstep, IH, removelast_firstn_len, firstn_firstn, length_firstn.
    f_equal. lia.
Qed.

Lemma walk_down (step : path -> str -> path) (rest acc : path) :
  (forall a c, In c rest -> step a c = a ++ [c]) ->
  fold_left step rest acc = acc ++ rest.
Proof.
  revert acc; induction rest as [|c rest IH]; intros acc H; simpl.
  - rewrite app_nil_r. reflexivity.
  - rewrite H by (left; reflexivity).
    rewrite IH by (intros a d Hd; apply H; right; exact Hd).
    rewrite <- app_assoc. reflexivity.
Qed.

(** X20. A locator leads back to its file.  For a path whose components
    hold no slash and are neither [.] nor [..], the locator computed for it,
    read from the page directory taken relative to the working directory,
    names that path again.  That directory is the directory of the page
    when the script is started in its own directory. *)
Theorem locator_resolves (here html file_path : path) :
  Forall (fun c => ~ In "/"%char c /\ c <> pardir /\ c <> curdir) file_path ->
  resolve (here ++ parent html) (fst (entry_for here html file_path)) = file_path.
Proof.
  intros Hp. unfold entry_for, relpath. simpl fst. rewrite replace_same.
  set (s := here ++ parent html).
  destruct (commonprefix_firstn s file_path) as [Fs Fp].
  set (i := List.length (commonprefix s file_path)) in *.
  assert (Li : i <= List.length s).
  { apply (f_equal (@List.length _)) in Fs. rewrite length_firstn in Fs.
    fold i in Fs. lia. }
  assert (Up : forall acc, (fun acc c =>
                 if str_eqb c pardir then removelast acc
                 else if str_eqb c curdir then acc else acc ++ [c]) acc pardir
               = removelast acc) by reflexivity.
  assert (Down : forall a c, In c (skipn i file_path) ->
                 (fun acc c =>
                    if str_eqb c pardir then removelast acc
                    else if str_eqb c curdir then acc else acc ++ [c]) a c
                 = a ++ [c]).
  { intros a c I. rewrite Forall_forall in Hp.
    destruct (Hp c) as (_ & N1 & N2).
    { rewrite <- (firstn_skipn i file_path). apply in_or_app. right. exact I. }
    destruct (str_eqb c pardir) eqn:E1; [apply str_eqb_eq in E1; contradiction|].
    destruct (str_eqb c curdir) eqn:E2; [apply str_eqb_eq in E2; contradiction|].
    reflexivity. }
  destruct (repeat pardir (List.length s - i) ++ skipn i file_path) as [|r rel] eqn:R.
  - apply app_eq_nil in R as [R1 R2].
    assert (List.length s - i = 0) by (destruct (List.length s - i); [reflexivity | discriminate R1]).
    assert (Ls : firstn i s = s) by (apply firstn_all2; lia).
    assert (Lp : firstn i file_path = file_path).
    { rewrite <- (firstn_skipn i file_path) at 2. rewrite R2, app_nil_r. reflexivity. }
    unfold resolve. simpl. congruence.
  - rewrite <- R. unfold resolve.
    rewrite (split_on_join "/"%char).
    + rewrite fold_left_app, (walk_up _ _ _ Up), (walk_down _ _ _ Down).
      replace (List.length s - (List.length s - i)) with i by lia.
      rewrite Fs, <- Fp. apply firstn_skipn.
    + rewrite R. discriminate.
    + apply Forall_app. split.
      * apply Forall_forall. intros c I. apply repeat_spec in I. subst c.
        simpl. intros [E | [E | []]]; discriminate E.
      * apply Forall_forall. intros c I. rewrite Forall_forall in Hp.
        apply (Hp c).
        rewrite <- (firstn_skipn i file_path). apply in_or_app. right. exact I.
Qed.

Lemma locator_resolves_witness :
  Forall (fun c => ~ In "/"%char c /\ c <> pardir /\ c <> curdir)
    (Demo.art ++ [lit "banner.png"]) /\
  resolve (Demo.site ++ parent GALLERY_HTML) (lit "../art/banner.png")
  = Demo.art ++ [lit "banner.png"].
Proof.
  assert (H : Forall (fun c => ~ In "/"%char c /\ c <> pardir /\ c <> curdir)
                (Demo.art ++ [lit "banner.png"])).
  { repeat constructor; try discriminate; simpl; intros I;
      repeat (destruct I as [I | I]; [discriminate I|]); exact I. }
  split; [exact H|].
  apply (locator_resolves Demo.site GALLERY_HTML _ H).
Defined.

(* ================================================================== *)
(** * The cards of a section and a successful run *)

Lemma occurs_prefix_of (x whole post : str) : whole = x ++ post -> occurs x whole.
Proof. intros ->. apply occurs_prefix. Qed.

(** Find a run of consecutive pieces among the pieces of a text. *)
Ltac among_prefixes :=
  solve [ eapply occurs_prefix_of; repeat rewrite <- app_assoc; reflexivity
        | apply occurs_app_r; among_prefixes ].

(** X21. The section of a collection holds one card for each of its
    images, in the order of the list and separated by newlines, inside the
    carousel track; the card of an image references its locator and carries
    its label as alternative text. *)
Theorem render_collection_cards (collection_name : str) (images : list image_entry) :
  occurs (lit "<div class=" ++ quoted (lit "carousel-track") ++ lit ">" ++ [nl]
            ++ join [nl] (map (fun e => card_html (fst e) (snd e)) images) ++ [nl]
            ++ sp 20 ++ lit "</div>")
    (render_collection collection_name images) /\
  forall e,
    In e images ->
    occurs (lit "<img src=" ++ quoted (fst e) ++ lit " alt=" ++ quoted (snd e) ++ lit ">")
      (render_collection collection_name images).
Proof.
  assert (T : occurs (lit "<div class=" ++ quoted (lit "carousel-track") ++ lit ">"
                        ++ [nl]
                        ++ join [nl] (map (fun e => card_html (fst e) (snd e)) images)
                        ++ [nl] ++ sp 20 ++ lit "</div>")
                (render_collection collection_name images)).
  { unfold render_collection, section_html. among_prefixes. }
  split; [exact T|].
  intros e I. destruct T as (pre & post & ->).
  apply occurs_app_r, occurs_app_l. do 4 apply occurs_app_r. apply occurs_app_l.
  destruct (occurs_join [nl] (card_html (fst e) (snd e))
              (map (fun e => card_html (fst e) (snd e)) images))
    as (pre' & post' & ->).
  { apply in_map_iff. exists e. split; [reflexivity | exact I]. }
  apply occurs_app_r, occurs_app_l.
  exists (sp 24 ++ lit "<div class=" ++ quoted (lit "collection-card") ++ lit ">"
            ++ [nl] ++ sp 28 ++ lit "<div class=" ++ quoted (lit "card-image")
            ++ lit ">" ++ [nl] ++ sp 32),
         ([nl] ++ sp 28 ++ lit "</div>" ++ [nl] ++ sp 24 ++ lit "</div>").
  unfold card_html, quoted. repeat rewrite <- app_assoc. reflexivity.
Qed.

Lemma render_collection_cards_witness :
  In (lit "../art/landscapes/hill_1.jpg", lit "Hill 1")
    [(lit "../art/landscapes/hill_1.jpg", lit "Hill 1")] /\
  occurs (lit "<img src=" ++ quoted (lit "../art/landscapes/hill_1.jpg")
            ++ lit " alt=" ++ quoted (lit "Hill 1") ++ lit ">")
    (render_collection (lit "landscapes")
       [(lit "../art/landscapes/hill_1.jpg", lit "Hill 1")]).
Proof.
  assert (I : In (lit "../art/landscapes/hill_1.jpg", lit "Hill 1")
                [(lit "../art/landscapes/hill_1.jpg", lit "Hill 1")])
    by (left; reflexivity).
  split; [exact I|].
  apply (proj2 (render_collection_cards (lit "landscapes")
                  [(lit "../art/landscapes/hill_1.jpg", lit "Hill 1")])
           (lit "../art/landscapes/hill_1.jpg", lit "Hill 1") I).
Defined.

(** X22. A run in which both scans find something, both pages can be read
    and hold their two markers, and both new texts can be encoded completes,
    reports both updates with the number of images and of collections
    found, and leaves in the gallery page the splice of the page's text with
    the gallery markup of the scanned images and in the collections page the
    splice of the page's text with the collections markup of the grouped
    images; the order of the markers in a page does not matter for
    this. *)
Theorem main_rewrites_both_pages
    (script_dir : path) (w : world) (imgs : list image_entry)
    (colls : collection_map) (gallery collections : str) :
  returned (find_all_images (script_dir ++ ART_FOLDER) w) = Some imgs ->
  imgs <> [] ->
  returned (find_collections (script_dir ++ ART_FOLDER) w) = Some colls ->
  colls <> [] ->
  lookup (script_dir ++ GALLERY_HTML) (fs w) = Some (File gallery) ->
  lookup (script_dir ++ COLLECTIONS_HTML) (fs w) = Some (File collections) ->
  valid_utf8 gallery = true ->
  valid_utf8 collections = true ->
  occurs GALLERY_START (universal_newlines gallery) ->
  occurs GALLERY_END (universal_newlines gallery) ->
  occurs COLLECTIONS_START (universal_newlines collections) ->
  occurs COLLECTIONS_END (universal_newlines collections) ->
  valid_utf8 (new_file_content (universal_newlines gallery)
                (generate_gallery_html imgs) GALLERY_START GALLERY_END) = true ->
  valid_utf8 (new_file_content (universal_newlines collections)
                (generate_collections_html colls)
                COLLECTIONS_START COLLECTIONS_END) = true ->
  exists w' log,
    main script_dir w = Done tt w' /\
    stdout w' = stdout w ++ log /\
    In (MsgGalleryUpdated (List.length imgs)) log /\
    In (MsgCollectionsUpdated (List.length colls)) log /\
    lookup (script_dir ++ GALLERY_HTML) (fs w')
    = Some (File (new_file_content (universal_newlines gallery)
                    (generate_gallery_html imgs)
                    GALLERY_START GALLERY_END)) /\
    lookup (script_dir ++ COLLECTIONS_HTML) (fs w')
    = Some (File (new_file_content (universal_newlines collections)
                    (generate_collections_html colls)
                    COLLECTIONS_START COLLECTIONS_END)).
Proof.
  intros Ri NEi Rc NEc Lg Lc Vg Vc Gs Ge Cs Ce Eg Ec.
  apply contains_occurs in Gs, Ge, Cs, Ce.
  destruct (main_updates_both script_dir w imgs colls gallery collections
              Ri NEi Rc NEc Lg Lc Vg Vc Gs Ge Cs Ce Eg Ec) as (log & R & I1 & I2).
  eexists. exists log. split; [exact R|]. split; [reflexivity|].
  split; [exact I1|]. split; [exact I2|]. simpl fs. split.
  - rewrite lookup_store_other by (intros E; symmetry in E; revert E; apply pages_differ).
    apply lookup_store_same.
  - apply lookup_store_same.
Qed.

Lemma main_rewrites_both_pages_witness :
  exists w',
    main Demo.site Demo.start = Done tt w' /\
    lookup (Demo.site ++ GALLERY_HTML) (fs w')
    = Some (File (new_file_content Demo.gallery_page
                    (generate_gallery_html
                       [(lit "../art/banner.png", lit "Banner");
                        (lit "../art/landscapes/hill_1.jpg", lit "Hill 1")])
                    GALLERY_START GALLERY_END)).
Proof.
  destruct (main_rewrites_both_pages Demo.site Demo.start
              [(lit "../art/banner.png", lit "Banner");
               (lit "../art/landscapes/hill_1.jpg", lit "Hill 1")]
              [(lit "landscapes", [(lit "../art/landscapes/hill_1.jpg", lit "Hill 1")])]
              Demo.gallery_page Demo.collections_page)
    as (w' & log & R & _ & _ & _ & L & _);
    try reflexivity; try discriminate;
    try (apply contains_occurs; reflexivity).
  exists w'. split; [exact R | exact L].
Defined.
